(** * ThemeGrab: the colour utilities and the theme generator

    A shallow embedding of [src/lib/color-utils.ts] and
    [src/lib/theme-generator.ts].  JavaScript numbers are IEEE-754 binary64
    values, so they are modelled by Rocq's primitive [float]; strings are
    sequences of code units in the range U+0000..U+00FF ([string]); arrays are
    lists; the insertion-ordered [Map] of the generator is an association list
    in insertion order. *)

From Stdlib Require Import Floats ZArith QArith Qround List Bool String Ascii Lia Permutation.
From Stdlib Require Import Sorted.
Import ListNotations.

Set Warnings "-inexact-float".
Close Scope Q_scope.

(** ** The JavaScript primitives the two files call *)

Module JS.

Local Open Scope float_scope.

(** *** Numbers *)

Definition two52 : float := 4503599627370496.

(** [Math.round]: the nearest integer, ties towards +Infinity.  Below 2^52
    in magnitude the sum with 2^52 rounds to the nearest integer, ties to
    even, and leaves the argument less that integer exact, so that a tie
    shows as a difference of one half; every other number (NaN, the zeros
    and the infinities included) is its own rounding.  A negative argument
    that rounds to zero gives -0. *)
Definition Math_round (x : float) : float :=
  if 0 <? x then
    if x <? two52 then
      let r := (x + two52) - two52 in
      if x - r <? 0.5 then r else r + 1
    else x
  else if x <? 0 then
    if - two52 <? x then
      let r := (x - two52) + two52 in
      let r := if x - r <? 0.5 then r else r + 1 in
      if r =? 0 then neg_zero else r
    else x
  else x.

(** [Math.max] and [Math.min] of two numbers: NaN is contagious and +0 is
    larger than -0. *)
Definition max2 (x y : float) : float :=
  if x <? y then y
  else if y <? x then x
  else if x =? y then (if get_sign x then y else x)
  else nan.

Definition min2 (x y : float) : float :=
  if x <? y then x
  else if y <? x then y
  else if x =? y then (if get_sign x then x else y)
  else nan.

Definition Math_max3 (a b c : float) : float := max2 (max2 a b) c.
Definition Math_min3 (a b c : float) : float := min2 (min2 a b) c.

(** The exact value of a number, and the nearest number of an integer times
    a power of two. *)
Definition round_Z2 (m e : Z) : float :=
  SF2Prim (binary_normalize prec emax m e false).

(** The remainder operator [n % d]: exact, with the sign of the dividend. *)
Definition rem (n d : float) : float :=
  match Prim2SF n, Prim2SF d with
  | S754_nan, _ | _, S754_nan => nan
  | S754_infinity _, _ => nan
  | _, S754_zero _ => nan
  | _, S754_infinity _ => n
  | S754_zero _, _ => n
  | S754_finite sn mn en, S754_finite _ md ed =>
      let e := Z.min en ed in
      let N := (Zpos mn * 2 ^ (en - e))%Z in
      let D := (Zpos md * 2 ^ (ed - e))%Z in
      let R := (N mod D)%Z in
      if (R =? 0)%Z then (if sn then neg_zero else PrimFloat.zero)
      else round_Z2 (if sn then (- R)%Z else R) e
  end.

(** The integer a number denotes, when it is one. *)
Definition to_integer (x : float) : option Z :=
  match Prim2SF x with
  | S754_zero _ => Some 0%Z
  | S754_finite s m e =>
      let v := if (0 <=? e)%Z then Some (Zpos m * 2 ^ e)%Z
               else if (Zpos m mod 2 ^ (- e) =? 0)%Z then Some (Zpos m / 2 ^ (- e))%Z
               else None in
      option_map (fun z => if s then (- z)%Z else z) v
  | _ => None
  end.

(** *** Digits *)

Definition digit_char (d : Z) : ascii :=
  if (d <? 10)%Z then ascii_of_nat (48 + Z.to_nat d)
  else ascii_of_nat (87 + Z.to_nat d).

Fixpoint digits_aux (fuel : nat) (base n : Z) (acc : list ascii) : list ascii :=
  match fuel with
  | O => acc
  | S fuel' =>
      let acc' := digit_char (n mod base) :: acc in
      if (n / base =? 0)%Z then acc' else digits_aux fuel' base (n / base) acc'
  end.

(** The digits of a natural number in a base between 2 and 36, most
    significant first, lower-case. *)
Definition digits (base n : Z) : list ascii :=
  digits_aux (S (Z.to_nat (Z.log2 n))) base n [].

Definition str (l : list ascii) : string := string_of_list_ascii l.
Definition chars (s : string) : list ascii := list_ascii_of_string s.

(** *** Number to string

    [Number::toString] in radix 10: the digits [s] (there are [k] of them) and
    the exponent [n] are such that [s * 10^(n-k)] reads back as the number,
    with [k] as small as possible and, among those, [s * 10^(n-k)] closest
    to the number. *)

Local Open Scope Q_scope.

Definition pow10 (t : Z) : Q := Qpower (10 # 1) t.
Definition pow2 (t : Z) : Q := Qpower (2 # 1) t.

Definition Qabs_diff (a b : Q) : Q := if Qle_bool a b then b - a else a - b.

Section Shortest.
(** The number is [m * 2^e], canonical and positive. *)
Variables (m : positive) (e : Z).

Definition value : Q := inject_Z (Zpos m) * pow2 e.
Definition upper : Q := value + pow2 (e - 1).
Definition lower : Q :=
  if ((Zpos m =? 2 ^ 52) && (-1074 <? e))%Z then value - pow2 (e - 2)
  else value - pow2 (e - 1).

(** The decimals that read back as the number: those nearer to it than to
    its neighbours, the midpoints included when the mantissa is even. *)
Definition reads_back (v : Q) : bool :=
  if Z.even (Zpos m) then Qle_bool lower v && Qle_bool v upper
  else negb (Qle_bool v lower) && negb (Qle_bool upper v).

(** The [n] with [10^(n-1) <= value < 10^n]. *)
Definition decimal_exponent : Z :=
  let b := (Zpos (digits2_pos m) + e)%Z in
  let n := ((b - 1) * 30103 / 100000)%Z in
  let ok n := Qle_bool (pow10 (n - 1)) value && negb (Qle_bool (pow10 n) value) in
  match List.find ok [n - 1; n; n + 1; n + 2]%Z with
  | Some n' => n'
  | None => n
  end.

(** The candidates with [k] digits: for each exponent, the two multiples of
    [10^(n-k)] around the number. *)
Definition candidates (k : Z) : list (Z * Z) :=
  let n0 := decimal_exponent in
  flat_map (fun n =>
    let s := Qfloor (value / pow10 (n - k)) in
    filter (fun '(s, n) =>
              (10 ^ (k - 1) <=? s)%Z && (s <? 10 ^ k)%Z
              && reads_back (inject_Z s * pow10 (n - k)))
           [(s, n); ((s + 1)%Z, n)])
    [n0; (n0 + 1)%Z].

Definition closer (k : Z) (a b : Z * Z) : Z * Z :=
  let d p := Qabs_diff (inject_Z (fst p) * pow10 (snd p - k)) value in
  match d a ?= d b with
  | Lt => a
  | Gt => b
  | Eq => if Z.even (fst a) then a else b
  end.

Fixpoint shortest_from (fuel : nat) (k : Z) : Z * Z * Z :=
  match candidates k with
  | c :: cs => let '(s, n) := fold_left (closer k) cs c in (s, n, k)
  | [] =>
      match fuel with
      | S fuel' => shortest_from fuel' (k + 1)%Z
      | O => (Qfloor (value / pow10 (decimal_exponent - k)), decimal_exponent, k)
      end
  end.

(** Seventeen digits always suffice for a binary64 value. *)
Definition shortest : Z * Z * Z := shortest_from 17 1.
End Shortest.

Local Close Scope Q_scope.

Definition zeros (n : Z) : list ascii := repeat "0"%char (Z.to_nat n).

Definition format_decimal (s n k : Z) : list ascii :=
  let ds := digits 10 s in
  if ((k <=? n) && (n <=? 21))%Z then ds ++ zeros (n - k)
  else if ((0 <? n) && (n <=? 21))%Z then
    firstn (Z.to_nat n) ds ++ "."%char :: skipn (Z.to_nat n) ds
  else if ((-6 <? n) && (n <=? 0))%Z then
    "0"%char :: "."%char :: zeros (- n) ++ ds
  else
    let ex := (if (0 <=? n - 1)%Z then "+"%char else "-"%char)
                :: digits 10 (Z.abs (n - 1)) in
    match ds with
    | [d] => d :: "e"%char :: ex
    | d :: rest => d :: "."%char :: rest ++ "e"%char :: ex
    | [] => []
    end.

(** [String(x)], as the template literals of the source apply it. *)
Definition Number_toString (x : float) : string :=
  match Prim2SF x with
  | S754_nan => "NaN"
  | S754_zero _ => "0"
  | S754_infinity s => if s then "-Infinity" else "Infinity"
  | S754_finite sg m e =>
      let '(s, n, k) := shortest m e in
      str ((if sg then ["-"%char] else []) ++ format_decimal s n k)
  end.

(** [x.toString(16)].  The generator applies it to colour channels, which are
    integers, infinities or NaN; the fraction digits of any other number are
    left out of the model. *)
Definition Number_toString16 (x : float) : string :=
  match Prim2SF x with
  | S754_nan => "NaN"
  | S754_zero _ => "0"
  | S754_infinity s => if s then "-Infinity" else "Infinity"
  | S754_finite sg m e =>
      let z := if (0 <=? e)%Z then (Zpos m * 2 ^ e)%Z else (Zpos m / 2 ^ (- e))%Z in
      str ((if sg then ["-"%char] else []) ++ digits 16 z)
  end.

(** *** String to number *)

Definition is_digit (c : ascii) : bool :=
  let n := nat_of_ascii c in (48 <=? n)%nat && (n <=? 57)%nat.

Definition is_hex_digit (c : ascii) : bool :=
  let n := nat_of_ascii c in
  is_digit c || ((97 <=? n)%nat && (n <=? 102)%nat) || ((65 <=? n)%nat && (n <=? 70)%nat).

Definition digit_value (c : ascii) : Z :=
  let n := Z.of_nat (nat_of_ascii c) in
  if (n <=? 57)%Z then (n - 48)%Z
  else if (n <=? 70)%Z then (n - 55)%Z
  else (n - 87)%Z.

Definition Z_of_digits (base : Z) (l : list ascii) : Z :=
  fold_left (fun acc c => (acc * base + digit_value c)%Z) l 0%Z.

(** [parseInt] of a non-empty run of digits of the base: the nearest number
    to the integer they write. *)
Definition parseInt (base : Z) (l : list ascii) : float :=
  round_Z2 (Z_of_digits base l) 0.

(** [parseFloat] of [int] or [int.frac], both runs of decimal digits: the
    nearest number to the decimal they write. *)
Definition parseFloat (int frac : list ascii) : float :=
  match Z_of_digits 10 (int ++ frac), (10 ^ Z.of_nat (List.length frac))%Z with
  | Zpos a, Zpos b =>
      SF2Prim (SFdiv prec emax (S754_finite false a 0) (S754_finite false b 0))
  | _, _ => 0
  end.

(** *** Strings *)

(** White space and line terminators among the code units below U+0100. *)
Definition is_space (c : ascii) : bool :=
  let n := nat_of_ascii c in
  ((9 <=? n)%nat && (n <=? 13)%nat) || (n =? 32)%nat || (n =? 160)%nat.

Fixpoint trimStart (l : list ascii) : list ascii :=
  match l with
  | c :: l' => if is_space c then trimStart l' else l
  | [] => []
  end.

Definition trim (l : list ascii) : list ascii :=
  rev (trimStart (rev (trimStart l))).

Definition lower_char (c : ascii) : ascii :=
  let n := nat_of_ascii c in
  if ((65 <=? n)%nat && (n <=? 90)%nat)
     || ((192 <=? n)%nat && (n <=? 222)%nat && negb (n =? 215)%nat)
  then ascii_of_nat (n + 32) else c.

Definition toLowerCase (l : list ascii) : list ascii := map lower_char l.

Definition padStart (width : nat) (fill : ascii) (l : list ascii) : list ascii :=
  repeat fill (width - List.length l) ++ l.

(** *** Arrays *)

(** [Array.prototype.sort] with a comparison function: the sort is stable,
    and [a] goes after [b] exactly when the comparison of [a] with [b] is a
    positive number (NaN counts as zero).  For a consistent comparison every
    stable sort gives this result; it is here an insertion sort. *)
Section Sort.
Context {A : Type} (after : A -> A -> bool).

Fixpoint insert (x : A) (l : list A) : list A :=
  match l with
  | [] => [x]
  | y :: l' => if after x y then y :: insert x l' else x :: l
  end.

Fixpoint sort_by (l : list A) : list A :=
  match l with
  | [] => []
  | x :: l' => insert x (sort_by l')
  end.
End Sort.

(** The comparison function returns a number... *)
Definition sort {A} (cmp : A -> A -> float) : list A -> list A :=
  sort_by (fun a b => 0 <? cmp a b).

(** ... which for array lengths and other small integers is an exact
    integer. *)
Definition sortZ {A} (cmp : A -> A -> Z) : list A -> list A :=
  sort_by (fun a b => (0 <? cmp a b)%Z).

(** An array length as a number. *)
Definition number_of_nat (n : nat) : float :=
  of_uint63 (Uint63.of_Z (Z.of_nat n)).

(** [a.slice(0, k)] and [a.slice(-k)] for a count [k] within the length. *)
Definition slice_first {A} (k : nat) (l : list A) : list A := firstn k l.
Definition slice_last {A} (k : nat) (l : list A) : list A :=
  match k with
  | O => l
  | _ => skipn (List.length l - k) l
  end.

End JS.

(** ** [color-utils.ts] *)

Module ColorUtils.
Import JS.
Local Open Scope float_scope.

Record RGB := { r : float; g : float; b : float }.
Record HSL := { h : float; s : float; l : float }.

(** *** The regular expressions of [parseColor] and [hexToRgb]

    Each matcher follows its expression left to right.  The expressions are
    deterministic: a run of digits or of white space is never followed by a
    character of its own class, so the greedy choice is the only one that
    can succeed. *)

Fixpoint span (p : ascii -> bool) (l : list ascii) : list ascii * list ascii :=
  match l with
  | c :: l' => if p c then let '(a, rest) := span p l' in (c :: a, rest) else ([], l)
  | [] => ([], [])
  end.

Fixpoint lit (pat l : list ascii) : option (list ascii) :=
  match pat, l with
  | [], _ => Some l
  | p :: pat', c :: l' => if Ascii.eqb p c then lit pat' l' else None
  | _ :: _, [] => None
  end.

Definition opt_char (c : ascii) (l : list ascii) : list ascii :=
  match l with
  | c' :: l' => if Ascii.eqb c c' then l' else l
  | [] => l
  end.

(** [\d+]: a non-empty maximal run of digits. *)
Definition digits1 (l : list ascii) : option (list ascii * list ascii) :=
  match span is_digit l with
  | ([], _) => None
  | p => Some p
  end.

(** [\d+(?:\.\d+)?]: the integer digits, the fraction digits, the rest. *)
Definition decimal (l : list ascii) : option (list ascii * list ascii * list ascii) :=
  match digits1 l with
  | None => None
  | Some (i, rest) =>
      match rest with
      | "."%char :: rest' =>
          match digits1 rest' with
          | Some (f, rest'') => Some (i, f, rest'')
          | None => Some (i, [], rest)
          end
      | _ => Some (i, [], rest)
      end
  end.

Definition skip_space (l : list ascii) : list ascii := snd (span is_space l).

Notation "x <- e ;; k" := (match e with Some x => k | None => None end)
  (at level 60, e at next level, right associativity, only parsing).
Notation "' p <- e ;; k" := (match e with Some p => k | None => None end)
  (at level 60, p pattern, e at next level, right associativity, only parsing).

(** [/rgba?\((\d+),\s*(\d+),\s*(\d+)/] at the head of [l]. *)
Definition rgb_at (l : list ascii) : option (list ascii * list ascii * list ascii) :=
  l <- lit (chars "rgb") l ;;
  l <- lit (chars "(") (opt_char "a" l) ;;
  '(d1, l) <- digits1 l ;;
  l <- lit (chars ",") l ;;
  '(d2, l) <- digits1 (skip_space l) ;;
  l <- lit (chars ",") l ;;
  '(d3, _) <- digits1 (skip_space l) ;;
  Some (d1, d2, d3).

(** [/hsla?\((\d+(?:\.\d+)?),\s*(\d+(?:\.\d+)?)%?,\s*(\d+(?:\.\d+)?)%?/] at
    the head of [l]. *)
Definition hsl_at (l : list ascii)
  : option ((list ascii * list ascii) * (list ascii * list ascii) * (list ascii * list ascii)) :=
  l <- lit (chars "hsl") l ;;
  l <- lit (chars "(") (opt_char "a" l) ;;
  '(i1, f1, l) <- decimal l ;;
  l <- lit (chars ",") l ;;
  '(i2, f2, l) <- decimal (skip_space l) ;;
  l <- lit (chars ",") (opt_char "%" l) ;;
  '(i3, f3, _) <- decimal (skip_space l) ;;
  Some ((i1, f1), (i2, f2), (i3, f3)).

(** [String.prototype.match] without the global flag: the leftmost match. *)
Fixpoint search {A} (at_head : list ascii -> option A) (l : list ascii) : option A :=
  match at_head l with
  | Some m => Some m
  | None => match l with
            | _ :: l' => search at_head l'
            | [] => None
            end
  end.

(** Hex to RGB conversion *)
Definition hexToRgb (hex : list ascii) : option RGB :=
  let body := opt_char "#" hex in
  if forallb is_hex_digit body then
    match body with
    | [r1; r2; g1; g2; b1; b2] =>
        Some {| r := parseInt 16 [r1; r2]; g := parseInt 16 [g1; g2]; b := parseInt 16 [b1; b2] |}
    | [r1; g1; b1] =>
        Some {| r := parseInt 16 [r1; r1]; g := parseInt 16 [g1; g1]; b := parseInt 16 [b1; b1] |}
    | _ => None
    end
  else None.

(** RGB to HSL conversion *)
Definition rgbToHsl (rgb : RGB) : HSL :=
  let r := rgb.(r) / 255 in
  let g := rgb.(g) / 255 in
  let b := rgb.(b) / 255 in
  let max := Math_max3 r g b in
  let min := Math_min3 r g b in
  let l := (max + min) / 2 in
  let '(h, s) :=
    if max =? min then (0, 0)
    else
      let d := max - min in
      let s := if 0.5 <? l then d / (2 - max - min) else d / (max + min) in
      let h :=
        if max =? r then ((g - b) / d + (if g <? b then 6 else 0)) / 6
        else if max =? g then ((b - r) / d + 2) / 6
        else if max =? b then ((r - g) / d + 4) / 6
        else 0 in
      (h, s) in
  {| h := Math_round (h * 360 * 10) / 10;
     s := Math_round (s * 100 * 10) / 10;
     l := Math_round (l * 100 * 10) / 10 |}.

Definition hue2rgb (p q t : float) : float :=
  let t := if t <? 0 then t + 1 else t in
  let t := if 1 <? t then t - 1 else t in
  if t <? 1 / 6 then p + (q - p) * 6 * t
  else if t <? 1 / 2 then q
  else if t <? 2 / 3 then p + (q - p) * (2 / 3 - t) * 6
  else p.

(** HSL to RGB conversion *)
Definition hslToRgb (hsl : HSL) : RGB :=
  let h := hsl.(h) / 360 in
  let s := hsl.(s) / 100 in
  let l := hsl.(l) / 100 in
  let '(r, g, b) :=
    if s =? 0 then (l, l, l)
    else
      let q := if l <? 0.5 then l * (1 + s) else l + s - l * s in
      let p := 2 * l - q in
      (hue2rgb p q (h + 1 / 3), hue2rgb p q h, hue2rgb p q (h - 1 / 3)) in
  {| r := Math_round (r * 255); g := Math_round (g * 255); b := Math_round (b * 255) |}.

(** Named colors (common ones) *)
Definition namedColors : list (string * string) :=
  [ ("white", "#ffffff"); ("black", "#000000"); ("red", "#ff0000");
    ("green", "#00ff00"); ("blue", "#0000ff"); ("yellow", "#ffff00");
    ("cyan", "#00ffff"); ("magenta", "#ff00ff"); ("gray", "#808080");
    ("grey", "#808080"); ("orange", "#ffa500"); ("purple", "#800080");
    ("pink", "#ffc0cb"); ("transparent", "#00000000") ]%string.

Fixpoint lookup (key : string) (table : list (string * string)) : option string :=
  match table with
  | (k, v) :: table' => if String.eqb k key then Some v else lookup key table'
  | [] => None
  end.

(** Parse any color format to RGB.  A name that is not in the table but is a
    property every object inherits leads to [hexToRgb] of a text that is no
    hex colour, hence to [null] as well. *)
Definition parseColor (color : string) : option RGB :=
  let color := toLowerCase (trim (chars color)) in
  match color with
  | "#"%char :: _ => hexToRgb color
  | _ =>
      match search rgb_at color with
      | Some (d1, d2, d3) =>
          Some {| r := parseInt 10 d1; g := parseInt 10 d2; b := parseInt 10 d3 |}
      | None =>
          match search hsl_at color with
          | Some ((i1, f1), (i2, f2), (i3, f3)) =>
              Some (hslToRgb {| h := parseFloat i1 f1; s := parseFloat i2 f2; l := parseFloat i3 f3 |})
          | None =>
              match lookup (str color) namedColors with
              | Some hex => hexToRgb (chars hex)
              | None => None
              end
          end
      end
  end.

(** Format HSL for shadcn (without hsl() wrapper, just values) *)
Definition formatHslForShadcn (hsl : HSL) : string :=
  (Number_toString hsl.(h) ++ " " ++ Number_toString hsl.(s) ++ "% "
   ++ Number_toString hsl.(l) ++ "%")%string.

Section Luminance.
(** [Math.pow] is approximated by the platform; the model takes it as given. *)
Variable Math_pow : float -> float -> float.

Definition linearize (c : float) : float :=
  let c := c / 255 in
  if c <=? 0.03928 then c / 12.92 else Math_pow ((c + 0.055) / 1.055) 2.4.

(** Calculate color luminance (for contrast calculations) *)
Definition getLuminance (rgb : RGB) : float :=
  0.2126 * linearize rgb.(r) + 0.7152 * linearize rgb.(g) + 0.0722 * linearize rgb.(b).

(** Check if a color is light or dark *)
Definition isLightColor (rgb : RGB) : bool := 0.5 <? getLuminance rgb.

(** Color distance (Euclidean in RGB space) *)
Definition colorDistance (c1 c2 : RGB) : float :=
  sqrt (Math_pow (c1.(r) - c2.(r)) 2 + Math_pow (c1.(g) - c2.(g)) 2
        + Math_pow (c1.(b) - c2.(b)) 2).
End Luminance.

(** *** Median cut color quantization for image analysis *)

Record ColorBucket := { colors : list RGB; count : nat }.

Definition mkBucket (cs : list RGB) : ColorBucket :=
  {| colors := cs; count := List.length cs |}.

Inductive channel := chR | chG | chB.

Definition get (k : channel) (c : RGB) : float :=
  match k with chR => c.(r) | chG => c.(g) | chB => c.(b) end.

(** Find the channel with the largest range *)
Definition range (k : channel) (cs : list RGB) : float :=
  let '(mn, mx) :=
    fold_left (fun '(mn, mx) c => (min2 mn (get k c), max2 mx (get k c))) cs (255, 0) in
  mx - mn.

Definition sortKey (cs : list RGB) : channel :=
  let rRange := range chR cs in
  let gRange := range chG cs in
  let bRange := range chB cs in
  if (gRange <=? rRange) && (bRange <=? rRange) then chR
  else if (rRange <=? gRange) && (bRange <=? gRange) then chG
  else chB.

(** The [while] loop, run while [buckets.length < maxColors].  Every turn
    that does not [break] adds one bucket and no bucket is ever empty, so
    the loop takes fewer turns than there are pixels; [turns] bounds them. *)
Fixpoint split_loop (turns : nat) (maxColors : float) (buckets : list ColorBucket)
  : list ColorBucket :=
  match turns with
  | O => buckets
  | S turns' =>
      if number_of_nat (List.length buckets) <? maxColors then
        (* Sort buckets by count and pick the largest *)
        let buckets := sortZ (fun a b => Z.of_nat b.(count) - Z.of_nat a.(count))%Z buckets in
        match buckets with
        | [] => buckets
        | bucket :: rest =>
            if (List.length bucket.(colors) <? 2)%nat then buckets
            else
              let k := sortKey bucket.(colors) in
              (* Sort by the selected channel and split *)
              let sorted := sort (fun a b => get k a - get k b) bucket.(colors) in
              let mid := (List.length sorted / 2)%nat in
              let bucket1 := firstn mid sorted in
              let bucket2 := skipn mid sorted in
              split_loop turns' maxColors (mkBucket bucket1 :: rest ++ [mkBucket bucket2])
        end
      else buckets
  end.

(** Calculate average color for each bucket *)
Definition average (bucket : ColorBucket) : RGB :=
  let avg :=
    fold_left (fun acc c => {| r := acc.(r) + c.(r); g := acc.(g) + c.(g); b := acc.(b) + c.(b) |})
              bucket.(colors) {| r := 0; g := 0; b := 0 |} in
  let count := number_of_nat (List.length bucket.(colors)) in
  {| r := Math_round (avg.(r) / count);
     g := Math_round (avg.(g) / count);
     b := Math_round (avg.(b) / count) |}.

Definition medianCutQuantize (pixels : list RGB) (maxColors : float) : list RGB :=
  match pixels with
  | [] => []
  | _ => map average (split_loop (List.length pixels) maxColors [mkBucket pixels])
  end.


(** RGB to Hex conversion *)
Definition rgbToHex (rgb : RGB) : string :=
  let part x :=
    let hex := chars (Number_toString16 (Math_round x)) in
    if (List.length hex =? 1)%nat then "0"%char :: hex else hex in
  str ("#"%char :: part rgb.(r) ++ part rgb.(g) ++ part rgb.(b)).

Section Contrast.
Variable Math_pow : float -> float -> float.

(** Calculate contrast ratio between two colors *)
Definition getContrastRatio (color1 color2 : RGB) : float :=
  let lum1 := getLuminance Math_pow color1 in
  let lum2 := getLuminance Math_pow color2 in
  let lighter := max2 lum1 lum2 in
  let darker := min2 lum1 lum2 in
  (lighter + 0.05) / (darker + 0.05).
End Contrast.

Local Open Scope list_scope.

(** *** Extract all colors from CSS text

    The four expressions of [colorPatterns], each as a matcher at the head
    of a text that gives the match and the rest of the text.  As in
    [parseColor], a run of digits or of white space is never followed by a
    character of its own class, so the greedy choice is the only one that
    can succeed; the optional alpha part is taken when a comma follows. *)

(** A character of a word, for [\b]. *)
Definition is_word (c : ascii) : bool :=
  let n := nat_of_ascii c in
  is_digit c || ((65 <=? n)%nat && (n <=? 90)%nat) || ((97 <=? n)%nat && (n <=? 122)%nat)
  || (n =? 95)%nat.

(** [\b] after a character of a word. *)
Definition boundary (l : list ascii) : bool :=
  match l with
  | c :: _ => negb (is_word c)
  | [] => true
  end.

(** [/#[a-fA-F0-9]{n}\b/] *)
Definition hex_at (n : nat) (l : list ascii) : option (list ascii * list ascii) :=
  match l with
  | "#"%char :: l' =>
      let ds := firstn n l' in
      if (List.length ds =? n)%nat && forallb is_hex_digit ds && boundary (skipn n l')
      then Some ("#"%char :: ds, skipn n l') else None
  | _ => None
  end.

(** A literal under the flag [i]; the letters of [pat] are in lower case. *)
Fixpoint lit_ci (pat l : list ascii) : option (list ascii) :=
  match pat, l with
  | [], _ => Some l
  | p :: pat', c :: l' => if Ascii.eqb p (lower_char c) then lit_ci pat' l' else None
  | _ :: _, [] => None
  end.

Definition opt_ci (c : ascii) (l : list ascii) : list ascii :=
  match l with
  | c' :: l' => if Ascii.eqb c (lower_char c') then l' else l
  | [] => l
  end.

(** [[\d.]+] *)
Definition is_number_char (c : ascii) : bool := is_digit c || Ascii.eqb c ".".

Definition number1 (l : list ascii) : option (list ascii) :=
  match span is_number_char l with
  | ([], _) => None
  | (_, rest) => Some rest
  end.

Definition digits_then (l : list ascii) : option (list ascii) :=
  option_map snd (digits1 l).

(** The optional alpha part, a comma and a number between white space,
    and the closing parenthesis. *)
Definition alpha_close (l : list ascii) : option (list ascii) :=
  match l with
  | ","%char :: l' =>
      l <- number1 (skip_space l') ;;
      lit (chars ")") (skip_space l)
  | _ => lit (chars ")") l
  end.

(** What a matcher has gone over, with what is left. *)
Definition matched (l : list ascii) (rest : option (list ascii))
  : option (list ascii * list ascii) :=
  option_map (fun rest => (firstn (List.length l - List.length rest) l, rest)) rest.

(** [/rgba?\(\s*\d+\s*,\s*\d+\s*,\s*\d+\s*/i], then the alpha part and the
    closing parenthesis. *)
Definition rgb_css_at (l : list ascii) : option (list ascii * list ascii) :=
  matched l (
    l <- lit_ci (chars "rgb") l ;;
    l <- lit (chars "(") (opt_ci "a" l) ;;
    l <- digits_then (skip_space l) ;;
    l <- lit (chars ",") (skip_space l) ;;
    l <- digits_then (skip_space l) ;;
    l <- lit (chars ",") (skip_space l) ;;
    l <- digits_then (skip_space l) ;;
    alpha_close (skip_space l)).

(** [/hsla?\(\s*[\d.]+\s*,\s*[\d.]+%?\s*,\s*[\d.]+%?\s*/i], then the alpha
    part and the closing parenthesis. *)
Definition hsl_css_at (l : list ascii) : option (list ascii * list ascii) :=
  matched l (
    l <- lit_ci (chars "hsl") l ;;
    l <- lit (chars "(") (opt_ci "a" l) ;;
    l <- number1 (skip_space l) ;;
    l <- lit (chars ",") (skip_space l) ;;
    l <- number1 (skip_space l) ;;
    l <- lit (chars ",") (skip_space (opt_char "%" l)) ;;
    l <- number1 (skip_space l) ;;
    alpha_close (skip_space (opt_char "%" l))).

Definition colorPatterns : list (list ascii -> option (list ascii * list ascii)) :=
  [hex_at 6; hex_at 3; rgb_css_at; hsl_css_at].

(** [String.prototype.match] with the flag [g]: the matches from left to
    right, each search starting where the match before ended.  [skip] counts
    the characters of the last match that are still ahead. *)
Fixpoint matchAll (at_head : list ascii -> option (list ascii * list ascii))
                  (skip : nat) (l : list ascii) : list (list ascii) :=
  match l with
  | [] => []
  | _ :: l' =>
      match skip with
      | S k => matchAll at_head k l'
      | O =>
          match at_head l with
          | Some (m, _) => m :: matchAll at_head (List.length m - 1) l'
          | None => matchAll at_head 0 l'
          end
      end
  end.

(** [Set.prototype.add]: the elements stay in the order of their first
    insertion. *)
Definition setAdd (colors : list string) (x : string) : list string :=
  if existsb (String.eqb x) colors then colors else colors ++ [x].

Definition extractColorsFromCSS (css : string) : list string :=
  fold_left (fun colors pattern =>
    fold_left (fun colors m => setAdd colors (str (toLowerCase m)))
              (matchAll pattern 0 (chars css)) colors)
    colorPatterns [].

Local Open Scope float_scope.

(** *** Extract colors from image data

    [ImageData.data] holds four bytes for each pixel: red, green, blue and
    alpha.  The model groups them by pixel, and the index [i] of the loop,
    which goes up by [4 * sampleRate] bytes, by [sampleRate] pixels. *)
Record Pixel := { red : nat; green : nat; blue : nat; alpha : nat }.


(** The pixel is pushed: it is neither skipped as transparent nor as very
    dark or very light. *)
Definition kept (p : Pixel) : bool :=
  (* Skip transparent pixels *)
  if number_of_nat p.(alpha) <? 128 then false
  else
    (* Skip very dark and very light pixels (often backgrounds) *)
    let luminance :=
      (0.299 * number_of_nat p.(red) + 0.587 * number_of_nat p.(green)
       + 0.114 * number_of_nat p.(blue)) / 255 in
    if (luminance <? 0.05) || (0.95 <? luminance) then false else true.




End ColorUtils.

(** ** [theme-generator.ts] *)

Module ThemeGenerator.
Import JS ColorUtils.
Local Open Scope float_scope.

Record ThemeColors := {
  background : string;
  foreground : string;
  card : string;
  cardForeground : string;
  popover : string;
  popoverForeground : string;
  primary : string;
  primaryForeground : string;
  secondary : string;
  secondaryForeground : string;
  muted : string;
  mutedForeground : string;
  accent : string;
  accentForeground : string;
  destructive : string;
  destructiveForeground : string;
  border : string;
  input : string;
  ring : string
}.

Record ColorDetail := { detail_hex : string; detail_frequency : float; detail_hue : float }.

Record ExtractedTheme := {
  light : ThemeColors;
  dark : ThemeColors;
  sourceColors : list string;
  colorDetails : list ColorDetail
}.

Record ColorWithFrequency := {
  color : RGB;
  hsl : HSL;
  frequency : float;
  hex : string
}.

(** The key of the colour map: [#] and the three channels in base 16, each
    padded to two characters. *)
Definition hexOf (rgb : RGB) : string :=
  let part x := padStart 2 "0" (chars (Number_toString16 x)) in
  str ("#"%char :: part rgb.(r) ++ part rgb.(g) ++ part rgb.(b)).

(** *** Parse and deduplicate colors

    The map from hex to [ColorWithFrequency], in insertion order. *)
Definition has (key : string) (m : list ColorWithFrequency) : bool :=
  existsb (fun c => String.eqb c.(hex) key) m.

Fixpoint increment (key : string) (m : list ColorWithFrequency) : list ColorWithFrequency :=
  match m with
  | [] => []
  | c :: m' =>
      if String.eqb c.(hex) key
      then {| color := c.(color); hsl := c.(hsl); frequency := c.(frequency) + 1; hex := c.(hex) |} :: m'
      else c :: increment key m'
  end.

Definition addColor (m : list ColorWithFrequency) (colorStr : string) : list ColorWithFrequency :=
  match parseColor colorStr with
  | None => m
  | Some rgb =>
      let hex := hexOf rgb in
      let hsl := rgbToHsl rgb in
      if has hex m then increment hex m
      else m ++ [{| color := rgb; hsl := hsl; frequency := 1; hex := hex |}]
  end.

Definition colorMap (colorStrings : list string) : list ColorWithFrequency :=
  fold_left addColor colorStrings [].

(** *** Group colors by hue into buckets *)

(** Key equality of a [Map]: equal numbers, or both NaN. *)
Definition sameValueZero (x y : float) : bool := (x =? y) || (is_nan x && is_nan y).

Fixpoint push (key : float) (c : ColorWithFrequency)
              (groups : list (float * list ColorWithFrequency)) :=
  match groups with
  | [] => [(key, [c])]
  | (k, cs) :: groups' =>
      if sameValueZero k key then (k, cs ++ [c]) :: groups'
      else (k, cs) :: push key c groups'
  end.

Definition hueBucket (c : ColorWithFrequency) : float :=
  rem (Math_round (c.(hsl).(h) / 30) * 30) 360.

Definition groupColorsByHue (colors : list ColorWithFrequency)
  : list (float * list ColorWithFrequency) :=
  fold_left (fun groups c =>
    (* Skip very desaturated colors (grays) *)
    if c.(hsl).(s) <? 15 then groups
    (* Skip very dark or very light colors *)
    else if (c.(hsl).(l) <? 15) || (90 <? c.(hsl).(l)) then groups
    else push (hueBucket c) c groups) colors [].

(** Check if a color is likely a UI/warning color (red, orange for errors) *)
Definition isLikelyUIColor (hsl : HSL) : bool :=
  let isRedOrange :=
    ((0 <=? hsl.(h)) && (hsl.(h) <=? 30)) || ((330 <=? hsl.(h)) && (hsl.(h) <=? 360)) in
  isRedOrange && (70 <? hsl.(s)).

Definition sum (f : ColorWithFrequency -> float) (cs : list ColorWithFrequency) : float :=
  fold_left (fun acc c => acc + f c) cs 0.

(** Score each hue group by total frequency and average saturation *)
Definition groupScore (hue : float) (groupColors : list ColorWithFrequency) : float :=
  let n := number_of_nat (List.length groupColors) in
  let totalFrequency := sum frequency groupColors in
  let avgSaturation := sum (fun c => c.(hsl).(s)) groupColors / n in
  let avgHsl := {| h := hue; s := avgSaturation;
                   l := sum (fun c => c.(hsl).(l)) groupColors / n |} in
  let uiPenalty := if isLikelyUIColor avgHsl then 0.3 else 1 in
  (totalFrequency * 0.7 + avgSaturation * 0.3) * uiPenalty.

Record Group := {
  group_hue : float;
  group_colors : list ColorWithFrequency;
  group_score : float
}.

Definition bestGroup (hueGroups : list (float * list ColorWithFrequency)) : option Group :=
  fold_left (fun best '(hue, groupColors) =>
    let score := groupScore hue groupColors in
    match best with
    | None => Some {| group_hue := hue; group_colors := groupColors; group_score := score |}
    | Some b =>
        if b.(group_score) <? score
        then Some {| group_hue := hue; group_colors := groupColors; group_score := score |}
        else best
    end) hueGroups None.

Definition byFrequency (a b : ColorWithFrequency) : float := b.(frequency) - a.(frequency).

(** Prioritize frequency, then saturation *)
Definition colorScore (c : ColorWithFrequency) : float := c.(frequency) * 2 + c.(hsl).(s).

(** Find the most saturated color (likely the primary/brand color) *)
Definition findPrimaryColor (colors : list ColorWithFrequency) : option ColorWithFrequency :=
  let hueGroups := groupColorsByHue colors in
  match hueGroups with
  | [] =>
      (* Fallback to old method if no good candidates *)
      let candidates :=
        filter (fun c => (20 <? c.(hsl).(s)) && (15 <? c.(hsl).(l)) && (c.(hsl).(l) <? 85)) colors in
      hd_error (sort byFrequency candidates)
  | _ =>
      match bestGroup hueGroups with
      | None => None
      | Some best =>
          hd_error (sort (fun a b => colorScore b - colorScore a) best.(group_colors))
      end
  end.

(** Find a secondary/accent color (different hue from primary) *)
Definition findAccentColor (colors : list ColorWithFrequency) (primaryHue : float)
  : option ColorWithFrequency :=
  let candidates :=
    filter (fun c =>
      if c.(hsl).(s) <? 25 then false
      else if (c.(hsl).(l) <? 20) || (80 <? c.(hsl).(l)) then false
      else
        let hueDiff := abs (c.(hsl).(h) - primaryHue) in
        let hueDistance := min2 hueDiff (360 - hueDiff) in
        60 <? hueDistance) colors in
  hd_error (sort byFrequency candidates).

(** Generate a muted version of a color *)
Definition muteColor (hsl : HSL) (lightMode : bool) : HSL :=
  if lightMode
  then {| h := hsl.(h); s := min2 (hsl.(s) * 0.3) 15; l := max2 hsl.(l) 95 |}
  else {| h := hsl.(h); s := min2 (hsl.(s) * 0.3) 15; l := min2 hsl.(l) 15 |}.

(** Generate a border color from background *)
Definition generateBorderColor (backgroundHsl : HSL) (lightMode : bool) : HSL :=
  if lightMode
  then {| h := backgroundHsl.(h); s := min2 (backgroundHsl.(s) + 10) 40;
          l := max2 (backgroundHsl.(l) - 10) 85 |}
  else {| h := backgroundHsl.(h); s := min2 (backgroundHsl.(s) + 10) 40;
          l := min2 (backgroundHsl.(l) + 15) 25 |}.

(** Default colors if extraction fails *)
Definition defaultLight : RGB := {| r := 255; g := 255; b := 255 |}.
Definition defaultDark : RGB := {| r := 9; g := 9; b := 11 |}.
Definition defaultPrimary : RGB := {| r := 24; g := 24; b := 27 |}.

(** Sort colors by frequency for display, filter out pure blacks/whites/grays *)
Definition sortedColors (colors : list ColorWithFrequency) : list ColorWithFrequency :=
  slice_first 12
    (sort byFrequency
       (filter (fun c => (10 <? c.(hsl).(s)) || ((5 <? c.(hsl).(l)) && (c.(hsl).(l) <? 95))) colors)).

Definition detail (c : ColorWithFrequency) : ColorDetail :=
  {| detail_hex := c.(hex); detail_frequency := c.(frequency);
     detail_hue := Math_round c.(hsl).(h) |}.

Section Generator.
Variable Math_pow : float -> float -> float.

(** Sort colors by their role (light to dark for backgrounds, etc.) *)
Definition sortColorsByLuminance (colors : list ColorWithFrequency) : list ColorWithFrequency :=
  sort (fun a b => getLuminance Math_pow b.(color) - getLuminance Math_pow a.(color)) colors.

(** Find a foreground color that contrasts well with a background *)
Definition findForegroundColor (background : RGB) (colors : list ColorWithFrequency)
  : option ColorWithFrequency :=
  let bgIsLight := isLightColor Math_pow background in
  (* Filter colors by contrast *)
  let candidates :=
    filter (fun c => negb (Bool.eqb (isLightColor Math_pow c.(color)) bgIsLight)) colors in
  (* Sort by how different they are from the background *)
  hd_error
    (sort (fun a b => colorDistance Math_pow b.(color) background
                      - colorDistance Math_pow a.(color) background) candidates).

(** Generate theme from extracted colors *)
Definition generateTheme (colorStrings : list string) : ExtractedTheme :=
  let colors := colorMap colorStrings in
  let sortedByLuminance := sortColorsByLuminance colors in
  (* Find key colors *)
  let third := ((List.length sortedByLuminance + 2) / 3)%nat in
  let lightestColors := slice_first third sortedByLuminance in
  let darkestColors := slice_last third sortedByLuminance in
  let primaryCandidate := findPrimaryColor colors in
  (* Select background colors *)
  let lightBackground :=
    match hd_error lightestColors with Some c => c.(color) | None => defaultLight end in
  let darkBackground :=
    match hd_error (rev darkestColors) with Some c => c.(color) | None => defaultDark end in
  (* Select foreground colors *)
  let lightForeground :=
    match findForegroundColor lightBackground colors with
    | Some c => c.(color) | None => defaultDark end in
  let darkForeground :=
    match findForegroundColor darkBackground colors with
    | Some c => c.(color) | None => defaultLight end in
  (* Select primary color *)
  let primary := match primaryCandidate with Some c => c.(color) | None => defaultPrimary end in
  let primaryHsl := rgbToHsl primary in
  (* Generate secondary color (desaturated primary) *)
  let secondaryHsl := {| h := primaryHsl.(h); s := max2 (primaryHsl.(s) * 0.3) 10; l := 96 |} in
  let secondaryDarkHsl := {| h := primaryHsl.(h); s := max2 (primaryHsl.(s) * 0.3) 10; l := 17 |} in
  (* Find an accent color (different hue from primary) or generate one *)
  let accentHsl :=
    match findAccentColor colors primaryHsl.(h) with
    | Some c => c.(hsl)
    | None => {| h := rem (primaryHsl.(h) + 180) 360; (* Complementary color if no accent found *)
                 s := min2 primaryHsl.(s) 60;
                 l := primaryHsl.(l) |}
    end in
  (* Muted colors *)
  let mutedLightHsl := muteColor (rgbToHsl lightBackground) true in
  let mutedDarkHsl := muteColor (rgbToHsl darkBackground) false in
  (* Border colors *)
  let borderLightHsl := generateBorderColor (rgbToHsl lightBackground) true in
  let borderDarkHsl := generateBorderColor (rgbToHsl darkBackground) false in
  (* Muted foreground *)
  let mutedForegroundLightHsl := {| h := primaryHsl.(h); s := 16; l := 47 |} in
  let mutedForegroundDarkHsl := {| h := primaryHsl.(h); s := 20; l := 65 |} in
  (* Primary foreground (contrasting with primary) *)
  let primaryForegroundHsl :=
    if isLightColor Math_pow primary
    then {| h := primaryHsl.(h); s := min2 primaryHsl.(s) 50; l := 10 |}
    else {| h := primaryHsl.(h); s := min2 primaryHsl.(s) 50; l := 98 |} in
  let light := {|
    background := formatHslForShadcn (rgbToHsl lightBackground);
    foreground := formatHslForShadcn (rgbToHsl lightForeground);
    card := formatHslForShadcn (rgbToHsl lightBackground);
    cardForeground := formatHslForShadcn (rgbToHsl lightForeground);
    popover := formatHslForShadcn (rgbToHsl lightBackground);
    popoverForeground := formatHslForShadcn (rgbToHsl lightForeground);
    primary := formatHslForShadcn primaryHsl;
    primaryForeground := formatHslForShadcn primaryForegroundHsl;
    secondary := formatHslForShadcn secondaryHsl;
    secondaryForeground := formatHslForShadcn primaryHsl;
    muted := formatHslForShadcn mutedLightHsl;
    mutedForeground := formatHslForShadcn mutedForegroundLightHsl;
    accent := formatHslForShadcn accentHsl;
    accentForeground := formatHslForShadcn primaryHsl;
    destructive := "0 84.2% 60.2%";
    destructiveForeground := "0 0% 98%";
    border := formatHslForShadcn borderLightHsl;
    input := formatHslForShadcn borderLightHsl;
    ring := formatHslForShadcn primaryHsl
  |} in
  (* Dark theme - invert relationships *)
  let darkPrimaryHsl :=
    {| h := primaryHsl.(h); s := primaryHsl.(s); l := min2 (primaryHsl.(l) + 20) 90 |} in
  let dark := {|
    background := formatHslForShadcn (rgbToHsl darkBackground);
    foreground := formatHslForShadcn (rgbToHsl darkForeground);
    card := formatHslForShadcn (rgbToHsl darkBackground);
    cardForeground := formatHslForShadcn (rgbToHsl darkForeground);
    popover := formatHslForShadcn (rgbToHsl darkBackground);
    popoverForeground := formatHslForShadcn (rgbToHsl darkForeground);
    primary := formatHslForShadcn darkPrimaryHsl;
    primaryForeground := formatHslForShadcn {| h := primaryHsl.(h); s := 50; l := 10 |};
    secondary := formatHslForShadcn secondaryDarkHsl;
    secondaryForeground := formatHslForShadcn darkPrimaryHsl;
    muted := formatHslForShadcn mutedDarkHsl;
    mutedForeground := formatHslForShadcn mutedForegroundDarkHsl;
    accent := formatHslForShadcn
                {| h := accentHsl.(h); s := accentHsl.(s); l := min2 (accentHsl.(l) + 10) 80 |};
    accentForeground := formatHslForShadcn darkPrimaryHsl;
    destructive := "0 62.8% 30.6%";
    destructiveForeground := "0 0% 98%";
    border := formatHslForShadcn borderDarkHsl;
    input := formatHslForShadcn borderDarkHsl;
    ring := formatHslForShadcn {| h := primaryHsl.(h); s := 27; l := 84 |}
  |} in
  let sorted := sortedColors colors in
  {| light := light;
     dark := dark;
     sourceColors := map hex sorted;
     colorDetails := map detail sorted |}.

(** Generate theme from RGB colors (for image extraction) *)
Definition generateThemeFromRGB (colors : list RGB) : ExtractedTheme :=
  generateTheme (map hexOf colors).
End Generator.

End ThemeGenerator.

(** ** [functions/api/extract.ts] *)

Module Api.
Import JS ColorUtils.
Local Open Scope list_scope.
(** The part of [onRequestGet] after the fetches: the colours of the
    combined CSS, deduplicated. *)
Definition uniqueColors (combinedCSS : string) : list string :=
  (* Extract colors from all CSS content *)
  let colors :=
    fold_left (fun colors pattern => colors ++ matchAll pattern 0 (chars combinedCSS))
              colorPatterns [] in
  (* Deduplicate colors *)
  fold_left setAdd (map (fun c => str (toLowerCase c)) colors) [].
End Api.

(** ** Definitions the statements use *)

Module Spec.
Import JS ColorUtils ThemeGenerator.
Local Open Scope string_scope.

(** *** The order of numbers

    A number that is not NaN is placed by its sign, then its exponent, then
    its mantissa. *)

Definition key3 (f : spec_float) : Z * Z * Z :=
  match f with
  | S754_zero _ => (0, 0, 0)
  | S754_infinity false => (2, 0, 0)
  | S754_infinity true => (-2, 0, 0)
  | S754_nan => (0, 0, 0)
  | S754_finite false m e => (1, e, Zpos m)
  | S754_finite true m e => (-1, - e, Zneg m)
  end%Z.

Definition lt3 (a b : Z * Z * Z) : Prop :=
  let '(a1, a2, a3) := a in
  let '(b1, b2, b3) := b in
  (a1 < b1 \/ (a1 = b1 /\ (a2 < b2 \/ (a2 = b2 /\ a3 < b3))))%Z.

(** [x] is below [y], for numbers. *)
Definition below (x y : float) : Prop := lt3 (key3 (Prim2SF x)) (key3 (Prim2SF y)).

(** The least exponent of a binary64 number. *)
Definition emin64 : Z := -1074.

Inductive positive_result : spec_float -> Prop :=
| pos_finite m e : positive_result (S754_finite false m e)
| pos_infinity : positive_result (S754_infinity false).

(** *** The frequency of a colour

    The key of a colour string, the number of strings of the input that have
    a given key, and the frequency a colour reaches when it has been seen
    [n] times: 1, then one more each time. *)

Definition keyOf (colorStr : string) : option string :=
  option_map hexOf (parseColor colorStr).

Definition hasKey (key : string) (colorStr : string) : bool :=
  match keyOf colorStr with
  | Some k => String.eqb k key
  | None => false
  end.

Definition occurrences (key : string) (colorStrings : list string) : nat :=
  List.length (filter (hasKey key) colorStrings).

Definition accumulated (n : nat) : float :=
  Nat.iter (pred n) (fun f => (f + 1)%float) 1%float.

Definition entry (c : ColorWithFrequency) : string * float := (c.(hex), c.(frequency)).

(** *** The score of a hue bucket, in the words of the specification

    The penalty of the specification looks at the average hue of the
    bucket's colours; [groupScore] looks at the bucket's key. *)

Section Scores.
Local Open Scope float_scope.

Definition average (f : ColorWithFrequency -> float) (cs : list ColorWithFrequency) : float :=
  ThemeGenerator.sum f cs / number_of_nat (List.length cs).

Definition averageSaturation := average (fun c => c.(hsl).(s)).

Definition inRedOrange (hue : float) : bool :=
  ((0 <=? hue) && (hue <=? 30)) || ((330 <=? hue) && (hue <=? 360)).

Definition penaltyAt (hue : float) (cs : list ColorWithFrequency) : float :=
  if inRedOrange hue && (70 <? averageSaturation cs) then 0.3 else 1.

Definition scoreAt (hue : float) (cs : list ColorWithFrequency) : float :=
  (ThemeGenerator.sum frequency cs * 0.7 + averageSaturation cs * 0.3) * penaltyAt hue cs.

End Scores.

(** *** The hue buckets and the best of them *)

Section Buckets.
Local Open Scope float_scope.

(** The buckets: none is empty, each colour of a bucket is one of the input
    and has the bucket's key as its hue bucket. *)
Definition well_grouped (colors : list ColorWithFrequency)
           (groups : list (float * list ColorWithFrequency)) : Prop :=
  forall k cs, In (k, cs) groups ->
    cs <> [] /\ forall c, In c cs -> In c colors /\ sameValueZero k (hueBucket c) = true.

End Buckets.

(** *** The colour map *)

(** The entry of a colour seen once more. *)
Definition bump (c : ColorWithFrequency) : ColorWithFrequency :=
  {| color := c.(color); hsl := c.(hsl); frequency := (c.(frequency) + 1)%float; hex := c.(hex) |}.

(** What the colour map holds after a list of strings: one entry for each
    key that occurs, with the frequency accumulated over its occurrences. *)
Record tallies (l : list string) (m : list ColorWithFrequency) : Prop := {
  keys_distinct : NoDup (map hex m);
  entry_counted : forall c, In c m ->
    (1 <= occurrences c.(hex) l)%nat /\ c.(frequency) = accumulated (occurrences c.(hex) l);
  key_present : forall key, (1 <= occurrences key l)%nat -> In key (map hex m)
}.

(** *** The buckets of the quantizer *)

Section QuantizerBuckets.
Local Open Scope nat_scope.

Definition size (bucket : ColorBucket) : nat := List.length bucket.(colors).

(** The colours of all buckets. *)
Definition total (buckets : list ColorBucket) : nat := list_sum (map size buckets).

(** Every bucket holds a colour and counts its colours. *)
Definition well_formed (buckets : list ColorBucket) : Prop :=
  Forall (fun bucket => bucket.(count) = size bucket /\ 1 <= size bucket) buckets.

(** The comparison of the sort by count. *)
Definition byCount (a b : ColorBucket) : bool :=
  (0 <? Z.of_nat b.(count) - Z.of_nat a.(count))%Z.

(** The colours of a bucket, sorted along the channel of the largest range. *)
Definition byChannel (cs : list RGB) : list RGB :=
  sort (fun a b => (get (sortKey cs) a - get (sortKey cs) b)%float) cs.

End QuantizerBuckets.

(** *** A stand-in for the platform's [Math.pow]

    Exact on squares and a crude approximation otherwise; it only serves to
    run the functions on examples. *)
Definition sample_pow (x y : float) : float :=
  if (y =? 2)%float then (x * x)%float else (x * x * sqrt (sqrt x))%float.

(** *** The theme of the empty input *)

Section Fallback.
Variable Math_pow : float -> float -> float.

(** The theme of the fallbacks.  The only role that depends on the
    platform's [Math.pow] is the primary foreground, through the lightness
    test of the default primary. *)
Definition fallbackTheme : ExtractedTheme :=
  {| light := {|
       background := "0 0% 100%";
       foreground := "240 10% 3.9%";
       card := "0 0% 100%";
       cardForeground := "240 10% 3.9%";
       popover := "0 0% 100%";
       popoverForeground := "240 10% 3.9%";
       primary := "240 5.9% 10%";
       primaryForeground :=
         if isLightColor Math_pow defaultPrimary then "240 5.9% 10%" else "240 5.9% 98%";
       secondary := "240 10% 96%";
       secondaryForeground := "240 5.9% 10%";
       muted := "0 0% 100%";
       mutedForeground := "240 16% 47%";
       accent := "60 5.9% 10%";
       accentForeground := "240 5.9% 10%";
       destructive := "0 84.2% 60.2%";
       destructiveForeground := "0 0% 98%";
       border := "0 10% 90%";
       input := "0 10% 90%";
       ring := "240 5.9% 10%" |};
     dark := {|
       background := "240 10% 3.9%";
       foreground := "0 0% 100%";
       card := "240 10% 3.9%";
       cardForeground := "0 0% 100%";
       popover := "240 10% 3.9%";
       popoverForeground := "0 0% 100%";
       primary := "240 5.9% 30%";
       primaryForeground := "240 50% 10%";
       secondary := "240 10% 17%";
       secondaryForeground := "240 5.9% 30%";
       muted := "240 3% 3.9%";
       mutedForeground := "240 20% 65%";
       accent := "60 5.9% 20%";
       accentForeground := "240 5.9% 30%";
       destructive := "0 62.8% 30.6%";
       destructiveForeground := "0 0% 98%";
       border := "240 20% 18.9%";
       input := "240 20% 18.9%";
       ring := "240 27% 84%" |};
     sourceColors := [];
     colorDetails := [] |}.
End Fallback.

End Spec.

(** ** The round trip through HSL, staged

    The colours that have the same greatest channel [FM] and the same least
    channel [Fm] have the same saturation and lightness, so [hslToRgb] gives
    them the same levels [p] and [q]; only the hue differs.  The definitions
    below follow [rgbToHsl] and [hslToRgb] with that work shared. *)

Module Staged.
Import JS ColorUtils.
Local Open Scope list_scope.
Local Open Scope float_scope.

(** Two channels differ by at most 1. *)
Definition within1 (a b : float) : bool := abs (a - b) <=? 1.

(** [hslToRgb (rgbToHsl c)] is within 1 of [c] on every channel. *)
Definition roundtrip_ok (c : RGB) : bool :=
  let c' := hslToRgb (rgbToHsl c) in
  within1 c'.(r) c.(r) && within1 c'.(g) c.(g) && within1 c'.(b) c.(b).

(** The colour of three integer channels. *)
Definition rgb_of (R G B : nat) : RGB :=
  {| r := number_of_nat R; g := number_of_nat G; b := number_of_nat B |}.

(** The constants of [hue2rgb]. *)
Definition c16 : float := Eval cbv in 1 / 6.
Definition c12 : float := Eval cbv in 1 / 2.
Definition c23 : float := Eval cbv in 2 / 3.
Definition c13 : float := Eval cbv in 1 / 3.

(** [hue2rgb p q t], scaled and rounded, is within 1 of [raw]; [qp] is
    [q - p], and [okq] and [okp] are the answers for the two branches that
    do not depend on [t]. *)
Definition channel_ok (p qp t : float) (okq okp : bool) (raw : float) : bool :=
  let t := if t <? 0 then t + 1 else t in
  let t := if 1 <? t then t - 1 else t in
  if t <? c12 then
    if t <? c16 then within1 (Math_round ((p + qp * 6 * t) * 255)) raw else okq
  else
    if t <? c23 then within1 (Math_round ((p + qp * (c23 - t) * 6) * 255)) raw else okp.

(** The hue of [rgbToHsl] before it is scaled, for [max <> min]. *)
Definition hue_raw (r g b max min : float) : float :=
  let d := max - min in
  if max =? r then ((g - b) / d + (if g <? b then 6 else 0)) / 6
  else if max =? g then ((b - r) / d + 2) / 6
  else if max =? b then ((r - g) / d + 4) / 6
  else 0.

(** The three channels that come back for the raw hue [h0]. *)
Definition hue_ok (okr okg okb : float -> bool) (h0 : float) : bool :=
  let h := Math_round (h0 * 360 * 10) / 10 / 360 in
  okr (h + c13) && okg h && okb (h - c13).

(** The saturation, the lightness and the two levels [p] and [q] that a
    colour of greatest channel [fM] and least channel [fm] goes through. *)
Definition sat_of (fM fm : float) : float :=
  let d := fM - fm in
  let l := (fM + fm) / 2 in
  let s := if 0.5 <? l then d / (2 - fM - fm) else d / (fM + fm) in
  Math_round (s * 100 * 10) / 10 / 100.

Definition light_of (fM fm : float) : float :=
  Math_round ((fM + fm) / 2 * 100 * 10) / 10 / 100.

Definition q_of (sv lv : float) : float :=
  if lv <? 0.5 then lv * (1 + sv) else lv + sv - lv * sv.

Definition p_of (sv lv : float) : float := 2 * lv - q_of sv lv.

(** The six colours whose channels are [FM], [Fm] and a channel strictly
    between them, for every such channel of [channels]. *)
Definition check_pair (channels : list float) (FM Fm : float) : bool :=
  let fM := FM / 255 in
  let fm := Fm / 255 in
  if fm <? fM then
    let sv := sat_of fM fm in
    let lv := light_of fM fm in
    if sv =? 0 then false
    else
      let p := p_of sv lv in
      let q := q_of sv lv in
      let qp := q - p in
      let outq := Math_round (q * 255) in
      let outp := Math_round (p * 255) in
      let okqM := within1 outq FM in
      let okpM := within1 outp FM in
      let okqm := within1 outq Fm in
      let okpm := within1 outp Fm in
      let okM t := channel_ok p qp t okqM okpM FM in
      let okm t := channel_ok p qp t okqm okpm Fm in
      let d := fM - fm in
      forallb (fun Fmid =>
        let fmid := Fmid / 255 in
        if (fm <? fmid) && (fmid <? fM) then
          let okmid t := channel_ok p qp t (within1 outq Fmid) (within1 outp Fmid) Fmid in
          let A := (fmid - fm) / d in
          let A' := (fm - fmid) / d in
          hue_ok okM okmid okm ((A + 0) / 6)
          && hue_ok okM okm okmid ((A' + 6) / 6)
          && hue_ok okmid okM okm ((A' + 2) / 6)
          && hue_ok okm okM okmid ((A + 2) / 6)
          && hue_ok okmid okm okM ((A + 4) / 6)
          && hue_ok okm okmid okM ((A' + 4) / 6)
        else true) channels
  else true.

(** The 256 values of a channel. *)
Definition channels : list float := Eval vm_compute in map number_of_nat (seq 0 256).

Definition all_pairs (f : float -> float -> bool) (l : list float) : bool :=
  forallb (fun x => forallb (f x) l) l.

(** The three colours with two channels [a] and one channel [b]. *)
Definition two_equal (a b : float) : bool :=
  roundtrip_ok {| r := a; g := a; b := b |}
  && roundtrip_ok {| r := a; g := b; b := a |}
  && roundtrip_ok {| r := b; g := a; b := a |}.

(** A channel as [rgbToHsl] scales it. *)
Definition scaled (n : nat) : float := number_of_nat n / 255.

Definition increasing (n : nat) : bool := scaled n <? scaled (S n).

End Staged.

(** ** Definitions the further statements use *)

Module SelectionDefs.
Import JS ColorUtils ThemeGenerator.
Local Open Scope float_scope.

(** The distance of two hues around the colour circle. *)
Definition hueDistance (hue primaryHue : float) : float :=
  let hueDiff := abs (hue - primaryHue) in
  min2 hueDiff (360 - hueDiff).

(** A colour that may serve as the accent for a primary hue. *)
Definition accentCandidate (primaryHue : float) (c : ColorWithFrequency) : bool :=
  negb (c.(hsl).(s) <? 25)
  && negb ((c.(hsl).(l) <? 20) || (80 <? c.(hsl).(l)))
  && (60 <? hueDistance c.(hsl).(h) primaryHue).

(** A colour that the grouping by hue leaves out. *)
Definition skipped (c : ColorWithFrequency) : bool :=
  (c.(hsl).(s) <? 15) || (c.(hsl).(l) <? 15) || (90 <? c.(hsl).(l)).

(** One turn of the loop of [groupColorsByHue]. *)
Definition group_step (groups : list (float * list ColorWithFrequency)) (c : ColorWithFrequency) :=
  if c.(hsl).(s) <? 15 then groups
  else if (c.(hsl).(l) <? 15) || (90 <? c.(hsl).(l)) then groups
  else push (hueBucket c) c groups.
End SelectionDefs.

Module HexDefs.
Import JS ColorUtils ThemeGenerator.
Local Open Scope list_scope.
(** The sixteen digits that [toString(16)] writes. *)
Definition lowerHex : list ascii := chars "0123456789abcdef".

(** The two characters of a channel in a hex key. *)
Definition hexPair (x : float) : list ascii :=
  padStart 2 "0" (chars (Number_toString16 x)).

(** The two characters of a channel in [rgbToHex]. *)
Definition hexPairRounded (x : float) : list ascii :=
  let hex := chars (Number_toString16 (Math_round x)) in
  if (List.length hex =? 1)%nat then "0"%char :: hex else hex.

Definition mem (c : ascii) (l : list ascii) : bool := existsb (Ascii.eqb c) l.

(** A channel from 0 to 255 is written with two of the sixteen digits, the
    same by both functions, and they read back as the channel. *)
Definition channel_written (n : nat) : bool :=
  let x := number_of_nat n in
  match hexPair x with
  | [hi; lo] =>
      mem hi lowerHex && mem lo lowerHex
      && Leibniz.eqb (parseInt 16 [hi; lo]) x
      && String.eqb (str (hexPairRounded x)) (str (hexPair x))
  | _ => false
  end.

(** Two hex digits read as a channel from 0 to 255. *)
Definition pair_read (hi lo : ascii) : bool :=
  let z := Z_of_digits 16 [hi; lo] in
  (0 <=? z)%Z && (z <=? 255)%Z
  && Leibniz.eqb (parseInt 16 [hi; lo]) (number_of_nat (Z.to_nat z)).

Definition all_ascii : list ascii := map ascii_of_nat (seq 0 256).

(** What [toLowerCase] leaves alone: the class of a character, and the value
    of a hex digit. *)
Definition lower_char_plain (c : ascii) : bool :=
  Bool.eqb (is_hex_digit (lower_char c)) (is_hex_digit c)
  && Bool.eqb (is_space (lower_char c)) (is_space c)
  && Bool.eqb (is_digit (lower_char c)) (is_digit c)
  && Bool.eqb (Ascii.eqb "#" (lower_char c)) (Ascii.eqb "#" c)
  && implb (is_hex_digit c) (digit_value (lower_char c) =? digit_value c)%Z
  && implb (is_space c || is_digit c) (Ascii.eqb (lower_char c) c).

(** The body of [hexToRgb], after the optional [#]. *)
Definition hexBody (body : list ascii) : option RGB :=
  if forallb is_hex_digit body then
    match body with
    | [r1; r2; g1; g2; b1; b2] =>
        Some {| r := parseInt 16 [r1; r2]; g := parseInt 16 [g1; g2]; b := parseInt 16 [b1; b2] |}
    | [r1; g1; b1] =>
        Some {| r := parseInt 16 [r1; r1]; g := parseInt 16 [g1; g1]; b := parseInt 16 [b1; b1] |}
    | _ => None
    end
  else None.
End HexDefs.

Module TextDefs.
Import JS ColorUtils ThemeGenerator.
Local Open Scope list_scope.
(** [trimEnd]: the white space at the end removed. *)
Definition trimEnd (l : list ascii) : list ascii := rev (trimStart (rev l)).

(** The head of a text is not a character of the class. *)
Definition stops (p : ascii -> bool) (l : list ascii) : bool :=
  match l with
  | c :: _ => negb (p c)
  | [] => true
  end.

(** The text [rgb(d1,w2 d2,w3 d3 tail], with an [a] after [rgb] or not. *)
Definition rgbText (alpha : bool) (d1 w2 d2 w3 d3 tail : list ascii) : string :=
  str (chars "rgb" ++ (if alpha then ["a"%char] else []) ++ "("%char :: d1
       ++ ","%char :: w2 ++ d2 ++ ","%char :: w3 ++ d3 ++ tail).

(** A number as a text: the integer digits, and the fraction digits after
    a point when there are some. *)
Definition numberText (i f : list ascii) : list ascii :=
  match f with
  | [] => i
  | _ => i ++ "."%char :: f
  end.

Definition percentSign (p : bool) : list ascii := if p then ["%"%char] else [].

(** The text [hsl(h,w2 s%,w3 l tail], with an [a] after [hsl] or not and
    with the percent sign after the saturation or not. *)
Definition hslText (alpha : bool) (i1 f1 w2 i2 f2 : list ascii) (p2 : bool)
                   (w3 i3 f3 tail : list ascii) : string :=
  str (chars "hsl" ++ (if alpha then ["a"%char] else []) ++ "("%char :: numberText i1 f1
       ++ ","%char :: w2 ++ numberText i2 f2 ++ percentSign p2
       ++ ","%char :: w3 ++ numberText i3 f3 ++ tail).

(** A text without the letter r, in either case. *)
Definition no_r (l : list ascii) : bool :=
  forallb (fun c => negb (Ascii.eqb "r" (lower_char c))) l.
End TextDefs.

Module InputDefs.
Import JS ColorUtils ThemeGenerator Staged.
Local Open Scope list_scope.
(** The colours that the texts of a list parse to, in order; a text that
    does not parse gives none. *)
Definition parsed (colorStrings : list string) : list RGB :=
  flat_map (fun s => match parseColor s with Some c => [c] | None => [] end) colorStrings.

(** One more colour counted in the colour map. *)
Definition addRgb (m : list ColorWithFrequency) (rgb : RGB) : list ColorWithFrequency :=
  if has (hexOf rgb) m then increment (hexOf rgb) m
  else m ++ [{| color := rgb; hsl := rgbToHsl rgb; frequency := 1; hex := hexOf rgb |}].

(** A colour of three integer channels from 0 to 255. *)
Definition eightBit (c : RGB) : Prop :=
  exists R G B, (R <= 255)%nat /\ (G <= 255)%nat /\ (B <= 255)%nat /\ c = rgb_of R G B.
End InputDefs.

Module OrderDefs.
Import JS ColorUtils ThemeGenerator.
Local Open Scope float_scope.
(** In an array sorted from the greatest key down, no element has a smaller
    key than one that comes after it. *)
Definition descending {A} (key : A -> float) (l : list A) : Prop :=
  StronglySorted (fun a b => (key a <? key b) = false) l.

(** A colour that the palette shows: not a pure black, white or gray. *)
Definition shown (c : ColorWithFrequency) : bool :=
  (10 <? c.(hsl).(s)) || ((5 <? c.(hsl).(l)) && (c.(hsl).(l) <? 95)).
End OrderDefs.

Module RangeDefs.
Import JS ColorUtils ThemeGenerator.
Local Open Scope list_scope.
Local Open Scope float_scope.

(** A hue in [0, 360), a saturation and a lightness in [0, 100]. *)
Definition hsl_in_range (x : HSL) : bool :=
  (0 <=? x.(h)) && (x.(h) <? 360) && (0 <=? x.(s)) && (x.(s) <=? 100)
  && (0 <=? x.(l)) && (x.(l) <=? 100).

(** The hue that [rgbToHsl] returns for the raw hue [h0]. *)
Definition hue_in_range (h0 : float) : bool :=
  let H := Math_round (h0 * 360 * 10) / 10 in (0 <=? H) && (H <? 360).

(** The percentage that [rgbToHsl] returns for the fraction [x]. *)
Definition percent (x : float) : bool :=
  let X := Math_round (x * 100 * 10) / 10 in (0 <=? X) && (X <=? 100).

(** The six colours whose channels are [FM], [Fm] and a channel strictly
    between them, for every such channel of [channels]. *)
Definition range_pair (channels : list float) (FM Fm : float) : bool :=
  let fM := FM / 255 in
  let fm := Fm / 255 in
  if fm <? fM then
    let d := fM - fm in
    let l := (fM + fm) / 2 in
    percent (if 0.5 <? l then d / (2 - fM - fm) else d / (fM + fm))
    && percent l
    && forallb (fun Fmid =>
        let fmid := Fmid / 255 in
        if (fm <? fmid) && (fmid <? fM) then
          let A := (fmid - fm) / d in
          let A' := (fm - fmid) / d in
          hue_in_range ((A + 0) / 6) && hue_in_range ((A' + 6) / 6)
          && hue_in_range ((A' + 2) / 6) && hue_in_range ((A + 2) / 6)
          && hue_in_range ((A + 4) / 6) && hue_in_range ((A' + 4) / 6)
        else true) channels
  else true.

(** The three colours with two channels [a] and one channel [b]. *)
Definition two_equal_range (a b : float) : bool :=
  hsl_in_range (rgbToHsl {| r := a; g := a; b := b |})
  && hsl_in_range (rgbToHsl {| r := a; g := b; b := a |})
  && hsl_in_range (rgbToHsl {| r := b; g := a; b := a |}).

(** The twelve keys of the hue buckets. *)
Definition bucketKeys : list float := [0; 30; 60; 90; 120; 150; 180; 210; 240; 270; 300; 330].

(** A hue in tenths of a degree, as [rgbToHsl] rounds it. *)
Definition tenths (k : Z) : float := of_uint63 (Uint63.of_Z k) / 10.

(** The integers [start], [start + 1], ... ([n] of them). *)
Fixpoint upto (n : nat) (start : Z) : list Z :=
  match n with
  | O => []
  | S n' => start :: upto n' (start + 1)%Z
  end.

Definition hueBucketOf (hue : float) : float := rem (Math_round (hue / 30) * 30) 360.

(** The bucket of a hue is one of the twelve keys, the one nearest to the
    hue around the circle. *)
Definition bucket_ok (k : Z) : bool :=
  let key := hueBucketOf (tenths k) in
  existsb (Leibniz.eqb key) bucketKeys
  && ((abs (tenths k - key) <=? 15) || ((345 <=? tenths k) && Leibniz.eqb key 0)).
End RangeDefs.

Module QuantizeDefs.
Import JS ColorUtils.
(** The buckets of [medianCutQuantize] when its loop has ended. *)
Definition bucketsOf (pixels : list RGB) (maxColors : float) : list ColorBucket :=
  split_loop (List.length pixels) maxColors [mkBucket pixels].

(** The colours of all buckets, bucket after bucket. *)
Definition allColors (buckets : list ColorBucket) : list RGB := flat_map colors buckets.
End QuantizeDefs.

Module CssDefs.
Import JS ColorUtils.
Local Open Scope list_scope.
(** All matches, pattern after pattern. *)
Definition allMatches (l : list ascii) : list (list ascii) :=
  flat_map (fun pattern => matchAll pattern 0 l) colorPatterns.

(** What the characters of a colour text are not. *)
Definition char_facts (c : ascii) : bool :=
  implb (is_hex_digit c)
        (is_word c && negb (Ascii.eqb c "#") && negb (Ascii.eqb "r" (lower_char c))
         && negb (Ascii.eqb "h" (lower_char c)) && negb (is_space c))
  && implb (is_space c || is_digit c || Ascii.eqb c "," || Ascii.eqb c "(" || Ascii.eqb c ")")
           (negb (Ascii.eqb c "#") && negb (Ascii.eqb "r" (lower_char c))
            && negb (Ascii.eqb "h" (lower_char c))).

(** The text [rgb(w d1,d2,d3)]. *)
Definition spacedRgb (w d1 d2 d3 : list ascii) : list ascii :=
  chars "rgb(" ++ w ++ d1 ++ ","%char :: d2 ++ ","%char :: d3 ++ [")"%char].

Definition quiet (c : ascii) : bool :=
  negb (Ascii.eqb c "#") && negb (Ascii.eqb "r" (lower_char c))
  && negb (Ascii.eqb "h" (lower_char c)).
End CssDefs.

Module SignDefs.
(** The sign of a number: of a zero too, and none for NaN. *)
Definition sign_of (f : spec_float) : bool :=
  match f with
  | S754_zero s | S754_infinity s | S754_finite s _ _ => s
  | S754_nan => false
  end.
End SignDefs.

(** ** Ties and the order of the input *)

Module TieDefs.
Import JS ColorUtils ThemeGenerator Spec SelectionDefs.
Local Open Scope float_scope.

(** The keys of the elements are numbers, and two elements neither of which
    has the smaller key are the same element: no two elements tie. *)
Definition untied {A} (key : A -> float) (l : list A) : Prop :=
  (forall a, In a l -> is_nan (key a) = false)
  /\ forall a b, In a l -> In b l ->
       (key a <? key b) = false -> (key b <? key a) = false -> a = b.

(** The score of a bucket. *)
Definition bucketScore (g : float * list ColorWithFrequency) : float :=
  groupScore (fst g) (snd g).

(** The score of each bucket is the same in whatever order its colours are
    summed up; the sums of numbers depend on it in general. *)
Definition steady (groups : list (float * list ColorWithFrequency)) : Prop :=
  forall k cs cs', In (k, cs) groups -> Permutation cs cs' ->
    groupScore k cs' = groupScore k cs.

(** Two texts of the input that parse to different colours have different
    keys. *)
Definition distinct_keys (colorStrings : list string) : Prop :=
  forall s s' c c', In s colorStrings -> In s' colorStrings ->
    parseColor s = Some c -> parseColor s' = Some c' -> hexOf c = hexOf c' -> c = c'.

(** The class of a key of a [Map] of numbers: NaN, or the place of the
    number in the order, where the two zeros have the same place. *)
Definition klass (x : float) : option (Z * Z * Z) :=
  if is_nan x then None else Some (key3 (Prim2SF x)).

(** A colour belongs to the bucket of a key. *)
Definition inBucket (k : float) (c : ColorWithFrequency) : bool :=
  negb (skipped c) && sameValueZero k (hueBucket c).

(** The keys of the buckets are of different classes. *)
Fixpoint separate (groups : list (float * list ColorWithFrequency)) : Prop :=
  match groups with
  | [] => True
  | g :: groups' =>
      (forall g', In g' groups' -> sameValueZero (fst g) (fst g') = false) /\ separate groups'
  end.

(** The buckets of a palette: each holds, in the order of the palette, the
    colours that belong to its key, and at least one; the keys are of
    different classes; every colour that is not left out has its bucket. *)
Record grouped (colors : list ColorWithFrequency)
               (groups : list (float * list ColorWithFrequency)) : Prop := {
  grouped_members : forall k ms, In (k, ms) groups ->
    ms = filter (inBucket k) colors /\ ms <> [];
  grouped_separate : separate groups;
  grouped_all : forall c, In c colors -> skipped c = false ->
    exists k ms, In (k, ms) groups /\ sameValueZero k (hueBucket c) = true
}.

(** The keys of the colours of the input, each at its first occurrence. *)
Definition firstKeys (colorStrings : list string) : list string :=
  fold_left (fun keys s =>
    match keyOf s with
    | Some k => if existsb (String.eqb k) keys then keys else (keys ++ [k])%list
    | None => keys
    end) colorStrings [].

Section Ties.
Variable Math_pow : float -> float -> float.

(** A colour that may be the foreground on a background: the one is
    light and the other is not. *)
Definition contrasts (background : RGB) (c : ColorWithFrequency) : bool :=
  negb (Bool.eqb (isLightColor Math_pow c.(color)) (isLightColor Math_pow background)).

(** A colour of the greatest or of the least luminance in a palette. *)
Definition extreme (bg : ColorWithFrequency) (colors : list ColorWithFrequency) : Prop :=
  (forall c, In c colors ->
     (getLuminance Math_pow bg.(color) <? getLuminance Math_pow c.(color)) = false)
  \/ (forall c, In c colors ->
        (getLuminance Math_pow c.(color) <? getLuminance Math_pow bg.(color)) = false).

(** Nothing ties in a palette: no two colours in luminance or in frequency,
    no two colours of a hue bucket in frequency x 2 + saturation, no two
    colours that contrast with a colour of extreme luminance in their
    distance from it, and no two hue buckets in score, the scores being
    steady. *)
Definition no_ties (colors : list ColorWithFrequency) : Prop :=
  untied (fun c => getLuminance Math_pow c.(color)) colors
  /\ untied frequency colors
  /\ (forall k cs, In (k, cs) (groupColorsByHue colors) -> untied colorScore cs)
  /\ (forall bg, In bg colors -> extreme bg colors ->
        untied (fun c => colorDistance Math_pow c.(color) bg.(color))
               (filter (contrasts bg.(color)) colors))
  /\ untied bucketScore (groupColorsByHue colors)
  /\ steady (groupColorsByHue colors).
End Ties.
End TieDefs.

(** * Properties *)

Import JS ColorUtils ThemeGenerator Spec.
Local Open Scope string_scope.

(** ** The order of numbers *)

Module FloatOrder.
Local Open Scope float_scope.

Lemma SFltb_lt3 f1 f2 :
  f1 <> S754_nan -> f2 <> S754_nan ->
  SFltb f1 f2 = true <-> lt3 (key3 f1) (key3 f2).
Proof.
  intros H1 H2. unfold SFltb, SFcompare.
  destruct f1 as [s1|s1| |s1 m1 e1], f2 as [s2|s2| |s2 m2 e2]; try congruence;
    try destruct s1; try destruct s2; simpl; try (split; [discriminate|lia]);
    try (split; [reflexivity|lia]);
    try (split; [intros _; lia | reflexivity]).
  all: change (Pos.compare_cont Eq m1 m2) with (Pos.compare m1 m2).
  all: destruct (Z.compare_spec e1 e2); subst; simpl;
    try destruct (Pos.compare_spec m1 m2); simpl; split; try discriminate; try reflexivity; try lia.
Qed.

Lemma lt3_trans a b c : lt3 a b -> lt3 b c -> lt3 a c.
Proof. destruct a as [[? ?] ?], b as [[? ?] ?], c as [[? ?] ?]; simpl; lia. Qed.

Lemma lt3_asym a b : lt3 a b -> ~ lt3 b a.
Proof. destruct a as [[? ?] ?], b as [[? ?] ?]; simpl; lia. Qed.

Lemma lt3_neg_trans a b c : ~ lt3 a b -> ~ lt3 b c -> ~ lt3 a c.
Proof. destruct a as [[? ?] ?], b as [[? ?] ?], c as [[? ?] ?]; simpl; lia. Qed.

Lemma SFcompare_refl f : f <> S754_nan -> SFcompare f f = Some Eq.
Proof.
  destruct f as [s|s| |s m e]; try congruence; intros _; simpl; try destruct s; try reflexivity.
  all: rewrite Z.compare_refl; cbn; change (Pos.compare_cont Eq m m) with (Pos.compare m m);
    rewrite (Pos.compare_refl m); reflexivity.
Qed.

Lemma is_nan_false x : is_nan x = false <-> Prim2SF x <> S754_nan.
Proof.
  unfold is_nan. rewrite FloatAxioms.eqb_spec. unfold SFeqb. split.
  - intros H E. rewrite E in H. discriminate.
  - intros H. rewrite SFcompare_refl by assumption. reflexivity.
Qed.

Lemma ltb_below x y :
  is_nan x = false -> is_nan y = false -> ((x <? y) = true <-> below x y).
Proof.
  intros Hx Hy. rewrite FloatAxioms.ltb_spec. apply SFltb_lt3; apply is_nan_false; assumption.
Qed.

Lemma ltb_true_number x y : (x <? y) = true -> is_nan x = false /\ is_nan y = false.
Proof.
  rewrite FloatAxioms.ltb_spec. unfold SFltb. intros H. split; apply is_nan_false; intros E; rewrite E in H.
  - discriminate.
  - destruct (Prim2SF x); discriminate.
Qed.

Lemma ltb_trans x y z : (x <? y) = true -> (y <? z) = true -> (x <? z) = true.
Proof.
  intros H1 H2. destruct (ltb_true_number _ _ H1), (ltb_true_number _ _ H2).
  apply ltb_below in H1, H2; try assumption. apply ltb_below; try assumption.
  eapply lt3_trans; eassumption.
Qed.

Lemma ltb_asym x y : (x <? y) = true -> (y <? x) = false.
Proof.
  intros H1. destruct (ltb_true_number _ _ H1).
  apply ltb_below in H1; try assumption.
  destruct (y <? x) eqn:E; [|reflexivity].
  apply ltb_below in E; try assumption. destruct (lt3_asym _ _ H1 E).
Qed.

Lemma ltb_neg_trans x y z :
  is_nan y = false -> (x <? y) = false -> (y <? z) = false -> (x <? z) = false.
Proof.
  intros Hy H1 H2. destruct (x <? z) eqn:E; [|reflexivity].
  destruct (ltb_true_number _ _ E).
  apply ltb_below in E; try assumption.
  exfalso. revert E. apply (lt3_neg_trans _ (key3 (Prim2SF y))).
  - intros C. apply ltb_below in C; congruence.
  - intros C. apply ltb_below in C; congruence.
Qed.

(** The sign of a difference *)

Local Open Scope Z_scope.

Lemma digits2_bounds m :
  2 ^ (Zpos (digits2_pos m) - 1) <= Zpos m < 2 ^ Zpos (digits2_pos m).
Proof.
  assert (E : digits2_pos m = Pos.size m) by (induction m; simpl; congruence).
  rewrite E. split.
  - pose proof (Pos.size_le m) as H.
    assert (H' : 2 ^ Zpos (Pos.size m) <= 2 * Zpos m).
    { change 2 with (Zpos 2) at 1. rewrite <- Pos2Z.inj_pow. exact H. }
    replace (Zpos (Pos.size m)) with (Z.succ (Zpos (Pos.size m) - 1)) in H' by lia.
    rewrite Z.pow_succ_r in H' by lia. lia.
  - pose proof (Pos.size_gt m) as H.
    change 2 with (Zpos 2). rewrite <- Pos2Z.inj_pow. exact H.
Qed.

Lemma shr_1_m mrs : 0 <= shr_m mrs -> shr_m (shr_1 mrs) = shr_m mrs / 2.
Proof.
  destruct mrs as [m r s]. simpl. intros H.
  destruct m as [|p|p]; [reflexivity| |lia].
  destruct p; simpl.
  - rewrite Pos2Z.inj_xI. apply Z.div_unique with 1; lia.
  - rewrite Pos2Z.inj_xO. apply Z.div_unique with 0; lia.
  - reflexivity.
Qed.

Lemma shr_iter_m p : forall mrs,
  0 <= shr_m mrs -> shr_m (SpecFloat.iter_pos shr_1 p mrs) = shr_m mrs / 2 ^ Zpos p.
Proof.
  assert (P : forall q, 0 < 2 ^ Zpos q) by (intros; apply Z.pow_pos_nonneg; lia).
  induction p as [p IH|p IH|]; intros mrs H.
  - assert (E : 2 ^ Zpos p~1 = 2 * 2 ^ Zpos p * 2 ^ Zpos p).
    { replace (Zpos p~1) with (1 + Zpos p + Zpos p) by lia.
      rewrite !Z.pow_add_r by lia. reflexivity. }
    assert (H1 : 0 <= shr_m (shr_1 mrs)) by (rewrite shr_1_m by lia; apply Z.div_pos; lia).
    assert (H2 : 0 <= shr_m (SpecFloat.iter_pos shr_1 p (shr_1 mrs))).
    { rewrite IH by lia. apply Z.div_pos; [lia|apply P]. }
    cbn [SpecFloat.iter_pos]. rewrite IH, IH, shr_1_m by lia.
    pose proof (P p). rewrite !Z.div_div by lia. rewrite E. f_equal. ring.
  - assert (E : 2 ^ Zpos p~0 = 2 ^ Zpos p * 2 ^ Zpos p).
    { replace (Zpos p~0) with (Zpos p + Zpos p) by lia.
      rewrite !Z.pow_add_r by lia. reflexivity. }
    assert (H2 : 0 <= shr_m (SpecFloat.iter_pos shr_1 p mrs)).
    { rewrite IH by lia. apply Z.div_pos; [lia|apply P]. }
    cbn [SpecFloat.iter_pos]. rewrite IH, IH by lia.
    pose proof (P p). rewrite !Z.div_div by lia. rewrite E. reflexivity.
  - cbn [SpecFloat.iter_pos]. rewrite shr_1_m by lia. reflexivity.
Qed.

(** Shifting a positive mantissa to its format exponent leaves it positive. *)
Lemma shr_fexp_positive m e l :
  0 < m -> emin64 <= e ->
  0 < shr_m (fst (shr_fexp prec emax m e l)) /\ emin64 <= snd (shr_fexp prec emax m e l).
Proof.
  intros Hm He. unfold shr_fexp, shr.
  destruct (fexp prec emax (Zdigits2 m + e) - e) as [|p|p] eqn:En; simpl.
  - split; [destruct l as [|[]]; simpl; lia | lia].
  - assert (Hs : shr_m (shr_record_of_loc m l) = m) by (destruct l as [|[]]; reflexivity).
    rewrite shr_iter_m by (rewrite Hs; lia). rewrite Hs.
    destruct m as [|q|q]; try lia.
    change (Zdigits2 (Zpos q)) with (Zpos (digits2_pos q)) in En.
    pose proof (digits2_bounds q) as [Hlo _].
    unfold fexp, SpecFloat.emin, FloatOps.prec, FloatOps.emax, emin64 in *.
    assert (Hp : Zpos p <= Zpos (digits2_pos q) - 1) by lia.
    split; [|lia].
    apply Z.div_str_pos. split; [apply Z.pow_pos_nonneg; lia|].
    apply Z.le_trans with (2 ^ (Zpos (digits2_pos q) - 1)); [|lia].
    apply Z.pow_le_mono_r; lia.
  - split; [destruct l as [|[]]; simpl; lia | lia].
Qed.

Lemma round_nearest_even_positive m l : 0 < m -> 0 < round_nearest_even m l.
Proof.
  intros H. destruct l as [|[]]; simpl; try lia. destruct (Z.even m); lia.
Qed.

Lemma binary_round_aux_positive m e l :
  0 < m -> emin64 <= e -> positive_result (binary_round_aux prec emax false m e l).
Proof.
  intros Hm He. unfold binary_round_aux.
  pose proof (shr_fexp_positive m e l Hm He) as [H1 H1e].
  destruct (shr_fexp prec emax m e l) as [mrs' e']. simpl in H1, H1e.
  pose proof (shr_fexp_positive _ e' loc_Exact
                (round_nearest_even_positive _ (loc_of_shr_record mrs') H1) H1e) as [H2 _].
  destruct (shr_fexp prec emax (round_nearest_even (shr_m mrs') (loc_of_shr_record mrs')) e' loc_Exact)
    as [mrs'' e'']. simpl in H2.
  destruct (shr_m mrs''); try lia.
  destruct (e'' <=? emax - prec); constructor.
Qed.

Lemma binary_round_positive m e :
  emin64 <= e -> positive_result (binary_round prec emax false m e).
Proof.
  intros He. unfold binary_round, shl_align.
  destruct (fexp prec emax (Zpos (digits2_pos m) + e) - e) eqn:En;
    apply binary_round_aux_positive; try lia.
  unfold fexp, SpecFloat.emin, FloatOps.prec, FloatOps.emax, emin64 in *. lia.
Qed.

Lemma binary_round_negative m e :
  SFltb (S754_zero false) (binary_round prec emax true m e) = false.
Proof.
  unfold binary_round, binary_round_aux.
  destruct (shl_align m e _) as [mz ez].
  destruct (shr_fexp prec emax (Zpos mz) ez loc_Exact) as [mrs' e'].
  destruct (shr_fexp prec emax _ e' loc_Exact) as [mrs'' e''].
  destruct (shr_m mrs''); try reflexivity.
  destruct (e'' <=? emax - prec); reflexivity.
Qed.

Lemma positive_result_ltb f : positive_result f -> SFltb (S754_zero false) f = true.
Proof. destruct 1; reflexivity. Qed.

(** The sign of the rounded value of [d * 2^e]. *)
Lemma binary_normalize_sign d e :
  emin64 <= e ->
  SFltb (S754_zero false) (binary_normalize prec emax d e false) = (0 <? d).
Proof.
  intros He. destruct d as [|p|p]; simpl.
  - reflexivity.
  - apply positive_result_ltb, binary_round_positive, He.
  - apply binary_round_negative.
Qed.

Lemma shl_align_value m e ez :
  ez <= e -> Zpos (fst (shl_align m e ez)) = Zpos m * 2 ^ (e - ez).
Proof.
  intros H. unfold shl_align.
  destruct (ez - e) as [|d|d] eqn:E; cbn [fst]; try lia.
  - replace (e - ez) with 0 by lia. change (2 ^ 0) with 1. lia.
  - replace (e - ez) with (Zpos d) by lia.
    change (Pos.iter xO m d) with (shift_pos d m).
    rewrite shift_pos_correct, Zpower_pos_nat, Zpower_nat_Z, positive_nat_Z. lia.
Qed.

(** What validity says of a finite number. *)
Lemma valid_finite s m e :
  valid_binary (S754_finite s m e) = true ->
  emin64 <= e /\ Zpos m < 2 ^ 53 /\ (emin64 < e -> 2 ^ 52 <= Zpos m).
Proof.
  unfold SpecFloat.valid_binary, bounded, canonical_mantissa. intros H.
  apply andb_true_iff in H as [H _]. apply Z.eqb_eq in H.
  pose proof (digits2_bounds m) as [Hlo Hhi].
  unfold fexp, SpecFloat.emin, FloatOps.prec, FloatOps.emax, emin64 in *.
  split; [lia|]. split.
  - apply Z.lt_le_trans with (2 ^ Zpos (digits2_pos m)); [lia|].
    apply Z.pow_le_mono_r; lia.
  - intros He. replace (Zpos (digits2_pos m) - 1) with 52 in Hlo by lia. exact Hlo.
Qed.

(** Valid finite numbers are ordered by exponent, then by mantissa. *)
Lemma aligned_lt mx ex my ey :
  Zpos mx < 2 ^ 53 -> (emin64 < ey -> 2 ^ 52 <= Zpos my) ->
  Zpos my < 2 ^ 53 -> (emin64 < ex -> 2 ^ 52 <= Zpos mx) ->
  emin64 <= ex -> emin64 <= ey ->
  Zpos mx * 2 ^ (ex - Z.min ey ex) < Zpos my * 2 ^ (ey - Z.min ey ex)
  <-> (ex < ey \/ (ex = ey /\ Zpos mx < Zpos my)).
Proof.
  intros Hx Hy Hy' Hx' Ex Ey.
  assert (P : forall k, 0 < k -> 2 <= 2 ^ k).
  { intros k Hk. change 2 with (2 ^ 1) at 1. apply Z.pow_le_mono_r; lia. }
  destruct (Z.lt_trichotomy ex ey) as [L|[L|L]].
  - replace (Z.min ey ex) with ex by lia. replace (ex - ex) with 0 by lia.
    pose proof (P (ey - ex) ltac:(lia)). specialize (Hy ltac:(lia)).
    change (2 ^ 0) with 1. change (2 ^ 53) with 9007199254740992 in *.
    change (2 ^ 52) with 4503599627370496 in *. split; [lia|]. intros _. nia.
  - subst. replace (Z.min ey ey) with ey by lia. replace (ey - ey) with 0 by lia.
    change (2 ^ 0) with 1. lia.
  - replace (Z.min ey ex) with ey by lia. replace (ey - ey) with 0 by lia.
    pose proof (P (ex - ey) ltac:(lia)). specialize (Hx' ltac:(lia)).
    change (2 ^ 0) with 1. change (2 ^ 53) with 9007199254740992 in *.
    change (2 ^ 52) with 4503599627370496 in *. split; [|lia]. intros C. nia.
Qed.

Lemma SFsub_sign X Y :
  valid_binary X = true -> valid_binary Y = true ->
  X <> S754_nan -> Y <> S754_nan ->
  SFltb (S754_zero false) (SFsub prec emax Y X) = SFltb X Y.
Proof.
  intros VX VY NX NY.
  destruct X as [sx|sx| |sx mx ex], Y as [sy|sy| |sy my ey]; try congruence;
    try (destruct sx, sy; reflexivity); try (destruct sx; reflexivity);
    try (destruct sy; reflexivity).
  apply valid_finite in VX as (Ex & Hx & Hx'), VY as (Ey & Hy & Hy').
  unfold SFsub. rewrite binary_normalize_sign by lia.
  rewrite !shl_align_value by lia.
  pose proof (aligned_lt mx ex my ey Hx Hy' Hy Hx' Ex Ey) as A.
  pose proof (aligned_lt my ey mx ex Hy Hx' Hx Hy' Ey Ex) as B.
  rewrite (Z.min_comm ex ey) in B.
  assert (Px : 0 < Zpos mx * 2 ^ (ex - Z.min ey ex))
    by (apply Z.mul_pos_pos; [lia|apply Z.pow_pos_nonneg; lia]).
  assert (Py : 0 < Zpos my * 2 ^ (ey - Z.min ey ex))
    by (apply Z.mul_pos_pos; [lia|apply Z.pow_pos_nonneg; lia]).
  pose proof (SFltb_lt3 (S754_finite sx mx ex) (S754_finite sy my ey) NX NY) as L.
  set (vx := Zpos mx * 2 ^ (ex - Z.min ey ex)) in *.
  set (vy := Zpos my * 2 ^ (ey - Z.min ey ex)) in *.
  destruct (SFltb (S754_finite sx mx ex) (S754_finite sy my ey)).
  - destruct L as [L _]. specialize (L eq_refl). apply Z.ltb_lt.
    destruct sx, sy; simpl in L |- *; lia.
  - apply Z.ltb_ge.
    destruct (Z.le_gt_cases (cond_Zopp sy vy - cond_Zopp sx vx) 0) as [C|C]; [exact C|].
    exfalso. destruct L as [_ L]. assert (false = true); [|discriminate].
    apply L. destruct sx, sy; simpl in C |- *; lia.
Qed.

Local Open Scope float_scope.

(** A difference of numbers is positive exactly when the number taken away
    is the smaller. *)
Theorem sub_positive x y :
  is_nan x = false -> is_nan y = false -> (0 <? y - x) = (x <? y).
Proof.
  intros Hx Hy. rewrite !FloatAxioms.ltb_spec, sub_spec.
  change (Prim2SF 0) with (S754_zero false).
  apply SFsub_sign; try apply Prim2SF_valid; apply is_nan_false; assumption.
Qed.

End FloatOrder.

(** ** Array lengths as numbers *)

Module Counts.
Import FloatOrder.
Local Open Scope Z_scope.

Lemma shl_align_exp m e ez : ez <= e -> snd (shl_align m e ez) = ez.
Proof.
  intros H. unfold shl_align. destruct (ez - e) as [|d|d] eqn:E; cbn [snd]; lia.
Qed.

Lemma digits2_unique m d : 2 ^ (d - 1) <= Zpos m < 2 ^ d -> 0 < d -> Zpos (digits2_pos m) = d.
Proof.
  intros [Hlo Hhi] Hd. pose proof (digits2_bounds m) as [Blo Bhi].
  destruct (Z.lt_trichotomy (Zpos (digits2_pos m)) d) as [L|[L|L]]; [|exact L|]; exfalso.
  - assert (2 ^ Zpos (digits2_pos m) <= 2 ^ (d - 1)) by (apply Z.pow_le_mono_r; lia). lia.
  - assert (2 ^ d <= 2 ^ (Zpos (digits2_pos m) - 1)) by (apply Z.pow_le_mono_r; lia). lia.
Qed.

(** A positive integer below [2^53] is a number, with no rounding. *)
Lemma binary_round_exact p :
  Zpos p < 2 ^ 53 ->
  exists m e, binary_round prec emax false p 0 = S754_finite false m e
    /\ -52 <= e <= 0 /\ Zpos m = Zpos p * 2 ^ (- e) /\ 2 ^ 52 <= Zpos m < 2 ^ 53.
Proof.
  intros Hp. pose proof (digits2_bounds p) as [Blo Bhi].
  set (d := Zpos (digits2_pos p)) in *.
  assert (Hd : 1 <= d <= 53).
  { split; [unfold d; lia|].
    destruct (Z.le_gt_cases d 53) as [L|L]; [exact L|exfalso].
    assert (2 ^ 53 <= 2 ^ (d - 1)) by (apply Z.pow_le_mono_r; lia). lia. }
  assert (Ef : fexp prec emax (d + 0) = d - 53).
  { unfold fexp, SpecFloat.emin, FloatOps.prec, FloatOps.emax. lia. }
  unfold binary_round. fold d. rewrite Ef.
  pose proof (shl_align_value p 0 (d - 53) ltac:(lia)) as Vm.
  pose proof (shl_align_exp p 0 (d - 53) ltac:(lia)) as Ve.
  destruct (shl_align p 0 (d - 53)) as [mz ez]. cbn [fst snd] in Vm, Ve. subst ez.
  replace (0 - (d - 53)) with (53 - d) in Vm by lia.
  assert (Bm : 2 ^ 52 <= Zpos mz < 2 ^ 53).
  { rewrite Vm. split.
    - replace 52 with ((d - 1) + (53 - d)) by lia. rewrite Z.pow_add_r by lia.
      apply Z.mul_le_mono_nonneg_r; [apply Z.pow_nonneg; lia|exact Blo].
    - replace 53 with (d + (53 - d)) at 2 by lia. rewrite Z.pow_add_r by lia.
      apply Z.mul_lt_mono_pos_r; [apply Z.pow_pos_nonneg; lia|exact Bhi]. }
  assert (Dm : Zpos (digits2_pos mz) = 53) by (apply digits2_unique; [exact Bm|lia]).
  assert (Es : forall l, shr_fexp prec emax (Zpos mz) (d - 53) l
                         = (shr_record_of_loc (Zpos mz) l, d - 53)).
  { intros l. unfold shr_fexp. change (Zdigits2 (Zpos mz)) with (Zpos (digits2_pos mz)).
    rewrite Dm.
    replace (fexp prec emax (53 + (d - 53)) - (d - 53)) with 0
      by (unfold fexp, SpecFloat.emin, FloatOps.prec, FloatOps.emax; lia).
    reflexivity. }
  unfold binary_round_aux. rewrite Es. cbn [shr_record_of_loc shr_m loc_of_shr_record
    shr_r shr_s round_nearest_even]. rewrite Es. cbn [shr_record_of_loc shr_m].
  assert (Le : (d - 53 <=? emax - prec) = true)
    by (apply Z.leb_le; unfold FloatOps.prec, FloatOps.emax; lia).
  rewrite Le. exists mz, (d - 53). split; [reflexivity|]. split; [lia|].
  split; [|exact Bm]. rewrite Vm. f_equal. f_equal. lia.
Qed.

Lemma number_of_nat_spec (n : nat) :
  Z.of_nat n < 2 ^ 53 ->
  Prim2SF (number_of_nat n) = binary_normalize prec emax (Z.of_nat n) 0 false.
Proof.
  intros H. unfold number_of_nat. rewrite of_uint63_spec, Uint63.of_Z_spec.
  rewrite Z.mod_small; [reflexivity|].
  split; [lia|]. apply Z.lt_trans with (2 ^ 53); [exact H|reflexivity].
Qed.

Local Open Scope float_scope.

(** Array lengths are ordered as numbers the way they are as integers. *)
Lemma number_of_nat_lt (a b : nat) :
  (a < b)%nat -> (Z.of_nat b < 2 ^ 53)%Z -> (number_of_nat a <? number_of_nat b) = true.
Proof.
  intros Hab Hb. rewrite FloatAxioms.ltb_spec, !number_of_nat_spec by lia.
  destruct (Z.of_nat b) as [|pb|pb] eqn:Eb; try lia.
  destruct (binary_round_exact pb Hb) as (mb & eb & Rb & Hb1 & Hb2 & Hb3).
  cbn [binary_normalize]. rewrite Rb.
  destruct (Z.of_nat a) as [|pa|pa] eqn:Ea; try lia; [reflexivity|].
  assert (Ha : (Zpos pa < 2 ^ 53)%Z) by lia.
  destruct (binary_round_exact pa Ha) as (ma & ea & Ra & Ha1 & Ha2 & Ha3).
  cbn [binary_normalize]. rewrite Ra.
  apply SFltb_lt3; [discriminate|discriminate|]. cbn [key3 lt3]. right. split; [reflexivity|].
  apply (aligned_lt ma ea mb eb); unfold emin64; try lia.
  rewrite Ha2, Hb2, <- !Z.mul_assoc, <- !Z.pow_add_r by lia.
  replace (- ea + (ea - Z.min eb ea))%Z with (- Z.min eb ea)%Z by lia.
  replace (- eb + (eb - Z.min eb ea))%Z with (- Z.min eb ea)%Z by lia.
  apply Z.mul_lt_mono_pos_r; [apply Z.pow_pos_nonneg; lia|lia].
Qed.

End Counts.

(** ** Sorting *)

Module SortFacts.
Import FloatOrder.

Section Sorting.
Context {A : Type} (after : A -> A -> bool).

Lemma insert_perm x l : Permutation (insert after x l) (x :: l).
Proof.
  induction l as [|y l IH]; simpl; [reflexivity|].
  destruct (after x y); [|reflexivity].
  rewrite IH. apply perm_swap.
Qed.

Lemma sort_by_perm l : Permutation (sort_by after l) l.
Proof.
  induction l as [|x l IH]; simpl; [reflexivity|].
  rewrite insert_perm. constructor. exact IH.
Qed.

Lemma sort_by_in l x : In x (sort_by after l) <-> In x l.
Proof.
  split; apply Permutation_in; [|symmetry]; apply sort_by_perm.
Qed.

Lemma sort_by_length l : List.length (sort_by after l) = List.length l.
Proof. apply Permutation_length, sort_by_perm. Qed.

(** Among elements on which [after] is a strict weak order, the head of the
    sorted list goes after none. *)
Variable P : A -> Prop.
Hypothesis asym : forall x y, P x -> P y -> after x y = true -> after y x = false.
Hypothesis neg_trans : forall x y z, P x -> P y -> P z ->
  after x y = false -> after y z = false -> after x z = false.

Lemma irrefl x : P x -> after x x = false.
Proof.
  intros Hx. destruct (after x x) eqn:E; [|reflexivity].
  rewrite (asym x x Hx Hx E) in E. discriminate.
Qed.

Lemma sort_by_head l : forall h t,
  Forall P l -> sort_by after l = h :: t -> forall y, In y l -> after h y = false.
Proof.
  induction l as [|x l IH]; intros h t HP E y Hy; [destruct Hy|].
  inversion HP as [|? ? Hx HPl]; subst. simpl in E.
  destruct (sort_by after l) as [|h' t'] eqn:Es.
  - assert (l = []) by (apply length_zero_iff_nil; rewrite <- sort_by_length, Es; reflexivity).
    subst. simpl in E. injection E as <- <-. destruct Hy as [<-|[]]. apply irrefl, Hx.
  - assert (HPf : forall z, In z (x :: l) -> P z) by (apply Forall_forall, HP).
    assert (Hh' : P h').
    { apply HPf. right. apply sort_by_in. rewrite Es. left. reflexivity. }
    assert (Py : P y) by (apply HPf, Hy).
    specialize (IH h' t' HPl eq_refl). simpl in E.
    destruct (after x h') eqn:Ex; injection E as <- <-.
    + destruct Hy as [<-|Hy]; [apply asym; assumption|apply IH, Hy].
    + destruct Hy as [<-|Hy]; [apply irrefl, Hx|].
      apply (neg_trans x h' y); auto.
Qed.
End Sorting.

Local Open Scope float_scope.

(** The head of an array sorted by [key b - key a] has the greatest key,
    when the keys are numbers. *)
Lemma sort_descending_head {A} (key : A -> float) (l : list A) h t :
  forallb (fun x => negb (is_nan (key x))) l = true ->
  sort (fun a b => key b - key a) l = h :: t ->
  forall y, In y l -> (key h <? key y) = false.
Proof.
  intros HP E y Hy.
  assert (HP' : Forall (fun x => is_nan (key x) = false) l).
  { apply Forall_forall. intros x Hx.
    rewrite forallb_forall in HP. apply negb_true_iff, HP, Hx. }
  assert (HPf : forall x, In x l -> is_nan (key x) = false)
    by (apply Forall_forall, HP').
  assert (Hh : is_nan (key h) = false).
  { apply HPf. apply (sort_by_in (fun a b => 0 <? key b - key a)).
    unfold sort in E. rewrite E. left. reflexivity. }
  assert (Hk : is_nan (key y) = false) by (apply HPf, Hy).
  rewrite <- (sub_positive (key h) (key y)) by assumption.
  revert y Hy Hk. intros y Hy _.
  apply (sort_by_head (fun a b => 0 <? key b - key a) (fun x => is_nan (key x) = false))
    with (l := l) (t := t); auto.
  - intros a b Ha Hb. rewrite !sub_positive by assumption. apply ltb_asym.
  - intros a b c Ha Hb Hc. rewrite !sub_positive by assumption. apply ltb_neg_trans, Hb.
Qed.

Lemma hd_error_cons {A} (l : list A) x : hd_error l = Some x -> exists t, l = x :: t.
Proof. destruct l; simpl; intros E; [discriminate|]. injection E as ->. eauto. Qed.

End SortFacts.

(** ** The roles of a theme *)

Section Roles.
Variable Math_pow : float -> float -> float.
Variable colorStrings : list string.

Let theme := generateTheme Math_pow colorStrings.

(** C3: in both records the card and the popover are the background, and
    their foregrounds are the foreground. *)
Theorem surfaces_share_background :
  (theme.(light).(card) = theme.(light).(background)
   /\ theme.(light).(popover) = theme.(light).(background)
   /\ theme.(light).(cardForeground) = theme.(light).(foreground)
   /\ theme.(light).(popoverForeground) = theme.(light).(foreground))
  /\ (theme.(dark).(card) = theme.(dark).(background)
      /\ theme.(dark).(popover) = theme.(dark).(background)
      /\ theme.(dark).(cardForeground) = theme.(dark).(foreground)
      /\ theme.(dark).(popoverForeground) = theme.(dark).(foreground)).
Proof.
  unfold theme, generateTheme; cbv beta zeta.
  cbn [light dark card background popover cardForeground foreground popoverForeground].
  repeat split; reflexivity.
Qed.

(** C9: the foregrounds of secondary and accent, and the light ring, are
    the primary of their record. *)
Theorem secondary_accent_foregrounds_are_primary :
  (theme.(light).(secondaryForeground) = theme.(light).(primary)
   /\ theme.(light).(accentForeground) = theme.(light).(primary)
   /\ theme.(light).(ring) = theme.(light).(primary))
  /\ (theme.(dark).(secondaryForeground) = theme.(dark).(primary)
      /\ theme.(dark).(accentForeground) = theme.(dark).(primary)).
Proof.
  unfold theme, generateTheme; cbv beta zeta.
  cbn [light dark secondaryForeground accentForeground ring primary].
  repeat split; reflexivity.
Qed.
End Roles.

(** ** The empty input *)

Section Empty.
Variable Math_pow : float -> float -> float.

(** C1: the theme of the empty list is the theme of the fallbacks, all 19
    roles of both records set; its light background is white and its dark
    background is the serialization of the dark default. *)
Theorem generateTheme_empty :
  generateTheme Math_pow [] = fallbackTheme Math_pow
  /\ (generateTheme Math_pow []).(light).(background) = "0 0% 100%"
  /\ (generateTheme Math_pow []).(dark).(background)
     = formatHslForShadcn (rgbToHsl defaultDark).
Proof.
  assert (E : generateTheme Math_pow [] = fallbackTheme Math_pow).
  { unfold generateTheme, fallbackTheme.
    change (colorMap []) with (@nil ColorWithFrequency).
    cbv beta iota zeta delta
      [sortColorsByLuminance sort sort_by List.length Nat.add Nat.div Nat.divmod fst
       slice_first slice_last firstn hd_error rev findPrimaryColor groupColorsByHue
       fold_left filter findForegroundColor findAccentColor sortedColors map].
    destruct (isLightColor Math_pow defaultPrimary); vm_compute; reflexivity. }
  split; [exact E|]. rewrite E. split; vm_compute; reflexivity.
Qed.
End Empty.

(** ** The foreground *)

Section Foreground.
Import SortFacts.
Local Open Scope float_scope.
Variable Math_pow : float -> float -> float.

(** C5, amended: a foreground is found exactly when some colour differs
    from the background in lightness; the one that is found is such a
    colour, and when the distances of these colours from the background are
    numbers, none of them is farther from the background. *)
Theorem foreground_contrasts (background : RGB) (colors : list ColorWithFrequency) :
  (findForegroundColor Math_pow background colors = None
   <-> forall c', In c' colors ->
         isLightColor Math_pow c'.(color) = isLightColor Math_pow background)
  /\ forall c, findForegroundColor Math_pow background colors = Some c ->
       In c colors
       /\ isLightColor Math_pow c.(color) = negb (isLightColor Math_pow background)
       /\ ((forall c', In c' colors ->
               isLightColor Math_pow c'.(color) = negb (isLightColor Math_pow background) ->
               is_nan (colorDistance Math_pow c'.(color) background) = false) ->
           forall c', In c' colors ->
             isLightColor Math_pow c'.(color) = negb (isLightColor Math_pow background) ->
             (colorDistance Math_pow c.(color) background
              <? colorDistance Math_pow c'.(color) background) = false).
Proof.
  unfold findForegroundColor.
  set (keep := fun c : ColorWithFrequency =>
         negb (Bool.eqb (isLightColor Math_pow c.(color)) (isLightColor Math_pow background))).
  set (dist := fun x : ColorWithFrequency => colorDistance Math_pow x.(color) background).
  change (sort (fun a b => colorDistance Math_pow b.(color) background
                           - colorDistance Math_pow a.(color) background) (filter keep colors))
    with (sort (fun a b => dist b - dist a) (filter keep colors)).
  assert (K : forall x, keep x = true <->
                isLightColor Math_pow x.(color) = negb (isLightColor Math_pow background)).
  { intros x. unfold keep.
    destruct (isLightColor Math_pow x.(color)), (isLightColor Math_pow background);
      simpl; split; congruence. }
  assert (K' : forall x, keep x = false <->
                 isLightColor Math_pow x.(color) = isLightColor Math_pow background).
  { intros x. unfold keep.
    destruct (isLightColor Math_pow x.(color)), (isLightColor Math_pow background);
      simpl; split; congruence. }
  split.
  - split.
    + intros E c' Hc'. apply K'. destruct (keep c') eqn:Ek; [exfalso|reflexivity].
      assert (Hin : In c' (sort (fun a b => dist b - dist a) (filter keep colors))).
      { apply (sort_by_in (fun a b => 0 <? dist b - dist a)). apply filter_In. auto. }
      destruct (sort (fun a b => dist b - dist a) (filter keep colors)); [destruct Hin|discriminate].
    + intros H.
      assert (F : filter keep colors = []).
      { destruct (filter keep colors) as [|x t] eqn:Ef; [reflexivity|exfalso].
        assert (Hx : In x (filter keep colors)) by (rewrite Ef; left; reflexivity).
        apply filter_In in Hx as [Hx Kx]. apply (proj2 (K' x)) in H; [|exact Hx]. congruence. }
      rewrite F. reflexivity.
  - intros c E. apply hd_error_cons in E as [t E].
    assert (Hc : In c (filter keep colors)).
    { apply (sort_by_in (fun a b => 0 <? dist b - dist a)).
      unfold sort in E. rewrite E. left. reflexivity. }
    apply filter_In in Hc as [Hc Hk].
    split; [exact Hc|]. split; [apply K, Hk|].
    intros HN c' Hc' Hl.
    apply (sort_descending_head dist (filter keep colors) c t).
    + apply forallb_forall. intros x Hx. apply filter_In in Hx as [Hx Kx].
      apply negb_true_iff. apply HN; [exact Hx|apply K, Kx].
    + exact E.
    + apply filter_In. split; [exact Hc'|apply K, Hl].
Qed.
End Foreground.

(** On a white background, of black and a dark grey, black is the
    foreground. *)
Lemma foreground_contrasts_example :
  let black := {| color := {| r := 0; g := 0; b := 0 |};
                  hsl := {| h := 0; s := 0; l := 0 |}; frequency := 1; hex := "#000000" |} in
  let grey := {| color := {| r := 16; g := 16; b := 16 |};
                 hsl := {| h := 0; s := 0; l := 6.3 |}; frequency := 1; hex := "#101010" |} in
  colorMap ["#000000"; "#101010"] = [black; grey]
  /\ findForegroundColor sample_pow defaultLight [black; grey] = Some black
  /\ isLightColor sample_pow black.(color) = negb (isLightColor sample_pow defaultLight)
  /\ forall c', In c' [black; grey] ->
       (colorDistance sample_pow black.(color) defaultLight
        <? colorDistance sample_pow c'.(color) defaultLight)%float = false.
Proof.
  cbv zeta.
  set (black := {| color := {| r := 0; g := 0; b := 0 |};
                   hsl := {| h := 0; s := 0; l := 0 |}; frequency := 1; hex := "#000000" |}).
  set (grey := {| color := {| r := 16; g := 16; b := 16 |};
                  hsl := {| h := 0; s := 0; l := 6.3 |}; frequency := 1; hex := "#101010" |}).
  split; [vm_compute; reflexivity|].
  assert (H2 : findForegroundColor sample_pow defaultLight [black; grey] = Some black)
    by (vm_compute; reflexivity).
  split; [exact H2|].
  destruct (proj2 (foreground_contrasts sample_pow defaultLight [black; grey]) black H2)
    as (_ & B & C).
  split; [exact B|].
  assert (L : forall c', In c' [black; grey] ->
                isLightColor sample_pow c'.(color) = negb (isLightColor sample_pow defaultLight)
                /\ is_nan (colorDistance sample_pow c'.(color) defaultLight) = false).
  { intros c' [<-|[<-|[]]]; split; vm_compute; reflexivity. }
  intros c' Hc'. apply C; [intros x Hx _; apply L, Hx|exact Hc'|apply L, Hc'].
Defined.

(** C5 as stated fails when a distance is not a number.  A text in [hsl]
    form whose saturation overflows parses to a colour of NaN channels; it
    is dark, and its distance from white is NaN.  Between a grey and black
    it keeps the sort from moving black ahead: the grey is the foreground,
    though black, dark as well, is farther from white. *)
Lemma foreground_not_farthest :
  let overflowing := str (chars "hsl(0, " ++ repeat "9"%char 310 ++ chars "%, 60%)") in
  let colors := colorMap ["#646464"; overflowing; "#000000"] in
  let distance (c : ColorWithFrequency) := colorDistance sample_pow c.(color) defaultLight in
  let found := findForegroundColor sample_pow defaultLight colors in
  parseColor overflowing = Some {| r := nan; g := nan; b := nan |}
  /\ map hex colors = ["#646464"; "#NaNNaNNaN"; "#000000"]
  /\ map (fun c => isLightColor sample_pow c.(color)) colors = [false; false; false]
  /\ isLightColor sample_pow defaultLight = true
  /\ map (fun c => is_nan (distance c)) colors = [false; true; false]
  /\ option_map hex found = Some "#646464"
  /\ map (fun c => match found with
                   | Some grey => (distance grey <? distance c)%float
                   | None => false
                   end) colors = [false; false; true].
Proof.
  cbv zeta.
  split; [vm_compute; reflexivity|]. split; [vm_compute; reflexivity|].
  split; [vm_compute; reflexivity|]. split; [vm_compute; reflexivity|].
  split; [vm_compute; reflexivity|]. split; vm_compute; reflexivity.
Qed.

(** ** The primary colour *)

Module Primary.
Import SortFacts FloatOrder.
Local Open Scope list_scope.
Local Open Scope float_scope.

Lemma sameValueZero_refl x : sameValueZero x x = true.
Proof. unfold sameValueZero, is_nan. destruct (x =? x); reflexivity. Qed.

Lemma push_well_grouped colors c groups :
  In c colors -> well_grouped colors groups ->
  well_grouped colors (push (hueBucket c) c groups).
Proof.
  intros Hc. induction groups as [|[k cs] groups IH]; intros W k' cs' Hin.
  - destruct Hin as [E|[]]. injection E as <- <-. split; [discriminate|].
    intros c' [<-|[]]. split; [exact Hc|apply sameValueZero_refl].
  - simpl in Hin. destruct (sameValueZero k (hueBucket c)) eqn:Ek.
    + destruct Hin as [E|Hin]; [|apply W; right; exact Hin].
      injection E as <- <-. destruct (W k cs (or_introl eq_refl)) as [_ Wc].
      split; [destruct cs; discriminate|].
      intros c' Hc'. apply in_app_or in Hc' as [Hc'|[<-|[]]]; [apply Wc, Hc'|].
      split; [exact Hc|exact Ek].
    + destruct Hin as [E|Hin]; [injection E as <- <-; apply W; left; reflexivity|].
      apply IH; [|exact Hin]. intros k0 cs0 H0. apply W. right. exact H0.
Qed.

Lemma groupColorsByHue_well_grouped colors :
  well_grouped colors (groupColorsByHue colors).
Proof.
  unfold groupColorsByHue.
  assert (G : forall cols groups, incl cols colors -> well_grouped colors groups ->
    well_grouped colors
      (fold_left (fun groups c =>
         if c.(hsl).(s) <? 15 then groups
         else if (c.(hsl).(l) <? 15) || (90 <? c.(hsl).(l)) then groups
         else push (hueBucket c) c groups) cols groups)).
  { induction cols as [|c cols IH]; intros groups Hi W; [exact W|].
    simpl. apply IH; [intros x Hx; apply Hi; right; exact Hx|].
    destruct (c.(hsl).(s) <? 15); [exact W|].
    destruct ((c.(hsl).(l) <? 15) || (90 <? c.(hsl).(l))); [exact W|].
    apply push_well_grouped; [apply Hi; left; reflexivity|exact W]. }
  apply G; [apply incl_refl|]. intros k cs [].
Qed.

Lemma ltb_irrefl x : (x <? x) = false.
Proof. destruct (x <? x) eqn:E; [|reflexivity]. rewrite (ltb_asym _ _ E) in E. discriminate. Qed.

(** A number that is not above another is below whatever that one is below. *)
Lemma ltb_le_trans x y z :
  is_nan y = false -> (x <? y) = false -> (x <? z) = true -> (y <? z) = true.
Proof.
  intros Hy H1 H2. destruct (ltb_true_number _ _ H2) as [Hx Hz].
  apply ltb_below; [assumption|assumption|].
  apply ltb_below in H2; [|assumption|assumption].
  assert (N : ~ below x y) by (intros C; apply ltb_below in C; congruence).
  unfold below in *.
  destruct (key3 (Prim2SF x)) as [[? ?] ?], (key3 (Prim2SF y)) as [[? ?] ?],
    (key3 (Prim2SF z)) as [[? ?] ?]; simpl in *; lia.
Qed.

Lemma is_nan_cases x : is_nan x = true \/ is_nan x = false.
Proof. destruct (is_nan x); auto. Qed.

(** The group kept by the loop over the buckets is the first that no
    bucket outscores: the buckets before it score lower, unless their
    score is not a number, and the buckets after it do not score higher. *)
Lemma bestGroup_first groups :
  match bestGroup groups with
  | None => groups = []
  | Some b =>
      b.(group_score) = groupScore b.(group_hue) b.(group_colors)
      /\ exists before after,
           groups = before ++ (b.(group_hue), b.(group_colors)) :: after
           /\ (forall k cs, In (k, cs) before ->
                 (groupScore k cs <? b.(group_score)) = true \/ is_nan (groupScore k cs) = true)
           /\ (forall k cs, In (k, cs) after -> (b.(group_score) <? groupScore k cs) = false)
  end.
Proof.
  unfold bestGroup.
  set (step := fun (best : option Group) '(hue, groupColors) =>
    let score := groupScore hue groupColors in
    match best with
    | None => Some {| group_hue := hue; group_colors := groupColors; group_score := score |}
    | Some b =>
        if b.(group_score) <? score
        then Some {| group_hue := hue; group_colors := groupColors; group_score := score |}
        else best
    end).
  set (Inv := fun (seen : list (float * list ColorWithFrequency)) (best : option Group) =>
    match best with
    | None => seen = []
    | Some b =>
        b.(group_score) = groupScore b.(group_hue) b.(group_colors)
        /\ exists before after,
             seen = before ++ (b.(group_hue), b.(group_colors)) :: after
             /\ (forall k cs, In (k, cs) before ->
                   (groupScore k cs <? b.(group_score)) = true \/ is_nan (groupScore k cs) = true)
             /\ (forall k cs, In (k, cs) after -> (b.(group_score) <? groupScore k cs) = false)
    end).
  assert (G : forall rest seen best, Inv seen best -> Inv (seen ++ rest) (fold_left step rest best)).
  { induction rest as [|[k cs] rest IH]; intros seen best K.
    - rewrite app_nil_r. exact K.
    - replace (seen ++ (k, cs) :: rest) with ((seen ++ [(k, cs)]) ++ rest)
        by (rewrite <- app_assoc; reflexivity).
      cbn [fold_left]. apply IH. destruct best as [b|]; cbn [step Inv] in K |- *.
      + destruct K as (Ks & before & after & Es & Kb & Ka).
        destruct (b.(group_score) <? groupScore k cs) eqn:Eb; cbn [Inv group_score group_hue group_colors].
        * split; [reflexivity|]. exists seen, []. split; [reflexivity|]. split; [|intros ? ? []].
          destruct (ltb_true_number _ _ Eb) as [Nb _].
          intros k' cs' Hin. rewrite Es in Hin.
          apply in_app_or in Hin as [Hin|[E|Hin]].
          -- destruct (Kb k' cs' Hin) as [L|L]; [left|right; exact L].
             exact (ltb_trans _ _ _ L Eb).
          -- injection E as <- <-. left. rewrite <- Ks. exact Eb.
          -- destruct (is_nan_cases (groupScore k' cs')) as [L|L]; [right; exact L|left].
             apply (ltb_le_trans b.(group_score)); [exact L|apply Ka, Hin|exact Eb].
        * split; [exact Ks|]. exists before, (after ++ [(k, cs)]).
          split; [rewrite Es, <- app_assoc; reflexivity|]. split; [exact Kb|].
          intros k' cs' Hin. apply in_app_or in Hin as [Hin|[E|[]]]; [apply Ka, Hin|].
          injection E as <- <-. exact Eb.
      + subst seen. cbn [Inv group_score group_hue group_colors app].
        split; [reflexivity|]. exists [], []. split; [reflexivity|].
        split; intros ? ? []. }
  apply (G groups [] None). reflexivity.
Qed.

Lemma ltb_nan_false x y : is_nan y = true -> (x <? y) = false.
Proof.
  intros H. destruct (x <? y) eqn:E; [|reflexivity].
  destruct (ltb_true_number _ _ E). congruence.
Qed.


(** The score of a bucket is the weighted sum of its total frequency and its
    average saturation, times the penalty read at the bucket's key. *)
Lemma groupScore_scoreAt hue cs : groupScore hue cs = scoreAt hue cs.
Proof. reflexivity. Qed.


End Primary.



(** ** The palette *)

Module Palette.
Local Open Scope list_scope.

Lemma has_in key m : has key m = true <-> In key (map hex m).
Proof.
  unfold has. rewrite existsb_exists, in_map_iff. split.
  - intros (c & Hc & E). apply String.eqb_eq in E. eauto.
  - intros (c & E & Hc). exists c. split; [exact Hc|]. apply String.eqb_eq, E.
Qed.

Lemma increment_keys key m : map hex (increment key m) = map hex m.
Proof.
  induction m as [|c m IH]; simpl; [reflexivity|].
  destruct (String.eqb c.(hex) key); simpl; [reflexivity|]. rewrite IH. reflexivity.
Qed.

Lemma increment_in key m c' :
  NoDup (map hex m) -> In c' (increment key m) ->
  (In c' m /\ c'.(hex) <> key) \/ (exists c, In c m /\ c.(hex) = key /\ c' = bump c).
Proof.
  induction m as [|c m IH]; simpl; intros ND H; [destruct H|].
  inversion ND as [|? ? Hn ND']; subst.
  destruct (String.eqb c.(hex) key) eqn:E.
  - apply String.eqb_eq in E. destruct H as [<-|H].
    + right. exists c. auto.
    + left. split; [right; exact H|]. intros E'. apply Hn. rewrite E, <- E'.
      apply in_map, H.
  - apply String.eqb_neq in E. destruct H as [<-|H]; [left; auto|].
    destruct (IH ND' H) as [[H1 H2]|(c0 & H1 & H2 & H3)]; [left; auto|].
    right. exists c0. auto.
Qed.

Lemma accumulated_succ n : (1 <= n)%nat -> accumulated (S n) = (accumulated n + 1)%float.
Proof. destruct n; [lia|]. intros _. reflexivity. Qed.

Lemma occurrences_snoc key l s :
  occurrences key (l ++ [s]) = (occurrences key l + (if hasKey key s then 1 else 0))%nat.
Proof.
  unfold occurrences. rewrite filter_app, length_app. simpl.
  destruct (hasKey key s); reflexivity.
Qed.

Lemma colorMap_snoc l s : colorMap (l ++ [s]) = addColor (colorMap l) s.
Proof. unfold colorMap. rewrite fold_left_app. reflexivity. Qed.

Lemma colorMap_tallies l : tallies l (colorMap l).
Proof.
  induction l as [|s l IH] using rev_ind.
  - split; simpl; [constructor|intros c []|intros key H; inversion H].
  - rewrite colorMap_snoc. destruct IH as [ND EC KP].
    unfold addColor. destruct (parseColor s) as [rgb|] eqn:Ep.
    2:{ assert (O : forall key, occurrences key (l ++ [s]) = occurrences key l).
        { intros key. rewrite occurrences_snoc. unfold hasKey, keyOf. rewrite Ep. simpl. lia. }
        split; [exact ND| |]; intros x; rewrite O; auto. }
    assert (O : forall key, occurrences key (l ++ [s])
                = (occurrences key l + (if String.eqb (hexOf rgb) key then 1 else 0))%nat).
    { intros key. rewrite occurrences_snoc. unfold hasKey, keyOf. rewrite Ep. reflexivity. }
    destruct (has (hexOf rgb) (colorMap l)) eqn:Eh.
    + split.
      * rewrite increment_keys. exact ND.
      * intros c' Hc'. rewrite O.
        destruct (increment_in _ _ _ ND Hc') as [[H1 H2]|(c & H1 & H2 & ->)].
        -- apply not_eq_sym, String.eqb_neq in H2. rewrite H2, Nat.add_0_r. apply EC, H1.
        -- cbn [bump hex frequency]. destruct (EC c H1) as [E1 E2].
           rewrite H2 in *. rewrite String.eqb_refl.
           split; [lia|]. rewrite Nat.add_1_r, accumulated_succ by exact E1.
           rewrite E2. reflexivity.
      * intros key. rewrite O, increment_keys. intros H.
        destruct (String.eqb (hexOf rgb) key) eqn:E.
        -- apply String.eqb_eq in E. subst key. apply has_in, Eh.
        -- apply KP. lia.
    + assert (Hn : ~ In (hexOf rgb) (map hex (colorMap l))).
      { intros H. apply has_in in H. congruence. }
      assert (Oz : occurrences (hexOf rgb) l = 0%nat).
      { destruct (occurrences (hexOf rgb) l) eqn:E; [reflexivity|].
        exfalso. apply Hn, KP. lia. }
      split.
      * rewrite map_app. simpl. apply NoDup_app; [exact ND|repeat constructor; intros []|].
        intros x Hx [<-|[]]. exact (Hn Hx).
      * intros c' Hc'. rewrite O. apply in_app_or in Hc' as [Hc'|[<-|[]]].
        -- assert (E : String.eqb (hexOf rgb) c'.(hex) = false).
           { apply String.eqb_neq. intros E. apply Hn. rewrite E. apply in_map, Hc'. }
           rewrite E, Nat.add_0_r. apply EC, Hc'.
        -- cbn [hex frequency]. rewrite String.eqb_refl, Oz. split; [lia|reflexivity].
      * intros key. rewrite O, map_app. intros H. apply in_or_app.
        destruct (String.eqb (hexOf rgb) key) eqn:E.
        -- apply String.eqb_eq in E. subst key. right. left. reflexivity.
        -- left. apply KP. lia.
Qed.

Lemma occurrences_perm key l l' :
  Permutation l l' -> occurrences key l = occurrences key l'.
Proof.
  unfold occurrences. induction 1 as [|x l l' _ IH|x y l|l l' l'' _ IH1 _ IH2]; simpl.
  - reflexivity.
  - destruct (hasKey key x); simpl; congruence.
  - destruct (hasKey key x), (hasKey key y); reflexivity.
  - congruence.
Qed.

Lemma entries_by_key l :
  map entry (colorMap l)
  = map (fun key => (key, accumulated (occurrences key l))) (map hex (colorMap l)).
Proof.
  rewrite map_map. apply map_ext_in. intros c Hc.
  destruct (entry_counted _ _ (colorMap_tallies l) c Hc) as [_ E].
  unfold entry. rewrite E. reflexivity.
Qed.

(** The hex keys of the palette and their frequencies do not depend on the
    order of the input. *)
Lemma palette_order_independent (l l' : list string) :
  Permutation l l' -> Permutation (map entry (colorMap l)) (map entry (colorMap l')).
Proof.
  intros HP. rewrite !entries_by_key.
  rewrite (map_ext (fun key => (key, accumulated (occurrences key l')))
                   (fun key => (key, accumulated (occurrences key l)))).
  2:{ intros key. rewrite (occurrences_perm key l l' HP). reflexivity. }
  apply Permutation_map.
  destruct (colorMap_tallies l) as [ND EC KP], (colorMap_tallies l') as [ND' EC' KP'].
  apply NoDup_Permutation; [exact ND|exact ND'|].
  intros key. split; intros H; apply in_map_iff in H as (c & <- & Hc).
  - apply KP'. rewrite <- (occurrences_perm _ l l' HP). apply EC, Hc.
  - apply KP. rewrite (occurrences_perm _ l l' HP). apply EC', Hc.
Qed.

Lemma in_firstn {A} n (l : list A) x : In x (firstn n l) -> In x l.
Proof. intros H. rewrite <- (firstn_skipn n l). apply in_or_app. left. exact H. Qed.

Lemma sortedColors_incl colors : incl (sortedColors colors) colors.
Proof.
  intros c Hc. unfold sortedColors, slice_first, sort in Hc.
  apply in_firstn in Hc. apply SortFacts.sort_by_in in Hc.
  apply filter_In in Hc. apply Hc.
Qed.

Section Summary.
Variable Math_pow : float -> float -> float.
Variable colorStrings : list string.

Let theme := generateTheme Math_pow colorStrings.
Let sorted := sortedColors (colorMap colorStrings).

(** C10: the two summaries list the same colours of the palette, at most
    twelve, index by index: the hex, the accumulated frequency and the
    rounded hue. *)
Theorem summaries_agree :
  List.length theme.(sourceColors) = List.length theme.(colorDetails)
  /\ (List.length theme.(sourceColors) <= 12)%nat
  /\ theme.(sourceColors) = map detail_hex theme.(colorDetails)
  /\ forall i d, nth_error theme.(colorDetails) i = Some d ->
       exists c,
         In c (colorMap colorStrings)
         /\ nth_error theme.(sourceColors) i = Some c.(hex)
         /\ d.(detail_hex) = c.(hex)
         /\ d.(detail_frequency) = c.(frequency)
         /\ c.(frequency) = accumulated (occurrences c.(hex) colorStrings)
         /\ d.(detail_hue) = Math_round c.(hsl).(h).
Proof.
  assert (Es : theme.(sourceColors) = map hex sorted) by reflexivity.
  assert (Ed : theme.(colorDetails) = map detail sorted) by reflexivity.
  rewrite Es, Ed. rewrite !length_map, map_map. repeat split.
  - unfold sorted, sortedColors, slice_first. rewrite length_firstn. lia.
  - intros i d H. rewrite nth_error_map in H.
    destruct (nth_error sorted i) as [c|] eqn:Ec; [|discriminate].
    injection H as <-. exists c.
    assert (Hc : In c (colorMap colorStrings)).
    { apply sortedColors_incl. eapply nth_error_In, Ec. }
    split; [exact Hc|]. split; [rewrite nth_error_map, Ec; reflexivity|].
    repeat split. apply (entry_counted _ _ (colorMap_tallies colorStrings) c Hc).
Qed.
End Summary.

End Palette.

(** C2 as stated fails: pure blue and pure green tie in every sort, so the
    one that comes first in the input comes first in the summary and is the
    primary. *)
Lemma theme_depends_on_order :
  Permutation ["#0000ff"; "#00ff00"] ["#00ff00"; "#0000ff"]
  /\ forall Math_pow,
       (generateTheme Math_pow ["#0000ff"; "#00ff00"]).(sourceColors) = ["#0000ff"; "#00ff00"]
       /\ (generateTheme Math_pow ["#00ff00"; "#0000ff"]).(sourceColors) = ["#00ff00"; "#0000ff"]
       /\ (generateTheme Math_pow ["#0000ff"; "#00ff00"]).(light).(primary) = "240 100% 50%"
       /\ (generateTheme Math_pow ["#00ff00"; "#0000ff"]).(light).(primary) = "120 100% 50%".
Proof.
  split; [apply perm_swap|]. intros Math_pow.
  unfold generateTheme; cbv beta zeta; cbn [sourceColors light primary].
  repeat split; vm_compute; reflexivity.
Qed.

(** ** Parsing *)

(** C6: thirteen of the fourteen names of the table parse to their colour;
    [transparent] is in the table with eight hex digits, which [hexToRgb]
    does not read, and parses to nothing. *)
Theorem named_colors_parse :
  map (fun name => parseColor name)
      ["white"; "black"; "red"; "green"; "blue"; "yellow"; "cyan"; "magenta";
       "gray"; "grey"; "orange"; "purple"; "pink"]
  = map Some
      [ {| r := 255; g := 255; b := 255 |}; {| r := 0; g := 0; b := 0 |};
        {| r := 255; g := 0; b := 0 |}; {| r := 0; g := 255; b := 0 |};
        {| r := 0; g := 0; b := 255 |}; {| r := 255; g := 255; b := 0 |};
        {| r := 0; g := 255; b := 255 |}; {| r := 255; g := 0; b := 255 |};
        {| r := 128; g := 128; b := 128 |}; {| r := 128; g := 128; b := 128 |};
        {| r := 255; g := 165; b := 0 |}; {| r := 128; g := 0; b := 128 |};
        {| r := 255; g := 192; b := 203 |} ]%float
  /\ map fst namedColors
     = ["white"; "black"; "red"; "green"; "blue"; "yellow"; "cyan"; "magenta";
        "gray"; "grey"; "orange"; "purple"; "pink"; "transparent"]
  /\ lookup "transparent" namedColors = Some "#00000000"
  /\ hexToRgb (chars "#00000000") = None
  /\ parseColor "transparent" = None.
Proof. repeat split; vm_compute; reflexivity. Qed.

(** ** Quantization *)

Module Quantize.
Import SortFacts.
Local Open Scope list_scope.
Local Open Scope nat_scope.

Lemma total_perm l l' : Permutation l l' -> total l = total l'.
Proof.
  unfold total. induction 1; simpl; lia.
Qed.

Lemma total_cons bucket l : total (bucket :: l) = size bucket + total l.
Proof. reflexivity. Qed.

Lemma size_mkBucket cs : size (mkBucket cs) = List.length cs.
Proof. reflexivity. Qed.

Lemma total_app l l' : total (l ++ l') = total l + total l'.
Proof. unfold total. rewrite map_app, list_sum_app. reflexivity. Qed.

Lemma well_formed_length buckets : well_formed buckets -> List.length buckets <= total buckets.
Proof.
  unfold total. induction 1 as [|bucket buckets [_ H] _ IH]; simpl; lia.
Qed.

Lemma singletons_total buckets :
  well_formed buckets -> (forall bucket, In bucket buckets -> size bucket < 2) ->
  total buckets = List.length buckets.
Proof.
  unfold total. induction 1 as [|bucket buckets [_ H] _ IH]; intros S; simpl; [reflexivity|].
  rewrite IH by (intros x Hx; apply S; right; exact Hx).
  specialize (S bucket (or_introl eq_refl)). lia.
Qed.

(** The first bucket after the sort by count is a largest one. *)
Lemma largest_first buckets bucket rest :
  well_formed buckets -> sort_by byCount buckets = bucket :: rest ->
  forall x, In x buckets -> size x <= size bucket.
Proof.
  intros W E x Hx.
  assert (H : byCount bucket x = false).
  { apply (sort_by_head byCount (fun _ => True)) with (l := buckets) (t := rest); auto.
    - unfold byCount. intros a c _ _ H. apply Z.ltb_lt in H. apply Z.ltb_ge. lia.
    - unfold byCount. intros a c d _ _ _ H1 H2.
      apply Z.ltb_ge in H1, H2. apply Z.ltb_ge. lia.
    - apply Forall_forall. intros; exact I. }
  unfold byCount in H. apply Z.ltb_ge in H.
  unfold well_formed in W. rewrite Forall_forall in W.
  destruct (W x Hx) as [Cx _].
  assert (Hb : In bucket buckets) by (apply (sort_by_in byCount); rewrite E; left; reflexivity).
  destruct (W bucket Hb) as [Cb _]. lia.
Qed.

Lemma halves n : 2 <= n -> 1 <= n / 2 /\ n / 2 < n.
Proof.
  intros H. pose proof (Nat.div_mod_eq n 2). pose proof (Nat.mod_upper_bound n 2). lia.
Qed.

(** One turn of the loop. *)
Lemma split_loop_step turns n buckets :
  split_loop (S turns) n buckets
  = if (number_of_nat (List.length buckets) <? n)%float then
      match sort_by byCount buckets with
      | [] => []
      | bucket :: rest =>
          if size bucket <? 2 then bucket :: rest
          else
            let sorted := byChannel bucket.(colors) in
            split_loop turns n
              (mkBucket (firstn (List.length sorted / 2) sorted)
                 :: rest ++ [mkBucket (skipn (List.length sorted / 2) sorted)])
      end
    else buckets.
Proof.
  cbn [split_loop]. unfold sortZ. change (fun a b => (0 <? Z.of_nat b.(count) - Z.of_nat a.(count))%Z)
    with byCount.
  destruct (number_of_nat (List.length buckets) <? n)%float; [|reflexivity].
  destruct (sort_by byCount buckets); reflexivity.
Qed.

Lemma byChannel_length cs : List.length (byChannel cs) = List.length cs.
Proof. apply sort_by_length. Qed.

(** The buckets after a turn that splits the largest. *)
Lemma split_well_formed bucket rest :
  well_formed (bucket :: rest) -> 2 <= size bucket ->
  let sorted := byChannel bucket.(colors) in
  let buckets' := mkBucket (firstn (List.length sorted / 2) sorted)
                    :: rest ++ [mkBucket (skipn (List.length sorted / 2) sorted)] in
  well_formed buckets'
  /\ List.length buckets' = S (List.length (bucket :: rest))
  /\ total buckets' = total (bucket :: rest).
Proof.
  intros Ws E2 sorted buckets'.
  assert (Hl : List.length sorted = size bucket) by apply byChannel_length.
  destruct (halves _ E2) as [H1 H2].
  assert (F : List.length (firstn (List.length sorted / 2) sorted) = size bucket / 2).
  { rewrite length_firstn, Hl. lia. }
  assert (K : List.length (skipn (List.length sorted / 2) sorted)
              = size bucket - size bucket / 2).
  { rewrite length_skipn, Hl. reflexivity. }
  inversion Ws as [|? ? [_ _] Wrest]; subst.
  split; [|split].
  - constructor; [split; [reflexivity|rewrite size_mkBucket, F; lia]|].
    apply Forall_app. split; [exact Wrest|].
    constructor; [|constructor].
    split; [reflexivity|rewrite size_mkBucket, K; lia].
  - unfold buckets'. cbn [List.length]. rewrite length_app. cbn [List.length]. lia.
  - unfold buckets'. rewrite !total_cons, total_app, total_cons, !size_mkBucket, F, K.
    change (total []) with 0. lia.
Qed.

Lemma split_room bucket rest :
  well_formed (bucket :: rest) -> 2 <= size bucket ->
  List.length (bucket :: rest) < total (bucket :: rest).
Proof.
  intros Ws E2. rewrite total_cons. inversion Ws as [|? ? _ Wrest]; subst.
  pose proof (well_formed_length rest Wrest). cbn [List.length]. lia.
Qed.

(** The loop ends by itself within as many turns as there are colours
    beyond the buckets, and one more: further turns change nothing. *)
Lemma split_loop_turns n t1 : forall t2 buckets,
  well_formed buckets ->
  total buckets - List.length buckets < t1 -> total buckets - List.length buckets < t2 ->
  split_loop t1 n buckets = split_loop t2 n buckets.
Proof.
  induction t1 as [|t1 IH]; intros t2 buckets W H1 H2; [lia|].
  destruct t2 as [|t2]; [lia|].
  rewrite !split_loop_step.
  destruct (number_of_nat (List.length buckets) <? n)%float; [|reflexivity].
  pose proof (sort_by_perm byCount buckets) as HP.
  assert (Ws : well_formed (sort_by byCount buckets))
    by (unfold well_formed; rewrite HP; exact W).
  rewrite <- (total_perm _ _ HP), <- (sort_by_length byCount buckets) in H1, H2.
  destruct (sort_by byCount buckets) as [|bucket rest]; [reflexivity|].
  destruct (size bucket <? 2) eqn:E2; [reflexivity|].
  apply Nat.ltb_ge in E2. cbv zeta.
  destruct (split_well_formed bucket rest Ws E2) as (W' & L' & T').
  pose proof (split_room bucket rest Ws E2) as Hgt.
  cbv zeta in W', L', T'.
  apply IH; [exact W'|rewrite L', T'; lia|rewrite L', T'; lia].
Qed.

(** The number of buckets when the loop has ended: it is not below the
    target unless every colour has its own bucket, and every smaller number
    of buckets that the loop went through is below the target. *)
Lemma split_loop_count n turns : forall buckets,
  well_formed buckets -> total buckets - List.length buckets < turns ->
  List.length buckets <= List.length (split_loop turns n buckets) <= total buckets
  /\ (List.length (split_loop turns n buckets) < total buckets ->
      (number_of_nat (List.length (split_loop turns n buckets)) <? n)%float = false)
  /\ (forall j, List.length buckets <= j < List.length (split_loop turns n buckets) ->
      (number_of_nat j <? n)%float = true).
Proof.
  induction turns as [|turns IH]; intros buckets W H; [lia|].
  pose proof (well_formed_length buckets W) as Hlen.
  rewrite split_loop_step.
  destruct (number_of_nat (List.length buckets) <? n)%float eqn:En.
  2:{ split; [lia|]. split; [intros _; exact En|intros j Hj; lia]. }
  pose proof (sort_by_perm byCount buckets) as HP.
  assert (Ws : well_formed (sort_by byCount buckets))
    by (unfold well_formed; rewrite HP; exact W).
  pose proof (largest_first buckets) as L.
  rewrite <- (total_perm _ _ HP), <- (sort_by_length byCount buckets) in *.
  destruct (sort_by byCount buckets) as [|bucket rest] eqn:Es.
  { cbn in *. split; [lia|]. split; intros; lia. }
  destruct (size bucket <? 2) eqn:E2.
  - apply Nat.ltb_lt in E2.
    assert (T : total (bucket :: rest) = List.length (bucket :: rest)).
    { apply (singletons_total _ Ws). intros x Hx.
      assert (size x <= size bucket); [|lia].
      apply (L bucket rest W eq_refl). apply (sort_by_in byCount). rewrite Es. exact Hx. }
    split; [lia|]. split; intros; lia.
  - apply Nat.ltb_ge in E2. cbv zeta.
    destruct (split_well_formed bucket rest Ws E2) as (W' & L' & T').
    cbv zeta in W', L', T'.
    pose proof (split_room bucket rest Ws E2) as Hgt.
    destruct (IH _ W') as (A & B & C); [rewrite L', T'; lia|].
    rewrite L', T' in *.
    split; [lia|]. split; [exact B|].
    intros j Hj. destruct (Nat.eq_dec j (List.length (bucket :: rest))) as [->|Nj].
    + exact En.
    + apply C. lia.
Qed.

Lemma ltb_same_false x : (x <? x)%float = false.
Proof.
  destruct (x <? x)%float eqn:E; [|reflexivity].
  rewrite (FloatOrder.ltb_asym _ _ E) in E. discriminate.
Qed.

(** For a whole target the loop ends with that many buckets, or with one
    bucket for each colour when that is fewer. *)
Lemma medianCutQuantize_whole (pixels : list RGB) (m : nat) :
  pixels <> [] -> 1 <= m -> (Z.of_nat m < 2 ^ 53)%Z ->
  List.length (medianCutQuantize pixels (number_of_nat m)) = Nat.min m (List.length pixels).
Proof.
  intros Hp Hm Hb. unfold medianCutQuantize.
  destruct pixels as [|p pixels]; [congruence|]. rewrite length_map.
  destruct (split_loop_count (number_of_nat m) (List.length (p :: pixels))
              [mkBucket (p :: pixels)]) as (A & B & C).
  { constructor; [|constructor]. split; [reflexivity|rewrite size_mkBucket; cbn [List.length]; lia]. }
  { rewrite total_cons, size_mkBucket. change (total []) with 0. cbn [List.length]. lia. }
  rewrite total_cons, size_mkBucket in A, B. change (total []) with 0 in A, B.
  rewrite Nat.add_0_r in A, B. change (List.length [mkBucket (p :: pixels)]) with 1 in A, C.
  set (k := List.length (split_loop (List.length (p :: pixels)) (number_of_nat m)
                           [mkBucket (p :: pixels)])) in *.
  assert (Hk : k <= m).
  { destruct (Nat.le_gt_cases k m) as [H|H]; [exact H|exfalso].
    specialize (C m (conj Hm H)). rewrite ltb_same_false in C. discriminate. }
  destruct (Nat.eq_dec k (Nat.min m (List.length (p :: pixels)))) as [E|N]; [exact E|exfalso].
  assert (Hlt : k < List.length (p :: pixels)) by lia.
  specialize (B Hlt).
  rewrite (Counts.number_of_nat_lt k m) in B by (lia || assumption). discriminate.
Qed.

(** C7, amended: the target is any number.  The result has at least one
    colour and at most one for each pixel; every smaller count from 1 on is
    below the target, and the count itself is not, unless every pixel has
    its own colour.  So a whole target of at least 1 gives exactly that many
    colours, or as many as the pixels when they are fewer: at most the
    target, and fewer only if the pixels hold fewer than that many distinct
    colours.  A target that is not above 1 gives one colour, the average of
    all pixels.  The loop ends by itself: more turns change nothing. *)
Theorem medianCutQuantize_count (pixels : list RGB) (n : float) :
  pixels <> [] ->
  let result := medianCutQuantize pixels n in
  (forall turns, List.length pixels <= turns ->
     map ColorUtils.average (split_loop turns n [mkBucket pixels]) = result)
  /\ 1 <= List.length result <= List.length pixels
  /\ (List.length result < List.length pixels ->
      (number_of_nat (List.length result) <? n)%float = false)
  /\ (forall j, 1 <= j < List.length result -> (number_of_nat j <? n)%float = true)
  /\ (forall m, 1 <= m -> (Z.of_nat m < 2 ^ 53)%Z -> n = number_of_nat m ->
        List.length result = Nat.min m (List.length pixels)
        /\ List.length result <= m
        /\ (List.length result < m ->
            forall distinct, NoDup distinct -> incl distinct pixels ->
              List.length distinct < m))
  /\ ((1 <? n)%float = false -> result = [ColorUtils.average (mkBucket pixels)]).
Proof.
  intros Hp result.
  assert (W : well_formed [mkBucket pixels]).
  { constructor; [|constructor]. split; [reflexivity|].
    rewrite size_mkBucket. destruct pixels; [congruence|cbn [List.length]; lia]. }
  assert (T : total [mkBucket pixels] = List.length pixels).
  { rewrite total_cons, size_mkBucket. change (total []) with 0. lia. }
  assert (Hl : 1 <= List.length pixels) by (destruct pixels; [congruence|cbn [List.length]; lia]).
  assert (R : result = map ColorUtils.average
                         (split_loop (List.length pixels) n [mkBucket pixels])).
  { unfold result, medianCutQuantize. destruct pixels; [congruence|reflexivity]. }
  destruct (split_loop_count n (List.length pixels) [mkBucket pixels] W) as (A & B & C).
  { rewrite T. cbn [List.length]. lia. }
  rewrite T in A, B. change (List.length [mkBucket pixels]) with 1 in A, C.
  assert (Lr : List.length result
               = List.length (split_loop (List.length pixels) n [mkBucket pixels]))
    by (rewrite R; apply length_map).
  split; [|split; [|split; [|split; [|split]]]].
  - intros turns Ht. rewrite R. f_equal.
    apply split_loop_turns; [exact W| |]; rewrite T; cbn [List.length]; lia.
  - rewrite Lr. exact A.
  - rewrite Lr. exact B.
  - rewrite Lr. exact C.
  - intros m Hm Hb ->.
    assert (E : List.length result = Nat.min m (List.length pixels))
      by (apply medianCutQuantize_whole; assumption).
    split; [exact E|]. split; [lia|].
    intros Hlt distinct ND Hi. pose proof (NoDup_incl_length ND Hi). lia.
  - intros H1.
    destruct (Nat.eq_dec (List.length result) 1) as [E|N].
    + rewrite R in *. rewrite length_map in E.
      assert (S1 : split_loop (List.length pixels) n [mkBucket pixels] = [mkBucket pixels]).
      { destruct (List.length pixels) as [|t]; [reflexivity|].
        rewrite split_loop_step. change (number_of_nat (List.length [mkBucket pixels])) with 1%float.
        rewrite H1. reflexivity. }
      rewrite S1. reflexivity.
    + exfalso. specialize (C 1). rewrite <- Lr in C.
      change (number_of_nat 1) with 1%float in C. rewrite H1 in C.
      assert (false = true); [apply C; lia|discriminate].
Qed.

End Quantize.

(** Five pixels cut to three colours. *)
Lemma medianCutQuantize_count_example :
  let pixels := [ {| r := 1; g := 2; b := 3 |}; {| r := 10; g := 20; b := 30 |};
                  {| r := 100; g := 50; b := 0 |}; {| r := 7; g := 7; b := 7 |};
                  {| r := 200; g := 200; b := 200 |} ]%float in
  List.length pixels = 5%nat
  /\ List.length (medianCutQuantize pixels 3) = 3%nat.
Proof.
  split; [reflexivity|].
  refine (proj1 (proj1 (proj2 (proj2 (proj2 (proj2
           (Quantize.medianCutQuantize_count _ 3%float _))))) 3%nat _ _ _));
    [discriminate|lia|reflexivity|reflexivity].
Defined.

(** C7 as stated fails for a target that is not a whole number of at least
    1: a target of zero gives one colour, and a target of 2.5 gives three. *)
Lemma medianCutQuantize_exceeds_target :
  let one := [ {| r := 1; g := 2; b := 3 |} ]%float in
  let three := [ {| r := 1; g := 2; b := 3 |}; {| r := 10; g := 20; b := 30 |};
                 {| r := 100; g := 50; b := 0 |} ]%float in
  medianCutQuantize one 0 = one
  /\ (0 <? number_of_nat (List.length (medianCutQuantize one 0)))%float = true
  /\ List.length (medianCutQuantize three 2.5) = 3%nat
  /\ (2.5 <? number_of_nat (List.length (medianCutQuantize three 2.5)))%float = true.
Proof. vm_compute. repeat split; reflexivity. Qed.

(** ** The round trip through HSL *)

Module RoundTrip.
Import FloatOrder Staged.
Local Open Scope list_scope.
Local Open Scope float_scope.

Lemma SFeqb_key3 f1 f2 :
  f1 <> S754_nan -> f2 <> S754_nan ->
  SFeqb f1 f2 = true <-> key3 f1 = key3 f2.
Proof.
  intros H1 H2. unfold SFeqb, SFcompare.
  destruct f1 as [s1|s1| |s1 m1 e1], f2 as [s2|s2| |s2 m2 e2]; try congruence;
    try destruct s1; try destruct s2; simpl; try (split; [discriminate|congruence]);
    try (split; reflexivity).
  all: change (Pos.compare_cont Eq m1 m2) with (Pos.compare m1 m2).
  all: destruct (Z.compare_spec e1 e2); subst; simpl;
    try destruct (Pos.compare_spec m1 m2); simpl; split; try discriminate; try reflexivity;
    try congruence; intros E; injection E; intros; lia.
Qed.

Lemma ltb_eqb x y : (x <? y) = true -> (y =? x) = false /\ (y =? y) = true.
Proof.
  intros H. destruct (ltb_true_number _ _ H) as [Nx Ny].
  apply ltb_below in H; try assumption. unfold below in H.
  split.
  - destruct (y =? x) eqn:E; [|reflexivity]. exfalso.
    rewrite FloatAxioms.eqb_spec in E.
    apply SFeqb_key3 in E; try (apply is_nan_false; assumption).
    rewrite E in H. destruct (key3 (Prim2SF x)) as [[? ?] ?]. simpl in H. lia.
  - unfold is_nan in Ny. apply negb_false_iff in Ny. exact Ny.
Qed.

Lemma channel_ok_sound p q t okq okp raw :
  okq = within1 (Math_round (q * 255)) raw ->
  okp = within1 (Math_round (p * 255)) raw ->
  channel_ok p (q - p) t okq okp raw = true ->
  within1 (Math_round (hue2rgb p q t * 255)) raw = true.
Proof.
  intros -> ->. unfold channel_ok, hue2rgb.
  change (1 / 6) with c16. change (1 / 2) with c12. change (2 / 3) with c23.
  cbv zeta.
  set (t1 := if t <? 0 then t + 1 else t).
  set (t2 := if 1 <? t1 then t1 - 1 else t1).
  destruct (t2 <? c12) eqn:E12.
  - destruct (t2 <? c16); auto.
  - assert (E16 : (t2 <? c16) = false).
    { apply (ltb_neg_trans t2 c12 c16); [reflexivity|exact E12|reflexivity]. }
    rewrite E16. destruct (t2 <? c23); auto.
Qed.

Lemma rgbToHsl_colourful (c : RGB) :
  let r' := c.(r) / 255 in
  let g' := c.(g) / 255 in
  let b' := c.(b) / 255 in
  let max := Math_max3 r' g' b' in
  let min := Math_min3 r' g' b' in
  (max =? min) = false ->
  rgbToHsl c =
  {| h := Math_round (hue_raw r' g' b' max min * 360 * 10) / 10;
     s := Math_round ((if 0.5 <? (max + min) / 2 then (max - min) / (2 - max - min)
                       else (max - min) / (max + min)) * 100 * 10) / 10;
     l := Math_round ((max + min) / 2 * 100 * 10) / 10 |}.
Proof.
  intros r' g' b' max min H. unfold rgbToHsl. fold r' g' b'. fold max. fold min.
  cbv zeta. rewrite H. reflexivity.
Qed.

Lemma hslToRgb_colourful (x : HSL) :
  (x.(s) / 100 =? 0) = false ->
  let p := p_of (x.(s) / 100) (x.(l) / 100) in
  let q := q_of (x.(s) / 100) (x.(l) / 100) in
  hslToRgb x =
  {| r := Math_round (hue2rgb p q (x.(h) / 360 + c13) * 255);
     g := Math_round (hue2rgb p q (x.(h) / 360) * 255);
     b := Math_round (hue2rgb p q (x.(h) / 360 - c13) * 255) |}.
Proof.
  intros H p q. unfold hslToRgb. cbv zeta. rewrite H. reflexivity.
Qed.

Lemma roundtrip_staged (R G B fM fm h0 : float) (okr okg okb : float -> bool) :
  Math_max3 (R / 255) (G / 255) (B / 255) = fM ->
  Math_min3 (R / 255) (G / 255) (B / 255) = fm ->
  (fM =? fm) = false ->
  hue_raw (R / 255) (G / 255) (B / 255) fM fm = h0 ->
  (sat_of fM fm =? 0) = false ->
  let p := p_of (sat_of fM fm) (light_of fM fm) in
  let q := q_of (sat_of fM fm) (light_of fM fm) in
  (forall t, okr t = true -> within1 (Math_round (hue2rgb p q t * 255)) R = true) ->
  (forall t, okg t = true -> within1 (Math_round (hue2rgb p q t * 255)) G = true) ->
  (forall t, okb t = true -> within1 (Math_round (hue2rgb p q t * 255)) B = true) ->
  hue_ok okr okg okb h0 = true ->
  roundtrip_ok {| r := R; g := G; b := B |} = true.
Proof.
  intros Hmax Hmin Hne Hh Hs p q Hr Hg Hb H.
  unfold roundtrip_ok.
  rewrite rgbToHsl_colourful; cbn [r g b]; rewrite ?Hmax, ?Hmin; [|exact Hne].
  rewrite Hh. rewrite hslToRgb_colourful; [|exact Hs].
  cbn [r g b h s l].
  unfold hue_ok in H. cbv zeta in H.
  apply andb_true_iff in H as [H H3]. apply andb_true_iff in H as [H1 H2].
  apply Hr in H1. apply Hg in H2. apply Hb in H3.
  apply andb_true_iff. split; [apply andb_true_iff; split|]; assumption.
Qed.

(** The six colours with channels [Fm], [Fmid] and [FM], of strictly
    increasing quotients by 255. *)
Lemma check_pair_sound channels FM Fmid Fm :
  check_pair channels FM Fm = true -> In Fmid channels ->
  (Fm / 255 <? Fmid / 255) = true -> (Fmid / 255 <? FM / 255) = true ->
  roundtrip_ok {| r := FM; g := Fmid; b := Fm |} = true
  /\ roundtrip_ok {| r := FM; g := Fm; b := Fmid |} = true
  /\ roundtrip_ok {| r := Fmid; g := FM; b := Fm |} = true
  /\ roundtrip_ok {| r := Fm; g := FM; b := Fmid |} = true
  /\ roundtrip_ok {| r := Fmid; g := Fm; b := FM |} = true
  /\ roundtrip_ok {| r := Fm; g := Fmid; b := FM |} = true.
Proof.
  intros H Hin F1 F2.
  pose proof (ltb_trans _ _ _ F1 F2) as F3.
  pose proof (ltb_asym _ _ F1) as A1.
  pose proof (ltb_asym _ _ F2) as A2.
  pose proof (ltb_asym _ _ F3) as A3.
  destruct (ltb_eqb _ _ F2) as [E1 E0].
  destruct (ltb_eqb _ _ F3) as [E2 _].
  unfold check_pair in H. cbv zeta in H. rewrite F3 in H.
  destruct (sat_of (FM / 255) (Fm / 255) =? 0) eqn:Es; [discriminate|].
  rewrite forallb_forall in H. specialize (H Fmid Hin). cbv beta in H.
  rewrite F1, F2 in H. cbn [andb] in H.
  repeat rewrite andb_true_iff in H.
  destruct H as [[[[[H1 H2] H3] H4] H5] H6].
  repeat split.
  all: match goal with
       | Hk : hue_ok ?okr ?okg ?okb ?h0 = true |- roundtrip_ok {| r := ?R; g := ?G; b := ?B |} = true =>
           apply (roundtrip_staged R G B (FM / 255) (Fm / 255) h0 okr okg okb);
             [ unfold Math_max3, max2;
               repeat (first [rewrite F1|rewrite F2|rewrite F3|rewrite A1|rewrite A2|rewrite A3];
                       cbv iota); reflexivity
             | unfold Math_min3, min2;
               repeat (first [rewrite F1|rewrite F2|rewrite F3|rewrite A1|rewrite A2|rewrite A3];
                       cbv iota); reflexivity
             | exact E2
             | unfold hue_raw;
               repeat (first [rewrite E0|rewrite E1|rewrite E2|rewrite F1|rewrite A1]; cbv iota);
               reflexivity
             | exact Es
             | intros t Ht; apply channel_ok_sound in Ht; [exact Ht|reflexivity|reflexivity]
             | intros t Ht; apply channel_ok_sound in Ht; [exact Ht|reflexivity|reflexivity]
             | intros t Ht; apply channel_ok_sound in Ht; [exact Ht|reflexivity|reflexivity]
             | exact Hk ]
       end.
Qed.

Lemma channels_spec : channels = map number_of_nat (seq 0 256).
Proof. vm_compute. reflexivity. Qed.

Lemma in_channels n : (n <= 255)%nat -> In (number_of_nat n) channels.
Proof.
  intros H. rewrite channels_spec. apply in_map, in_seq. lia.
Qed.

Lemma all_pairs_spec f l x y :
  all_pairs f l = true -> In x l -> In y l -> f x y = true.
Proof.
  unfold all_pairs. intros H Hx Hy.
  rewrite forallb_forall in H. specialize (H x Hx).
  rewrite forallb_forall in H. exact (H y Hy).
Qed.

Lemma increasing_true : forallb increasing (seq 0 255) = true.
Proof. vm_compute. reflexivity. Qed.

Lemma scaled_increasing a b :
  (a < b)%nat -> (b <= 255)%nat -> (scaled a <? scaled b) = true.
Proof.
  assert (S : forall n, (n < 255)%nat -> (scaled n <? scaled (S n)) = true).
  { intros n Hn. apply (proj1 (forallb_forall increasing (seq 0 255)) increasing_true).
    apply in_seq. lia. }
  induction b as [|b IH]; intros Hab Hb; [lia|].
  destruct (Nat.eq_dec a b) as [->|Hne]; [apply S; lia|].
  apply ltb_trans with (scaled b); [apply IH; lia|apply S; lia].
Qed.

(** All colours with three distinct channels, by evaluation. *)
Lemma distinct_true : all_pairs (check_pair channels) channels = true.
Proof. vm_compute. reflexivity. Qed.

(** All colours with two equal channels, by evaluation. *)
Lemma two_equal_true : all_pairs two_equal channels = true.
Proof. vm_compute. reflexivity. Qed.

Lemma distinct_channels a b c :
  (a < b)%nat -> (b < c)%nat -> (c <= 255)%nat ->
  roundtrip_ok (rgb_of c b a) = true
  /\ roundtrip_ok (rgb_of c a b) = true
  /\ roundtrip_ok (rgb_of b c a) = true
  /\ roundtrip_ok (rgb_of a c b) = true
  /\ roundtrip_ok (rgb_of b a c) = true
  /\ roundtrip_ok (rgb_of a b c) = true.
Proof.
  intros Hab Hbc Hc.
  assert (Ia : In (number_of_nat a) channels) by (apply in_channels; lia).
  assert (Ib : In (number_of_nat b) channels) by (apply in_channels; lia).
  assert (Ic : In (number_of_nat c) channels) by (apply in_channels; lia).
  exact (check_pair_sound channels (number_of_nat c) (number_of_nat b)
           (number_of_nat a)
           (all_pairs_spec _ _ _ _ distinct_true Ic Ia) Ib
           (scaled_increasing a b Hab ltac:(lia))
           (scaled_increasing b c Hbc Hc)).
Qed.

Lemma equal_channels a b :
  (a <= 255)%nat -> (b <= 255)%nat ->
  roundtrip_ok (rgb_of a a b) = true
  /\ roundtrip_ok (rgb_of a b a) = true
  /\ roundtrip_ok (rgb_of b a a) = true.
Proof.
  intros Ha Hb.
  pose proof (all_pairs_spec _ _ _ _ two_equal_true
                (in_channels a Ha) (in_channels b Hb)) as H.
  apply andb_true_iff in H. destruct H as [H H3].
  apply andb_true_iff in H. destruct H as [H1 H2].
  split; [exact H1|]. split; [exact H2|exact H3].
Qed.

Lemma roundtrip_all (R G B : nat) :
  (R <= 255)%nat -> (G <= 255)%nat -> (B <= 255)%nat ->
  roundtrip_ok (rgb_of R G B) = true.
Proof.
  intros HR HG HB.
  destruct (Nat.eq_dec R G) as [E|NRG].
  { rewrite E. exact (proj1 (equal_channels G B HG HB)). }
  destruct (Nat.eq_dec G B) as [E|NGB].
  { rewrite <- E. exact (proj2 (proj2 (equal_channels G R HG HR))). }
  destruct (Nat.eq_dec R B) as [E|NRB].
  { rewrite <- E. exact (proj1 (proj2 (equal_channels R G HR HG))). }
  destruct (lt_dec R G) as [RG|RG], (lt_dec G B) as [GB|GB], (lt_dec R B) as [RB|RB].
  - exact (proj2 (proj2 (proj2 (proj2 (proj2
      (distinct_channels R G B RG GB HB)))))).
  - exfalso; lia.
  - assert (L1 : (R < B)%nat) by lia. assert (L2 : (B < G)%nat) by lia.
    exact (proj1 (proj2 (proj2 (proj2 (distinct_channels R B G L1 L2 HG))))).
  - assert (L1 : (B < R)%nat) by lia.
    exact (proj1 (proj2 (proj2 (distinct_channels B R G L1 RG HG)))).
  - assert (L1 : (G < R)%nat) by lia.
    exact (proj1 (proj2 (proj2 (proj2 (proj2
      (distinct_channels G R B L1 RB HB)))))).
  - assert (L1 : (B < R)%nat) by lia.
    exact (proj1 (proj2 (distinct_channels G B R GB L1 HR))).
  - exfalso; lia.
  - assert (L1 : (B < G)%nat) by lia. assert (L2 : (G < R)%nat) by lia.
    exact (proj1 (distinct_channels B G R L1 L2 HR)).
Qed.

(** C8: for every RGB value with each channel an integer from 0 to 255,
    [hslToRgb (rgbToHsl rgb)] has each channel within 1 of the original
    channel. *)
Theorem roundtrip_within_one (R G B : nat) :
  (R <= 255)%nat -> (G <= 255)%nat -> (B <= 255)%nat ->
  within1 (hslToRgb (rgbToHsl (rgb_of R G B))).(r) (number_of_nat R) = true
  /\ within1 (hslToRgb (rgbToHsl (rgb_of R G B))).(g) (number_of_nat G) = true
  /\ within1 (hslToRgb (rgbToHsl (rgb_of R G B))).(b) (number_of_nat B) = true.
Proof.
  intros HR HG HB.
  pose proof (roundtrip_all R G B HR HG HB) as H.
  unfold roundtrip_ok in H. cbv zeta in H.
  apply andb_true_iff in H. destruct H as [H H3].
  apply andb_true_iff in H. destruct H as [H1 H2].
  split; [exact H1|]. split; [exact H2|exact H3].
Qed.

(** A blue: red 26, green 115, blue 232. *)
Lemma roundtrip_within_one_example :
  within1 (hslToRgb (rgbToHsl (rgb_of 26 115 232))).(r) (number_of_nat 26) = true
  /\ within1 (hslToRgb (rgbToHsl (rgb_of 26 115 232))).(g) (number_of_nat 115) = true
  /\ within1 (hslToRgb (rgbToHsl (rgb_of 26 115 232))).(b) (number_of_nat 232) = true.
Proof.
  apply (roundtrip_within_one 26 115 232); lia.
Defined.

End RoundTrip.

(** * Further properties *)

Import Staged Api SelectionDefs HexDefs TextDefs InputDefs OrderDefs RangeDefs QuantizeDefs
       CssDefs SignDefs.

(** ** Numbers *)

Module FloatFacts.
Import FloatOrder.
Local Open Scope float_scope.

Lemma ltb_nan_r x : (x <? nan) = false.
Proof.
  rewrite FloatAxioms.ltb_spec. unfold SFltb.
  change (Prim2SF nan) with S754_nan.
  destruct (Prim2SF x); reflexivity.
Qed.

Lemma ltb_nan_l x : (nan <? x) = false.
Proof.
  rewrite FloatAxioms.ltb_spec. reflexivity.
Qed.

Lemma ltb_refl_false x : (x <? x) = false.
Proof.
  destruct (x <? x) eqn:E; [|reflexivity].
  pose proof (ltb_asym _ _ E). congruence.
Qed.

(** [Math.min(x, c)] is never above [c], [Math.max(x, c)] never below. *)
Lemma min2_not_above x c : (c <? min2 x c) = false.
Proof.
  unfold min2. destruct (x <? c) eqn:E1; [apply ltb_asym; exact E1|].
  destruct (c <? x) eqn:E2; [apply ltb_refl_false|].
  destruct (x =? c); [|apply ltb_nan_r].
  destruct (get_sign x); [exact E2|apply ltb_refl_false].
Qed.

Lemma max2_not_below x c : (max2 x c <? c) = false.
Proof.
  unfold max2. destruct (x <? c) eqn:E1; [apply ltb_refl_false|].
  destruct (c <? x) eqn:E2; [exact E1|].
  destruct (x =? c); [|apply ltb_nan_l].
  destruct (get_sign x); [apply ltb_refl_false|exact E1].
Qed.
End FloatFacts.

Module Selection.
Import FloatOrder FloatFacts SortFacts.
Local Open Scope list_scope.
Local Open Scope float_scope.

(** X20: [muteColor] keeps the hue; the saturation it gives is never above
    15, and the lightness never below 95 in light mode and never above 15 in
    dark mode. *)
Theorem muteColor_bounds (c : HSL) :
  ((muteColor c true).(h) = c.(h)
   /\ (15 <? (muteColor c true).(s)) = false
   /\ ((muteColor c true).(l) <? 95) = false)
  /\ ((muteColor c false).(h) = c.(h)
      /\ (15 <? (muteColor c false).(s)) = false
      /\ (15 <? (muteColor c false).(l)) = false).
Proof.
  unfold muteColor. cbn [h s l].
  repeat split; first [apply min2_not_above | apply max2_not_below].
Qed.

(** X21: [generateBorderColor] keeps the hue; the saturation it gives is
    never above 40, and the lightness never below 85 in light mode and never
    above 25 in dark mode. *)
Theorem generateBorderColor_bounds (c : HSL) :
  ((generateBorderColor c true).(h) = c.(h)
   /\ (40 <? (generateBorderColor c true).(s)) = false
   /\ ((generateBorderColor c true).(l) <? 85) = false)
  /\ ((generateBorderColor c false).(h) = c.(h)
      /\ (40 <? (generateBorderColor c false).(s)) = false
      /\ (25 <? (generateBorderColor c false).(l)) = false).
Proof.
  unfold generateBorderColor. cbn [h s l].
  repeat split; first [apply min2_not_above | apply max2_not_below].
Qed.

Lemma findAccentColor_candidates colors primaryHue :
  findAccentColor colors primaryHue
  = hd_error (sort byFrequency (filter (accentCandidate primaryHue) colors)).
Proof.
  unfold findAccentColor. f_equal. f_equal.
  apply filter_ext. intros c. unfold accentCandidate, hueDistance.
  destruct (c.(hsl).(s) <? 25); [reflexivity|].
  destruct ((c.(hsl).(l) <? 20) || (80 <? c.(hsl).(l))); reflexivity.
Qed.

(** X19: the accent returned by [findAccentColor] is a colour of the input
    of saturation not below 25, lightness not below 20 and not above 80, and
    hue more than 60 degrees from the primary hue around the circle, and no
    such colour is more frequent; none is returned only when there is no
    such colour. *)
Theorem accent_selection (colors : list ColorWithFrequency) (primaryHue : float) :
  forallb (fun c => negb (is_nan c.(frequency))) colors = true ->
  match findAccentColor colors primaryHue with
  | Some c =>
      In c colors
      /\ (c.(hsl).(s) <? 25) = false
      /\ (c.(hsl).(l) <? 20) = false /\ (80 <? c.(hsl).(l)) = false
      /\ (60 <? hueDistance c.(hsl).(h) primaryHue) = true
      /\ forall c', In c' colors -> accentCandidate primaryHue c' = true ->
           (c.(frequency) <? c'.(frequency)) = false
  | None => forall c, In c colors -> accentCandidate primaryHue c = false
  end.
Proof.
  intros Hnan. rewrite findAccentColor_candidates.
  set (cands := filter (accentCandidate primaryHue) colors).
  destruct (sort byFrequency cands) as [|c t] eqn:E; cbn [hd_error].
  - intros c Hc. destruct (accentCandidate primaryHue c) eqn:Ec; [|reflexivity].
    assert (Hin : In c (sort byFrequency cands)).
    { apply sort_by_in. apply filter_In. split; assumption. }
    rewrite E in Hin. destruct Hin.
  - assert (Hin : In c cands).
    { apply (sort_by_in (fun a b => 0 <? byFrequency a b)). unfold sort in E.
      rewrite E. left. reflexivity. }
    apply filter_In in Hin. destruct Hin as [Hin Hc].
    unfold accentCandidate in Hc.
    apply andb_true_iff in Hc. destruct Hc as [Hc H3].
    apply andb_true_iff in Hc. destruct Hc as [H1 H2].
    apply negb_true_iff in H1. apply negb_true_iff in H2.
    apply orb_false_iff in H2. destruct H2 as [H2 H2'].
    repeat (split; [assumption|]).
    intros c' Hc' Hcand.
    apply (sort_descending_head frequency cands c t).
    + apply forallb_forall. intros x Hx. apply filter_In in Hx.
      rewrite forallb_forall in Hnan. apply Hnan. apply Hx.
    + exact E.
    + apply filter_In. split; assumption.
Qed.


(** Red, blue twice and green: the accent for a red primary is the blue. *)
Lemma accent_selection_example :
  option_map hex (findAccentColor (colorMap ["#ff0000"; "#0000ff"; "#00ff00"; "#0000ff"]) 0)
  = Some "#0000ff"
  /\ match findAccentColor (colorMap ["#ff0000"; "#0000ff"; "#00ff00"; "#0000ff"]) 0 with
     | Some c =>
         In c (colorMap ["#ff0000"; "#0000ff"; "#00ff00"; "#0000ff"])
         /\ (c.(hsl).(s) <? 25) = false
         /\ (c.(hsl).(l) <? 20) = false /\ (80 <? c.(hsl).(l)) = false
         /\ (60 <? hueDistance c.(hsl).(h) 0) = true
         /\ forall c', In c' (colorMap ["#ff0000"; "#0000ff"; "#00ff00"; "#0000ff"]) ->
              accentCandidate 0 c' = true -> (c.(frequency) <? c'.(frequency)) = false
     | None =>
         forall c, In c (colorMap ["#ff0000"; "#0000ff"; "#00ff00"; "#0000ff"]) ->
           accentCandidate 0 c = false
     end.
Proof.
  split; [vm_compute; reflexivity|].
  apply (accent_selection (colorMap ["#ff0000"; "#0000ff"; "#00ff00"; "#0000ff"]) 0).
  vm_compute. reflexivity.
Defined.

(** *** The primary colour *)

Lemma push_not_empty key c groups : push key c groups <> [].
Proof.
  destruct groups as [|[k cs] groups]; simpl; [discriminate|].
  destruct (sameValueZero k key); discriminate.
Qed.

Lemma group_step_skipped groups c :
  group_step groups c = if skipped c then groups else push (hueBucket c) c groups.
Proof.
  unfold group_step, skipped.
  destruct (c.(hsl).(s) <? 15); [reflexivity|].
  destruct (c.(hsl).(l) <? 15); [reflexivity|].
  destruct (90 <? c.(hsl).(l)); reflexivity.
Qed.

Lemma group_fold_not_empty cols : forall groups,
  groups <> [] -> fold_left group_step cols groups <> [].
Proof.
  induction cols as [|c cols IH]; intros groups H; [exact H|].
  simpl. apply IH. rewrite group_step_skipped.
  destruct (skipped c); [exact H|apply push_not_empty].
Qed.

Lemma groupColorsByHue_empty colors :
  groupColorsByHue colors = [] <-> forallb skipped colors = true.
Proof.
  change (groupColorsByHue colors) with (fold_left group_step colors []).
  induction colors as [|c colors IH]; [split; reflexivity|].
  simpl. rewrite group_step_skipped. destruct (skipped c); simpl.
  - exact IH.
  - split; [|discriminate]. intros E. exfalso.
    revert E. apply group_fold_not_empty. discriminate.
Qed.

(** A colour that the grouping leaves out is no candidate of the fallback. *)
Lemma skipped_no_fallback c :
  skipped c = true ->
  (20 <? c.(hsl).(s)) && (15 <? c.(hsl).(l)) && (c.(hsl).(l) <? 85) = false.
Proof.
  unfold skipped. intros H.
  apply orb_true_iff in H. destruct H as [H|H];
    [apply orb_true_iff in H; destruct H as [H|H]|].
  - destruct (20 <? c.(hsl).(s)) eqn:E; [|reflexivity].
    pose proof (ltb_trans _ _ _ E H) as F. discriminate F.
  - rewrite (ltb_asym _ _ H). rewrite andb_false_r. reflexivity.
  - destruct (c.(hsl).(l) <? 85) eqn:E; [|apply andb_false_r].
    pose proof (ltb_trans _ _ _ H E) as F. discriminate F.
Qed.

(** X17: [findPrimaryColor] returns no colour exactly when the grouping by
    hue leaves every colour out (saturation below 15, lightness below 15 or
    above 90); the fallback filter never finds a candidate then. *)
Theorem findPrimaryColor_none (colors : list ColorWithFrequency) :
  findPrimaryColor colors = None <-> forallb skipped colors = true.
Proof.
  rewrite <- groupColorsByHue_empty. unfold findPrimaryColor.
  pose proof (Primary.groupColorsByHue_well_grouped colors) as W.
  pose proof (Primary.bestGroup_first (groupColorsByHue colors)) as K.
  destruct (groupColorsByHue colors) as [|g gs] eqn:E.
  - split; [reflexivity|]. intros _.
    apply groupColorsByHue_empty in E. rewrite forallb_forall in E.
    assert (F : filter (fun c => (20 <? c.(hsl).(s)) && (15 <? c.(hsl).(l)) && (c.(hsl).(l) <? 85))
                       colors = []).
    { clear W K. induction colors as [|c colors IH]; [reflexivity|].
      simpl. rewrite skipped_no_fallback by (apply E; left; reflexivity).
      apply IH. intros x Hx. apply E. right. exact Hx. }
    rewrite F. reflexivity.
  - split; [|discriminate]. intros H. exfalso.
    destruct (bestGroup (g :: gs)) as [best|]; [|discriminate K].
    destruct K as (_ & before & after & Es & _).
    assert (Kin : In (best.(group_hue), best.(group_colors)) (g :: gs)).
    { rewrite Es. apply in_or_app. right. left. reflexivity. }
    destruct (W _ _ Kin) as [Hne _].
    destruct best.(group_colors) as [|c cs] eqn:Eb; [apply Hne; reflexivity|].
    assert (Hin : In c (sort (fun a b => colorScore b - colorScore a) (c :: cs))).
    { apply sort_by_in. left. reflexivity. }
    destruct (sort (fun a b => colorScore b - colorScore a) (c :: cs)); [destruct Hin|discriminate H].
Qed.
End Selection.

(** ** Hex colours *)

Module Hex.
Import FloatOrder.
Local Open Scope list_scope.

Lemma mem_In c l : mem c l = true -> In c l.
Proof.
  unfold mem. intros H. apply existsb_exists in H. destruct H as (x & Hx & E).
  apply Ascii.eqb_eq in E. subst. exact Hx.
Qed.

Lemma all_ascii_complete c : In c all_ascii.
Proof.
  unfold all_ascii. rewrite <- (ascii_nat_embedding c). apply in_map, in_seq.
  pose proof (nat_ascii_bounded c). lia.
Qed.

Lemma for_all_ascii (P : ascii -> bool) :
  forallb P all_ascii = true -> forall c, P c = true.
Proof.
  intros H c. rewrite forallb_forall in H. apply H, all_ascii_complete.
Qed.

Lemma lowerHex_plain c :
  In c lowerHex ->
  is_space c = false /\ lower_char c = c /\ is_hex_digit c = true /\ c <> "#"%char.
Proof.
  intros H. unfold lowerHex in H. cbn in H.
  repeat (destruct H as [<-|H]; [repeat split; discriminate|]). destruct H.
Qed.

Lemma channels_written : forallb channel_written (seq 0 256) = true.
Proof. vm_compute. reflexivity. Qed.

Lemma channel_written_spec n :
  (n <= 255)%nat ->
  exists hi lo,
    hexPair (number_of_nat n) = [hi; lo]
    /\ hexPairRounded (number_of_nat n) = [hi; lo]
    /\ In hi lowerHex /\ In lo lowerHex
    /\ parseInt 16 [hi; lo] = number_of_nat n.
Proof.
  intros Hn. pose proof channels_written as H. rewrite forallb_forall in H.
  specialize (H n). unfold channel_written in H.
  assert (Hin : In n (seq 0 256)) by (apply in_seq; lia). specialize (H Hin).
  destruct (hexPair (number_of_nat n)) as [|hi [|lo [|]]] eqn:E; try discriminate.
  exists hi, lo.
  repeat rewrite andb_true_iff in H. destruct H as [[[H1 H2] H3] H4].
  apply Leibniz.eqb_spec in H3. apply String.eqb_eq in H4.
  apply (f_equal chars) in H4. unfold str, chars in H4.
  rewrite !list_ascii_of_string_of_list_ascii in H4.
  repeat split; auto using mem_In.
Qed.


Lemma hexToRgb_six a b c d e f :
  In a lowerHex -> In b lowerHex -> In c lowerHex ->
  In d lowerHex -> In e lowerHex -> In f lowerHex ->
  hexToRgb ("#"%char :: [a; b; c; d; e; f])
  = Some {| r := parseInt 16 [a; b]; g := parseInt 16 [c; d]; b := parseInt 16 [e; f] |}.
Proof.
  intros Ha Hb Hc Hd He Hf.
  destruct (lowerHex_plain _ Ha) as (_ & _ & Xa & _).
  destruct (lowerHex_plain _ Hb) as (_ & _ & Xb & _).
  destruct (lowerHex_plain _ Hc) as (_ & _ & Xc & _).
  destruct (lowerHex_plain _ Hd) as (_ & _ & Xd & _).
  destruct (lowerHex_plain _ He) as (_ & _ & Xe & _).
  destruct (lowerHex_plain _ Hf) as (_ & _ & Xf & _).
  unfold hexToRgb. cbn [opt_char Ascii.eqb Bool.eqb forallb].
  rewrite Xa, Xb, Xc, Xd, Xe, Xf. reflexivity.
Qed.

Lemma parseColor_six a b c d e f :
  In a lowerHex -> In b lowerHex -> In c lowerHex ->
  In d lowerHex -> In e lowerHex -> In f lowerHex ->
  parseColor (str ("#"%char :: [a; b; c; d; e; f]))
  = hexToRgb ("#"%char :: [a; b; c; d; e; f]).
Proof.
  intros Ha Hb Hc Hd He Hf.
  destruct (lowerHex_plain _ Ha) as (_ & La & _ & _).
  destruct (lowerHex_plain _ Hb) as (_ & Lb & _ & _).
  destruct (lowerHex_plain _ Hc) as (_ & Lc & _ & _).
  destruct (lowerHex_plain _ Hd) as (_ & Ld & _ & _).
  destruct (lowerHex_plain _ He) as (_ & Le & _ & _).
  destruct (lowerHex_plain _ Hf) as (Sf & Lf & _ & _).
  unfold parseColor, chars, str. rewrite list_ascii_of_string_of_list_ascii.
  unfold trim. cbn [trimStart is_space]. 
  change (is_space "#"%char) with false. cbv iota.
  cbn [rev app]. cbn [trimStart]. rewrite Sf. cbn [rev app].
  unfold toLowerCase. cbn [map]. rewrite La, Lb, Lc, Ld, Le, Lf.
  reflexivity.
Qed.


Lemma hexOf_pairs c : hexOf c = str ("#"%char :: hexPair c.(r) ++ hexPair c.(g) ++ hexPair c.(b)).
Proof. reflexivity. Qed.

Lemma rgbToHex_pairs c :
  rgbToHex c
  = str ("#"%char :: hexPairRounded c.(r) ++ hexPairRounded c.(g) ++ hexPairRounded c.(b)).
Proof. reflexivity. Qed.

Lemma parse_hexOf (R G B : nat) :
  (R <= 255)%nat -> (G <= 255)%nat -> (B <= 255)%nat ->
  parseColor (hexOf (rgb_of R G B)) = Some (rgb_of R G B).
Proof.
  intros HR HG HB.
  destruct (channel_written_spec R HR) as (r1 & r2 & Er & _ & Hr1 & Hr2 & Pr).
  destruct (channel_written_spec G HG) as (g1 & g2 & Eg & _ & Hg1 & Hg2 & Pg).
  destruct (channel_written_spec B HB) as (b1 & b2 & Eb & _ & Hb1 & Hb2 & Pb).
  rewrite hexOf_pairs. unfold rgb_of. cbn [r g b].
  rewrite Er, Eg, Eb. cbn [app].
  rewrite parseColor_six by assumption. rewrite hexToRgb_six by assumption.
  rewrite Pr, Pg, Pb. reflexivity.
Qed.

(** X5: for channels from 0 to 255, [rgbToHex] writes the key that
    [generateTheme] writes for the colour, and [hexToRgb] reads the colour
    back from it. *)
Theorem rgbToHex_round_trip (R G B : nat) :
  (R <= 255)%nat -> (G <= 255)%nat -> (B <= 255)%nat ->
  rgbToHex (rgb_of R G B) = hexOf (rgb_of R G B)
  /\ hexToRgb (chars (rgbToHex (rgb_of R G B))) = Some (rgb_of R G B).
Proof.
  intros HR HG HB.
  destruct (channel_written_spec R HR) as (r1 & r2 & Er & Er' & Hr1 & Hr2 & Pr).
  destruct (channel_written_spec G HG) as (g1 & g2 & Eg & Eg' & Hg1 & Hg2 & Pg).
  destruct (channel_written_spec B HB) as (b1 & b2 & Eb & Eb' & Hb1 & Hb2 & Pb).
  rewrite hexOf_pairs, rgbToHex_pairs. unfold rgb_of. cbn [r g b].
  rewrite Er, Eg, Eb, Er', Eg', Eb'. split; [reflexivity|].
  unfold chars, str. rewrite list_ascii_of_string_of_list_ascii. cbn [app].
  rewrite hexToRgb_six by assumption.
  rewrite Pr, Pg, Pb. reflexivity.
Qed.


Lemma rgbToHex_round_trip_example :
  rgbToHex (rgb_of 255 165 0) = hexOf (rgb_of 255 165 0)
  /\ hexToRgb (chars (rgbToHex (rgb_of 255 165 0))) = Some (rgb_of 255 165 0).
Proof. apply (rgbToHex_round_trip 255 165 0); lia. Defined.


(** *** [hexToRgb] *)

Lemma lower_char_plain_all : forallb lower_char_plain all_ascii = true.
Proof. vm_compute. reflexivity. Qed.

Lemma lower_char_facts c :
  is_hex_digit (lower_char c) = is_hex_digit c
  /\ is_space (lower_char c) = is_space c
  /\ is_digit (lower_char c) = is_digit c
  /\ Ascii.eqb "#" (lower_char c) = Ascii.eqb "#" c
  /\ (is_hex_digit c = true -> digit_value (lower_char c) = digit_value c)
  /\ (is_space c || is_digit c = true -> lower_char c = c).
Proof.
  pose proof (for_all_ascii _ lower_char_plain_all c) as H.
  unfold lower_char_plain in H. repeat rewrite andb_true_iff in H.
  destruct H as [[[[[H1 H2] H3] H4] H5] H6].
  apply Bool.eqb_prop in H1, H2, H3, H4.
  repeat split; try assumption.
  - intros E. rewrite E in H5. apply Z.eqb_eq. exact H5.
  - intros E. rewrite E in H6. apply Ascii.eqb_eq. exact H6.
Qed.

Lemma pairs_read :
  forallb (fun hi =>
    if is_hex_digit hi
    then forallb (fun lo => if is_hex_digit lo then pair_read hi lo else true) all_ascii
    else true) all_ascii = true.
Proof. vm_compute. reflexivity. Qed.

Lemma pair_read_spec hi lo :
  is_hex_digit hi = true -> is_hex_digit lo = true ->
  exists n, (n <= 255)%nat /\ parseInt 16 [hi; lo] = number_of_nat n.
Proof.
  intros Hh Hl. pose proof pairs_read as H.
  rewrite forallb_forall in H. specialize (H hi (all_ascii_complete hi)).
  cbv beta in H. rewrite Hh in H.
  rewrite forallb_forall in H. specialize (H lo (all_ascii_complete lo)).
  cbv beta in H. rewrite Hl in H.
  unfold pair_read in H. cbv zeta in H. repeat rewrite andb_true_iff in H.
  destruct H as [[H1 H2] H3].
  exists (Z.to_nat (Z_of_digits 16 [hi; lo])). split.
  - apply Z.leb_le in H1, H2. lia.
  - apply Leibniz.eqb_spec. exact H3.
Qed.

Lemma hexToRgb_body hex : hexToRgb hex = hexBody (opt_char "#" hex).
Proof. reflexivity. Qed.

Lemma hexBody_digits ds :
  forallb is_hex_digit ds = true ->
  List.length ds = 3%nat \/ List.length ds = 6%nat ->
  exists R G B, (R <= 255)%nat /\ (G <= 255)%nat /\ (B <= 255)%nat
                /\ hexBody ds = Some (rgb_of R G B).
Proof.
  intros E L. unfold hexBody. rewrite E.
  destruct ds as [|c1 [|c2 [|c3 [|c4 [|c5 [|c6 [|c7 tl]]]]]]];
    try (exfalso; cbn in L; lia);
    cbn [forallb] in E; repeat rewrite andb_true_iff in E.
  - destruct E as (E1 & E2 & E3 & _).
    destruct (pair_read_spec c1 c1 E1 E1) as (R & HR & ER).
    destruct (pair_read_spec c2 c2 E2 E2) as (G & HG & EG).
    destruct (pair_read_spec c3 c3 E3 E3) as (B & HB & EB).
    exists R, G, B. rewrite ER, EG, EB. auto.
  - destruct E as (E1 & E2 & E3 & E4 & E5 & E6 & _).
    destruct (pair_read_spec c1 c2 E1 E2) as (R & HR & ER).
    destruct (pair_read_spec c3 c4 E3 E4) as (G & HG & EG).
    destruct (pair_read_spec c5 c6 E5 E6) as (B & HB & EB).
    exists R, G, B. rewrite ER, EG, EB. auto.
Qed.

(** X3: what [hexToRgb] accepts is three or six hex digits after an
    optional [#], and what it returns then are integer channels from 0 to
    255. *)
Theorem hexToRgb_channels (hex : list ascii) (c : RGB) :
  hexToRgb hex = Some c ->
  (List.length (opt_char "#" hex) = 3%nat \/ List.length (opt_char "#" hex) = 6%nat)
  /\ forallb is_hex_digit (opt_char "#" hex) = true
  /\ exists R G B, (R <= 255)%nat /\ (G <= 255)%nat /\ (B <= 255)%nat /\ c = rgb_of R G B.
Proof.
  rewrite hexToRgb_body. unfold hexBody.
  destruct (forallb is_hex_digit (opt_char "#" hex)) eqn:E; [|discriminate].
  destruct (opt_char "#" hex) as [|c1 [|c2 [|c3 [|c4 [|c5 [|c6 [|c7 tl]]]]]]];
    try discriminate; intros H; injection H as <-;
    cbn [forallb] in E; repeat rewrite andb_true_iff in E.
  - destruct E as (E1 & E2 & E3 & _).
    split; [left; reflexivity|]. split; [reflexivity|].
    destruct (pair_read_spec c1 c1 E1 E1) as (R & HR & ER).
    destruct (pair_read_spec c2 c2 E2 E2) as (G & HG & EG).
    destruct (pair_read_spec c3 c3 E3 E3) as (B & HB & EB).
    exists R, G, B. rewrite ER, EG, EB. auto.
  - destruct E as (E1 & E2 & E3 & E4 & E5 & E6 & _).
    split; [right; reflexivity|]. split; [reflexivity|].
    destruct (pair_read_spec c1 c2 E1 E2) as (R & HR & ER).
    destruct (pair_read_spec c3 c4 E3 E4) as (G & HG & EG).
    destruct (pair_read_spec c5 c6 E5 E6) as (B & HB & EB).
    exists R, G, B. rewrite ER, EG, EB. auto.
Qed.

Lemma hexToRgb_channels_example :
  hexToRgb (chars "#FfA500") = Some (rgb_of 255 165 0)
  /\ (List.length (opt_char "#" (chars "#FfA500")) = 3%nat
      \/ List.length (opt_char "#" (chars "#FfA500")) = 6%nat)
  /\ forallb is_hex_digit (opt_char "#" (chars "#FfA500")) = true
  /\ exists R G B, (R <= 255)%nat /\ (G <= 255)%nat /\ (B <= 255)%nat
                   /\ rgb_of 255 165 0 = rgb_of R G B.
Proof.
  assert (E : hexToRgb (chars "#FfA500") = Some (rgb_of 255 165 0))
    by (vm_compute; reflexivity).
  split; [exact E|]. exact (hexToRgb_channels _ _ E).
Defined.

Lemma forallb_lower body :
  forallb is_hex_digit (map lower_char body) = forallb is_hex_digit body.
Proof.
  induction body as [|c body IH]; [reflexivity|].
  cbn [map forallb]. rewrite IH. f_equal. apply lower_char_facts.
Qed.

Lemma parseInt16_lower a b :
  is_hex_digit a = true -> is_hex_digit b = true ->
  parseInt 16 [lower_char a; lower_char b] = parseInt 16 [a; b].
Proof.
  intros Ha Hb. unfold parseInt, Z_of_digits. cbn [fold_left].
  destruct (lower_char_facts a) as (_ & _ & _ & _ & Da & _).
  destruct (lower_char_facts b) as (_ & _ & _ & _ & Db & _).
  rewrite Da, Db by assumption. reflexivity.
Qed.

Lemma hexBody_lower body : hexBody (map lower_char body) = hexBody body.
Proof.
  unfold hexBody. rewrite forallb_lower.
  destruct (forallb is_hex_digit body) eqn:E; [|reflexivity].
  destruct body as [|c1 [|c2 [|c3 [|c4 [|c5 [|c6 [|c7 tl]]]]]]]; try reflexivity;
    cbn [forallb] in E; repeat rewrite andb_true_iff in E; cbn [map].
  - destruct E as (E1 & E2 & E3 & _).
    rewrite !parseInt16_lower by assumption. reflexivity.
  - destruct E as (E1 & E2 & E3 & E4 & E5 & E6 & _).
    rewrite !parseInt16_lower by assumption. reflexivity.
Qed.

(** X4: [hexToRgb] reads upper-case and lower-case digits alike, and the
    short form [#abc] as [#aabbcc]. *)
Theorem hexToRgb_forms :
  (forall hex, hexToRgb (toLowerCase hex) = hexToRgb hex)
  /\ (forall a b c, hexToRgb ["#"%char; a; b; c] = hexToRgb ["#"%char; a; a; b; b; c; c]).
Proof.
  split.
  - intros hex. rewrite !hexToRgb_body.
    destruct hex as [|c0 hex]; [reflexivity|].
    unfold toLowerCase. cbn [map opt_char].
    destruct (lower_char_facts c0) as (_ & _ & _ & E & _). rewrite E.
    destruct (Ascii.eqb "#" c0); [apply hexBody_lower|].
    apply (hexBody_lower (c0 :: hex)).
  - intros a b c. unfold hexToRgb. cbn [opt_char Ascii.eqb Bool.eqb forallb].
    destruct (is_hex_digit a), (is_hex_digit b), (is_hex_digit c); reflexivity.
Qed.
End Hex.

(** ** Colour texts *)

Module Parse.
Import Hex.
Local Open Scope list_scope.

Lemma trimStart_spaces ws l : forallb is_space ws = true -> trimStart (ws ++ l) = trimStart l.
Proof.
  induction ws as [|c ws IH]; intros H; [reflexivity|].
  cbn [forallb] in H. apply andb_true_iff in H. destruct H as [Hc H].
  cbn [app trimStart]. rewrite Hc. apply IH, H.
Qed.

Lemma trimStart_all_spaces ws : forallb is_space ws = true -> trimStart ws = [].
Proof.
  intros H. rewrite <- (app_nil_r ws). rewrite trimStart_spaces by exact H. reflexivity.
Qed.

Lemma trimStart_head c l : is_space c = false -> trimStart (c :: l) = c :: l.
Proof. intros H. cbn [trimStart]. rewrite H. reflexivity. Qed.

Lemma trimStart_cases l :
  (forallb is_space l = true /\ trimStart l = [])
  \/ exists c l', is_space c = false /\ trimStart l = c :: l'
                  /\ forall x, trimStart (l ++ x) = c :: l' ++ x.
Proof.
  induction l as [|c l IH]; [left; split; reflexivity|].
  cbn [trimStart forallb]. destruct (is_space c) eqn:E.
  - destruct IH as [[H1 H2]|(c' & l' & H1 & H2 & H3)].
    + left. split; assumption.
    + right. exists c', l'. split; [exact H1|]. split; [exact H2|].
      intros x. cbn [app trimStart]. rewrite E. apply H3.
  - right. exists c, l. split; [exact E|]. split; [reflexivity|].
    intros x. cbn [app trimStart]. rewrite E. reflexivity.
Qed.

Lemma trim_spaces ws1 l ws2 :
  forallb is_space ws1 = true -> forallb is_space ws2 = true ->
  trim (ws1 ++ l ++ ws2) = trim l.
Proof.
  intros H1 H2. unfold trim. rewrite trimStart_spaces by exact H1.
  assert (R : forallb is_space (rev ws2) = true).
  { apply forallb_forall. intros x Hx. apply in_rev in Hx.
    rewrite forallb_forall in H2. apply H2, Hx. }
  destruct (trimStart_cases l) as [[A B]|(c & l' & A & B & C)].
  - rewrite B. rewrite (trimStart_all_spaces (l ++ ws2)); [reflexivity|].
    apply forallb_forall. intros x Hx. apply in_app_or in Hx.
    rewrite forallb_forall in A, H2. destruct Hx; auto.
  - rewrite C, B. rewrite app_comm_cons, rev_app_distr.
    rewrite trimStart_spaces by exact R. reflexivity.
Qed.

Lemma is_space_lower l : forallb is_space (map lower_char l) = forallb is_space l.
Proof.
  induction l as [|c l IH]; [reflexivity|]. cbn [map forallb]. rewrite IH.
  f_equal. apply lower_char_facts.
Qed.

Lemma trimStart_lower l : trimStart (map lower_char l) = map lower_char (trimStart l).
Proof.
  induction l as [|c l IH]; [reflexivity|]. cbn [map trimStart].
  destruct (lower_char_facts c) as (_ & E & _). rewrite E.
  destruct (is_space c); [exact IH|reflexivity].
Qed.

Lemma trim_lower l : trim (toLowerCase l) = toLowerCase (trim l).
Proof.
  unfold trim, toLowerCase.
  rewrite trimStart_lower, <- map_rev, trimStart_lower, <- map_rev. reflexivity.
Qed.

Lemma lower_idem_all :
  forallb (fun c => Ascii.eqb (lower_char (lower_char c)) (lower_char c)) all_ascii = true.
Proof. vm_compute. reflexivity. Qed.

Lemma toLowerCase_idem l : toLowerCase (toLowerCase l) = toLowerCase l.
Proof.
  unfold toLowerCase. rewrite map_map. apply map_ext. intros c.
  apply Ascii.eqb_eq. apply (for_all_ascii _ lower_idem_all c).
Qed.

Lemma chars_str l : chars (str l) = l.
Proof. apply list_ascii_of_string_of_list_ascii. Qed.

(** X1: [parseColor] ignores the case of the letters and the white space
    around the text. *)
Theorem parseColor_normalizes (s t : string) (ws1 ws2 : list ascii) :
  forallb is_space ws1 = true -> forallb is_space ws2 = true ->
  toLowerCase (chars t) = toLowerCase (chars s) ->
  parseColor (str (ws1 ++ chars t ++ ws2)) = parseColor s.
Proof.
  intros H1 H2 E. unfold parseColor. rewrite chars_str.
  rewrite trim_spaces by assumption.
  rewrite <- !trim_lower. rewrite E. reflexivity.
Qed.

Lemma parseColor_normalizes_example :
  parseColor "  #FFA500 " = parseColor "#ffa500"
  /\ parseColor "#ffa500" = Some (rgb_of 255 165 0).
Proof.
  split; [|vm_compute; reflexivity].
  apply (parseColor_normalizes "#ffa500" "#FFA500" (chars "  ") (chars " "));
    reflexivity.
Defined.


(** *** Texts in the [rgb(...)] form *)

Lemma span_run p a rest :
  forallb p a = true -> stops p rest = true -> span p (a ++ rest) = (a, rest).
Proof.
  intros Ha Hr. induction a as [|c a IH].
  - destruct rest as [|c rest]; [reflexivity|].
    cbn [stops] in Hr. apply negb_true_iff in Hr. cbn [app span]. rewrite Hr. reflexivity.
  - cbn [forallb] in Ha. apply andb_true_iff in Ha. destruct Ha as [Hc Ha].
    cbn [app span]. rewrite Hc, (IH Ha). reflexivity.
Qed.

Lemma digits1_run d rest :
  d <> [] -> forallb is_digit d = true -> stops is_digit rest = true ->
  digits1 (d ++ rest) = Some (d, rest).
Proof.
  intros Hne Hd Hr. unfold digits1. rewrite span_run by assumption.
  destruct d; [contradiction|reflexivity].
Qed.

Lemma skip_space_run w rest :
  forallb is_space w = true -> stops is_space rest = true -> skip_space (w ++ rest) = rest.
Proof.
  intros Hw Hr. unfold skip_space. rewrite span_run by assumption. reflexivity.
Qed.

Lemma digit_not_space c : is_digit c = true -> is_space c = false.
Proof.
  revert c.
  assert (H : forallb (fun c => implb (is_digit c) (negb (is_space c))) all_ascii = true)
    by (vm_compute; reflexivity).
  intros c Hc. pose proof (for_all_ascii _ H c) as F. cbv beta in F.
  rewrite Hc in F. apply negb_true_iff in F. exact F.
Qed.

Lemma stops_digits p d rest :
  d <> [] -> forallb is_digit d = true ->
  (forall c, is_digit c = true -> p c = false) -> stops p (d ++ rest) = true.
Proof.
  intros Hne Hd Hp. destruct d as [|c d]; [contradiction|].
  cbn [forallb] in Hd. apply andb_true_iff in Hd. destruct Hd as [Hc _].
  cbn [app stops]. rewrite (Hp c Hc). reflexivity.
Qed.

Lemma rgb_at_run (alpha : bool) d1 w2 d2 w3 d3 tail :
  d1 <> [] -> d2 <> [] -> d3 <> [] ->
  forallb is_digit d1 = true -> forallb is_digit d2 = true -> forallb is_digit d3 = true ->
  forallb is_space w2 = true -> forallb is_space w3 = true ->
  stops is_digit tail = true ->
  rgb_at (chars "rgb" ++ (if alpha then ["a"%char] else []) ++ "("%char :: d1
          ++ ","%char :: w2 ++ d2 ++ ","%char :: w3 ++ d3 ++ tail)
  = Some (d1, d2, d3).
Proof.
  intros N1 N2 N3 D1 D2 D3 W2 W3 T.
  unfold rgb_at.
  assert (P : lit (chars "(")
                (opt_char "a" ((if alpha then ["a"%char] else []) ++ "("%char :: d1
                   ++ ","%char :: w2 ++ d2 ++ ","%char :: w3 ++ d3 ++ tail))
              = Some (d1 ++ ","%char :: w2 ++ d2 ++ ","%char :: w3 ++ d3 ++ tail)).
  { destruct alpha; reflexivity. }
  change (lit (chars "rgb") (chars "rgb" ++ ?x)) with (Some x).
  cbv iota beta. rewrite P.
  rewrite (digits1_run d1) by (assumption || reflexivity).
  cbn [lit chars list_ascii_of_string Ascii.eqb Bool.eqb].
  rewrite (skip_space_run w2)
    by (assumption || (apply stops_digits; auto using digit_not_space)).
  rewrite (digits1_run d2) by (assumption || reflexivity).
  cbn [lit chars list_ascii_of_string Ascii.eqb Bool.eqb].
  rewrite (skip_space_run w3)
    by (assumption || (apply stops_digits; auto using digit_not_space)).
  rewrite (digits1_run d3) by assumption.
  reflexivity.
Qed.


Lemma trimStart_suffix l : exists ws, l = ws ++ trimStart l.
Proof.
  induction l as [|c l [ws IH]]; [exists []; reflexivity|].
  cbn [trimStart]. destruct (is_space c).
  - exists (c :: ws). cbn [app]. f_equal. exact IH.
  - exists []. reflexivity.
Qed.

Lemma trimEnd_prefix l : exists ws, l = trimEnd l ++ ws.
Proof.
  unfold trimEnd. destruct (trimStart_suffix (rev l)) as [ws E].
  exists (rev ws). rewrite <- rev_app_distr, <- E, rev_involutive. reflexivity.
Qed.

Lemma stops_trimEnd p l : stops p l = true -> stops p (trimEnd l) = true.
Proof.
  intros H. destruct (trimEnd_prefix l) as [ws E].
  destruct (trimEnd l) as [|c t]; [reflexivity|].
  rewrite E in H. exact H.
Qed.

Lemma stops_lower l : stops is_digit l = true -> stops is_digit (toLowerCase l) = true.
Proof.
  destruct l as [|c l]; [reflexivity|]. cbn [toLowerCase map stops].
  destruct (lower_char_facts c) as (_ & _ & E & _). rewrite E. trivial.
Qed.

(** The white space at the end of a text that ends in a digit. *)
Lemma trimEnd_after_digit p c tail :
  is_digit c = true -> trimEnd ((p ++ [c]) ++ tail) = (p ++ [c]) ++ trimEnd tail.
Proof.
  intros Hc. unfold trimEnd. rewrite rev_app_distr.
  destruct (trimStart_cases (rev tail)) as [[A B]|(c' & l' & A & B & C)].
  - rewrite B. rewrite trimStart_spaces by exact A.
    rewrite rev_app_distr. cbn [rev app].
    rewrite trimStart_head by (apply digit_not_space, Hc).
    cbn [rev]. rewrite rev_involutive, app_nil_r. reflexivity.
  - rewrite C, B. rewrite app_comm_cons, rev_app_distr, rev_involutive. reflexivity.
Qed.

Lemma lower_fixed l :
  forallb (fun c => is_space c || is_digit c) l = true -> toLowerCase l = l.
Proof.
  induction l as [|c l IH]; intros H; [reflexivity|].
  cbn [forallb] in H. apply andb_true_iff in H. destruct H as [Hc H].
  cbn [toLowerCase map]. f_equal; [|apply IH, H].
  apply lower_char_facts, Hc.
Qed.

Lemma digits_fixed d : forallb is_digit d = true -> toLowerCase d = d.
Proof.
  intros H. apply lower_fixed. apply forallb_forall. intros c Hc.
  rewrite forallb_forall in H. rewrite (H c Hc). apply orb_true_r.
Qed.

Lemma spaces_fixed w : forallb is_space w = true -> toLowerCase w = w.
Proof.
  intros H. apply lower_fixed. apply forallb_forall. intros c Hc.
  rewrite forallb_forall in H. rewrite (H c Hc). reflexivity.
Qed.

Lemma toLowerCase_app l l' : toLowerCase (l ++ l') = toLowerCase l ++ toLowerCase l'.
Proof. apply map_app. Qed.

(** X2: a text in the form [rgb(r, g, b...] or [rgba(r, g, b...] parses to
    the three integers as they are written, above 255 too; what follows the
    third integer is not looked at. *)
Theorem parseColor_rgb (alpha : bool) (d1 w2 d2 w3 d3 tail : list ascii) :
  d1 <> [] -> d2 <> [] -> d3 <> [] ->
  forallb is_digit d1 = true -> forallb is_digit d2 = true -> forallb is_digit d3 = true ->
  forallb is_space w2 = true -> forallb is_space w3 = true ->
  stops is_digit tail = true ->
  parseColor (rgbText alpha d1 w2 d2 w3 d3 tail)
  = Some {| r := parseInt 10 d1; g := parseInt 10 d2; b := parseInt 10 d3 |}.
Proof.
  intros N1 N2 N3 D1 D2 D3 W2 W3 T.
  destruct (exists_last N3) as (d3' & c3 & E3).
  assert (C3 : is_digit c3 = true).
  { rewrite forallb_forall in D3. apply D3. rewrite E3. apply in_or_app. right. left. reflexivity. }
  set (tail' := toLowerCase (trimEnd tail)).
  assert (N : toLowerCase (trim (chars (rgbText alpha d1 w2 d2 w3 d3 tail)))
              = chars "rgb" ++ (if alpha then ["a"%char] else []) ++ "("%char :: d1
                ++ ","%char :: w2 ++ d2 ++ ","%char :: w3 ++ d3 ++ tail').
  { unfold rgbText. rewrite chars_str. unfold trim.
    change (trimStart (chars "rgb" ++ ?x)) with (chars "rgb" ++ x).
    fold (trimEnd (chars "rgb" ++ (if alpha then ["a"%char] else []) ++ "("%char :: d1
                   ++ ","%char :: w2 ++ d2 ++ ","%char :: w3 ++ d3 ++ tail)).
    set (a := if alpha then ["a"%char] else []).
    replace (chars "rgb" ++ a ++ "("%char :: d1 ++ ","%char :: w2 ++ d2
             ++ ","%char :: w3 ++ d3 ++ tail)
      with (((chars "rgb" ++ a ++ "("%char :: d1 ++ ","%char :: w2 ++ d2
              ++ ","%char :: w3 ++ d3') ++ [c3]) ++ tail).
    2:{ rewrite E3. repeat (rewrite <- ?app_assoc, <- ?app_comm_cons). reflexivity. }
    rewrite trimEnd_after_digit by exact C3.
    replace ((chars "rgb" ++ a ++ "("%char :: d1 ++ ","%char :: w2 ++ d2
              ++ ","%char :: w3 ++ d3') ++ [c3])
      with (chars "rgb" ++ a ++ "("%char :: d1 ++ ","%char :: w2 ++ d2
            ++ ","%char :: w3 ++ d3).
    2:{ rewrite E3. repeat (rewrite <- ?app_assoc, <- ?app_comm_cons). reflexivity. }
    assert (La : toLowerCase a = a) by (subst a; destruct alpha; reflexivity).
    repeat (rewrite ?toLowerCase_app, <- ?app_assoc, <- ?app_comm_cons).
    change (toLowerCase (chars "rgb")) with (chars "rgb").
    change (toLowerCase ("("%char :: ?x)) with ("("%char :: toLowerCase x).
    repeat (rewrite ?toLowerCase_app, <- ?app_assoc, <- ?app_comm_cons).
    change (toLowerCase (","%char :: ?x)) with (","%char :: toLowerCase x).
    repeat (rewrite ?toLowerCase_app, <- ?app_assoc, <- ?app_comm_cons).
    change (toLowerCase (","%char :: ?x)) with (","%char :: toLowerCase x).
    repeat (rewrite ?toLowerCase_app, <- ?app_assoc, <- ?app_comm_cons).
    rewrite La, (digits_fixed d1), (digits_fixed d2), (digits_fixed d3),
      (spaces_fixed w2), (spaces_fixed w3) by assumption.
    reflexivity. }
  unfold parseColor. rewrite N.
  assert (T' : stops is_digit tail' = true) by (apply stops_lower, stops_trimEnd, T).
  pose proof (rgb_at_run alpha d1 w2 d2 w3 d3 tail' N1 N2 N3 D1 D2 D3 W2 W3 T') as R.
  set (text := chars "rgb" ++ (if alpha then ["a"%char] else []) ++ "("%char :: d1
                ++ ","%char :: w2 ++ d2 ++ ","%char :: w3 ++ d3 ++ tail') in *.
  assert (S : search rgb_at text = Some (d1, d2, d3)).
  { destruct text; cbn [search]; rewrite R; reflexivity. }
  rewrite S. subst text. reflexivity.
Qed.

Lemma parseColor_rgb_example :
  parseColor "rgba(300, 12,0, 0.5)"
  = Some {| r := parseInt 10 (chars "300"); g := parseInt 10 (chars "12");
            b := parseInt 10 (chars "0") |}.
Proof.
  apply (parseColor_rgb true (chars "300") (chars " ") (chars "12") [] (chars "0")
           (chars ", 0.5)")); (discriminate || reflexivity).
Defined.
End Parse.

Module ParseHsl.
Import Hex Parse.
Local Open Scope list_scope.

Lemma stops_number_digit rest :
  stops is_number_char rest = true -> stops is_digit rest = true.
Proof.
  destruct rest as [|c rest]; [reflexivity|]. cbn [stops]. intros Sr.
  apply negb_true_iff in Sr. unfold is_number_char in Sr.
  apply orb_false_iff in Sr. destruct Sr as [Sr _]. rewrite Sr. reflexivity.
Qed.

Lemma decimal_run i f rest :
  i <> [] -> forallb is_digit i = true -> forallb is_digit f = true ->
  stops is_number_char rest = true ->
  decimal (numberText i f ++ rest) = Some (i, f, rest).
Proof.
  intros Ni Di Df Sr.
  pose proof (stops_number_digit rest Sr) as Sd.
  unfold decimal, numberText. destruct f as [|c f].
  - rewrite digits1_run by assumption.
    destruct rest as [|c rest]; [reflexivity|].
    cbn [stops] in Sr. apply negb_true_iff in Sr. unfold is_number_char in Sr.
    apply orb_false_iff in Sr. destruct Sr as [_ Sr].
    destruct c as [[] [] [] [] [] [] [] []]; try reflexivity. discriminate Sr.
  - rewrite <- app_assoc. rewrite digits1_run; [|assumption|assumption|reflexivity].
    change (("."%char :: c :: f) ++ rest) with ("."%char :: ((c :: f) ++ rest)).
    cbv beta iota.
    rewrite (digits1_run (c :: f)); [reflexivity|discriminate|assumption|assumption].
Qed.

Lemma numberText_head i f rest p :
  i <> [] -> forallb is_digit i = true ->
  (forall c, is_digit c = true -> p c = false) ->
  stops p (numberText i f ++ rest) = true.
Proof.
  intros Ni Di Hp. unfold numberText.
  destruct f; [|rewrite <- app_assoc]; apply stops_digits; assumption.
Qed.

Lemma numberText_last i f :
  i <> [] -> forallb is_digit i = true -> forallb is_digit f = true ->
  exists n c, numberText i f = n ++ [c] /\ is_digit c = true.
Proof.
  intros Ni Di Df. unfold numberText. destruct f as [|c0 f].
  - destruct (exists_last Ni) as (n & c & E). exists n, c. split; [exact E|].
    rewrite forallb_forall in Di. apply Di. rewrite E. apply in_or_app. right. left. reflexivity.
  - assert (Nf : c0 :: f <> []) by discriminate.
    destruct (exists_last Nf) as (n & c & E). rewrite E.
    exists (i ++ "."%char :: n), c. split.
    + rewrite <- app_assoc. reflexivity.
    + rewrite forallb_forall in Df. apply Df. rewrite E. apply in_or_app. right. left. reflexivity.
Qed.

Lemma numberText_fixed i f :
  forallb is_digit i = true -> forallb is_digit f = true ->
  toLowerCase (numberText i f) = numberText i f.
Proof.
  intros Di Df. unfold numberText. destruct f as [|c f]; [apply digits_fixed, Di|].
  rewrite toLowerCase_app.
  change (toLowerCase ("."%char :: c :: f)) with ("."%char :: toLowerCase (c :: f)).
  rewrite (digits_fixed i), (digits_fixed (c :: f)) by assumption. reflexivity.
Qed.

Lemma hsl_at_run (alpha p2 : bool) i1 f1 w2 i2 f2 w3 i3 f3 tail :
  i1 <> [] -> i2 <> [] -> i3 <> [] ->
  forallb is_digit i1 = true -> forallb is_digit f1 = true ->
  forallb is_digit i2 = true -> forallb is_digit f2 = true ->
  forallb is_digit i3 = true -> forallb is_digit f3 = true ->
  forallb is_space w2 = true -> forallb is_space w3 = true ->
  stops is_number_char tail = true ->
  hsl_at (chars "hsl" ++ (if alpha then ["a"%char] else []) ++ "("%char :: numberText i1 f1
          ++ ","%char :: w2 ++ numberText i2 f2 ++ percentSign p2
          ++ ","%char :: w3 ++ numberText i3 f3 ++ tail)
  = Some ((i1, f1), (i2, f2), (i3, f3)).
Proof.
  intros N1 N2 N3 I1 F1 I2 F2 I3 F3 W2 W3 T.
  unfold hsl_at.
  set (x3 := numberText i3 f3 ++ tail).
  set (x2 := numberText i2 f2 ++ percentSign p2 ++ ","%char :: w3 ++ x3).
  assert (P : lit (chars "(")
                (opt_char "a" ((if alpha then ["a"%char] else []) ++ "("%char :: numberText i1 f1
                   ++ ","%char :: w2 ++ x2))
              = Some (numberText i1 f1 ++ ","%char :: w2 ++ x2)).
  { destruct alpha; reflexivity. }
  change (lit (chars "hsl") (chars "hsl" ++ ?x)) with (Some x).
  cbv iota beta. rewrite P.
  rewrite (decimal_run i1 f1) by (assumption || reflexivity).
  cbn [lit chars list_ascii_of_string Ascii.eqb Bool.eqb].
  rewrite (skip_space_run w2)
    by (assumption || (apply numberText_head; auto using digit_not_space)).
  subst x2.
  rewrite (decimal_run i2 f2) by (assumption || (destruct p2; reflexivity)).
  assert (Q : opt_char "%" (percentSign p2 ++ ","%char :: w3 ++ x3) = ","%char :: w3 ++ x3).
  { destruct p2; reflexivity. }
  rewrite Q.
  cbn [lit chars list_ascii_of_string Ascii.eqb Bool.eqb].
  rewrite (skip_space_run w3)
    by (assumption || (apply numberText_head; auto using digit_not_space)).
  subst x3.
  rewrite (decimal_run i3 f3) by assumption.
  reflexivity.
Qed.

Lemma search_rgb_none l :
  forallb (fun c => negb (Ascii.eqb "r" c)) l = true -> search rgb_at l = None.
Proof.
  induction l as [|c l IH]; intros H; [reflexivity|].
  cbn [forallb] in H. apply andb_true_iff in H. destruct H as [Hc H].
  cbn [search]. rewrite (IH H).
  unfold rgb_at. cbn [chars list_ascii_of_string lit].
  apply negb_true_iff in Hc. rewrite Hc. reflexivity.
Qed.

Lemma number_char_facts :
  forallb (fun c => (if is_number_char c then negb (Ascii.eqb "r" c) else true)
                    && (if is_space c then negb (Ascii.eqb "r" c) else true)
                    && (if is_number_char (lower_char c) then is_number_char c else true))
          all_ascii = true.
Proof. vm_compute. reflexivity. Qed.

Lemma number_char_fact c :
  (is_number_char c = true -> negb (Ascii.eqb "r" c) = true)
  /\ (is_space c = true -> negb (Ascii.eqb "r" c) = true)
  /\ (is_number_char c = false -> is_number_char (lower_char c) = false).
Proof.
  pose proof number_char_facts as H. rewrite forallb_forall in H.
  specialize (H c (all_ascii_complete c)).
  apply andb_true_iff in H. destruct H as [H H3].
  apply andb_true_iff in H. destruct H as [H1 H2].
  repeat split.
  - intros E. rewrite E in H1. exact H1.
  - intros E. rewrite E in H2. exact H2.
  - intros E. destruct (is_number_char (lower_char c)); [|reflexivity].
    rewrite <- H3. exact E.
Qed.

Lemma stops_number_lower l :
  stops is_number_char l = true -> stops is_number_char (toLowerCase l) = true.
Proof.
  destruct l as [|c l]; [reflexivity|]. cbn [toLowerCase map stops].
  intros H. apply negb_true_iff in H. apply negb_true_iff.
  apply (proj2 (proj2 (number_char_fact c))), H.
Qed.

Lemma no_r_lower l :
  no_r l = true -> forallb (fun c => negb (Ascii.eqb "r" c)) (toLowerCase l) = true.
Proof.
  unfold no_r, toLowerCase. induction l as [|c l IH]; [reflexivity|].
  cbn [forallb map]. intros H. apply andb_true_iff in H. destruct H as [Hc H].
  rewrite Hc, (IH H). reflexivity.
Qed.

Lemma no_r_trimEnd l : no_r l = true -> no_r (trimEnd l) = true.
Proof.
  intros H. destruct (trimEnd_prefix l) as [ws E]. rewrite E in H.
  unfold no_r in *. rewrite forallb_app in H. apply andb_true_iff in H. apply H.
Qed.

Lemma plain_number i f :
  forallb is_digit i = true -> forallb is_digit f = true ->
  forallb (fun c => negb (Ascii.eqb "r" c)) (numberText i f) = true.
Proof.
  intros Di Df.
  assert (D : forall d, forallb is_digit d = true ->
                        forallb (fun c => negb (Ascii.eqb "r" c)) d = true).
  { intros d Hd. rewrite forallb_forall in *. intros c Hc.
    apply (proj1 (number_char_fact c)). unfold is_number_char. rewrite (Hd c Hc). reflexivity. }
  unfold numberText. destruct f as [|c f]; [apply D, Di|].
  rewrite forallb_app. rewrite (D i Di). cbn [andb].
  change (forallb (fun c => negb (Ascii.eqb "r" c)) ("."%char :: c :: f))
    with (forallb (fun c => negb (Ascii.eqb "r" c)) (c :: f)).
  apply D, Df.
Qed.

Lemma plain_spaces w :
  forallb is_space w = true -> forallb (fun c => negb (Ascii.eqb "r" c)) w = true.
Proof.
  intros Hw. rewrite forallb_forall in *. intros c Hc. apply (proj1 (proj2 (number_char_fact c))), Hw, Hc.
Qed.

(** X27: a text in the form [hsl(h, s%, l...] or [hsla(h, s%, l...], each
    number an integer or a decimal with a point and the percent sign after
    the saturation present or not, parses to the colour that [hslToRgb]
    gives for the three numbers as they are written, whatever their size;
    what follows the third number is not looked at, as long as it has no
    letter r, with which an [rgb(] form could start. *)
Theorem parseColor_hsl (alpha p2 : bool) (i1 f1 w2 i2 f2 w3 i3 f3 tail : list ascii) :
  i1 <> [] -> i2 <> [] -> i3 <> [] ->
  forallb is_digit i1 = true -> forallb is_digit f1 = true ->
  forallb is_digit i2 = true -> forallb is_digit f2 = true ->
  forallb is_digit i3 = true -> forallb is_digit f3 = true ->
  forallb is_space w2 = true -> forallb is_space w3 = true ->
  stops is_number_char tail = true -> no_r tail = true ->
  parseColor (hslText alpha i1 f1 w2 i2 f2 p2 w3 i3 f3 tail)
  = Some (hslToRgb {| h := parseFloat i1 f1; s := parseFloat i2 f2; l := parseFloat i3 f3 |}).
Proof.
  intros N1 N2 N3 I1 F1 I2 F2 I3 F3 W2 W3 T R.
  destruct (numberText_last i3 f3 N3 I3 F3) as (n3 & c3 & E3 & C3).
  set (tail' := toLowerCase (trimEnd tail)).
  set (a := if alpha then ["a"%char] else []).
  assert (La : toLowerCase a = a) by (subst a; destruct alpha; reflexivity).
  assert (Lp : toLowerCase (percentSign p2) = percentSign p2) by (destruct p2; reflexivity).
  assert (N : toLowerCase (trim (chars (hslText alpha i1 f1 w2 i2 f2 p2 w3 i3 f3 tail)))
              = chars "hsl" ++ a ++ "("%char :: numberText i1 f1
                ++ ","%char :: w2 ++ numberText i2 f2 ++ percentSign p2
                ++ ","%char :: w3 ++ numberText i3 f3 ++ tail').
  { unfold hslText. rewrite chars_str. unfold trim. fold a.
    change (trimStart (chars "hsl" ++ ?x)) with (chars "hsl" ++ x).
    fold (trimEnd (chars "hsl" ++ a ++ "("%char :: numberText i1 f1
                   ++ ","%char :: w2 ++ numberText i2 f2 ++ percentSign p2
                   ++ ","%char :: w3 ++ numberText i3 f3 ++ tail)).
    replace (chars "hsl" ++ a ++ "("%char :: numberText i1 f1
             ++ ","%char :: w2 ++ numberText i2 f2 ++ percentSign p2
             ++ ","%char :: w3 ++ numberText i3 f3 ++ tail)
      with (((chars "hsl" ++ a ++ "("%char :: numberText i1 f1
              ++ ","%char :: w2 ++ numberText i2 f2 ++ percentSign p2
              ++ ","%char :: w3 ++ n3) ++ [c3]) ++ tail).
    2:{ rewrite E3. repeat (rewrite <- ?app_assoc, <- ?app_comm_cons). reflexivity. }
    rewrite trimEnd_after_digit by exact C3.
    replace ((chars "hsl" ++ a ++ "("%char :: numberText i1 f1
              ++ ","%char :: w2 ++ numberText i2 f2 ++ percentSign p2
              ++ ","%char :: w3 ++ n3) ++ [c3])
      with (chars "hsl" ++ a ++ "("%char :: numberText i1 f1
            ++ ","%char :: w2 ++ numberText i2 f2 ++ percentSign p2
            ++ ","%char :: w3 ++ numberText i3 f3).
    2:{ rewrite E3. repeat (rewrite <- ?app_assoc, <- ?app_comm_cons). reflexivity. }
    clear E3.
    repeat (rewrite ?toLowerCase_app, <- ?app_assoc, <- ?app_comm_cons).
    change (toLowerCase (chars "hsl")) with (chars "hsl").
    change (toLowerCase ("("%char :: ?x)) with ("("%char :: toLowerCase x).
    repeat (rewrite ?toLowerCase_app, <- ?app_assoc, <- ?app_comm_cons).
    change (toLowerCase (","%char :: ?x)) with (","%char :: toLowerCase x).
    repeat (rewrite ?toLowerCase_app, <- ?app_assoc, <- ?app_comm_cons).
    change (toLowerCase (","%char :: ?x)) with (","%char :: toLowerCase x).
    repeat (rewrite ?toLowerCase_app, <- ?app_assoc, <- ?app_comm_cons).
    rewrite La, Lp, (numberText_fixed i1 f1), (numberText_fixed i2 f2),
      (numberText_fixed i3 f3), (spaces_fixed w2), (spaces_fixed w3) by assumption.
    reflexivity. }
  unfold parseColor. rewrite N.
  assert (T' : stops is_number_char tail' = true)
    by (apply stops_number_lower, stops_trimEnd, T).
  assert (R' : forallb (fun c => negb (Ascii.eqb "r" c)) tail' = true)
    by (apply no_r_lower, no_r_trimEnd, R).
  pose proof (hsl_at_run alpha p2 i1 f1 w2 i2 f2 w3 i3 f3 tail'
                N1 N2 N3 I1 F1 I2 F2 I3 F3 W2 W3 T') as M.
  fold a in M.
  assert (Z : search rgb_at (chars "hsl" ++ a ++ "("%char :: numberText i1 f1
                ++ ","%char :: w2 ++ numberText i2 f2 ++ percentSign p2
                ++ ","%char :: w3 ++ numberText i3 f3 ++ tail') = None).
  { apply search_rgb_none.
    repeat (rewrite ?forallb_app; cbn [forallb]).
    rewrite (plain_number i1 f1), (plain_number i2 f2), (plain_number i3 f3),
      (plain_spaces w2), (plain_spaces w3), R' by assumption.
    destruct alpha, p2; reflexivity. }
  set (text := chars "hsl" ++ a ++ "("%char :: numberText i1 f1
                ++ ","%char :: w2 ++ numberText i2 f2 ++ percentSign p2
                ++ ","%char :: w3 ++ numberText i3 f3 ++ tail') in *.
  assert (S : search hsl_at text = Some ((i1, f1), (i2, f2), (i3, f3))).
  { destruct text; cbn [search]; rewrite M; reflexivity. }
  assert (H : match text with "#"%char :: _ => False | _ => True end).
  { subst text. exact I. }
  destruct text as [|c text]; [discriminate M|].
  destruct (Ascii.eqb_spec c "#") as [->|Nc]; [contradiction H|].
  rewrite Z, S.
  destruct c as [[] [] [] [] [] [] [] []]; try reflexivity. contradiction Nc. reflexivity.
Qed.

Lemma parseColor_hsl_example :
  parseColor "hsla(210.5, 40%,  98.25%, 0.5)"
  = Some (hslToRgb {| h := parseFloat (chars "210") (chars "5");
                      s := parseFloat (chars "40") [];
                      l := parseFloat (chars "98") (chars "25") |}).
Proof.
  apply (parseColor_hsl true true (chars "210") (chars "5") (chars " ") (chars "40") []
           (chars "  ") (chars "98") (chars "25") (chars "%, 0.5)"));
    (discriminate || reflexivity).
Defined.

End ParseHsl.

(** ** The input of the generator *)

Module Input.
Import Hex.
Local Open Scope list_scope.

Lemma colorMap_parsed_from l : forall m,
  fold_left addColor l m = fold_left addRgb (parsed l) m.
Proof.
  induction l as [|s l IH]; intros m; [reflexivity|].
  cbn [fold_left parsed flat_map]. fold (parsed l).
  rewrite fold_left_app, IH. unfold addColor.
  destruct (parseColor s); reflexivity.
Qed.

Lemma colorMap_parsed l : colorMap l = fold_left addRgb (parsed l) [].
Proof. apply colorMap_parsed_from. Qed.

Lemma parsed_hexOf cs : Forall eightBit cs -> parsed (map hexOf cs) = cs.
Proof.
  induction 1 as [|c cs Hc _ IH]; [reflexivity|].
  cbn [map parsed flat_map]. fold (parsed (map hexOf cs)). rewrite IH.
  destruct Hc as (R & G & B & HR & HG & HB & ->).
  rewrite parse_hexOf by assumption. reflexivity.
Qed.

Section Themes.
Variable Math_pow : float -> float -> float.

(** X22: the theme depends on the texts only through the colours they parse
    to: a text that does not parse is passed over, and two ways of writing
    a colour count as the same. *)
Theorem generateTheme_parsed (l l' : list string) :
  parsed l = parsed l' -> generateTheme Math_pow l = generateTheme Math_pow l'.
Proof.
  intros E. unfold generateTheme. rewrite !colorMap_parsed, E. reflexivity.
Qed.

(** X23: for colours of integer channels from 0 to 255, the keys written by
    [generateThemeFromRGB] parse back to the colours, and the theme is that
    of any texts that parse to these colours. *)
Theorem generateThemeFromRGB_parsed (cs : list RGB) :
  Forall eightBit cs ->
  parsed (map hexOf cs) = cs
  /\ forall l, parsed l = cs -> generateThemeFromRGB Math_pow cs = generateTheme Math_pow l.
Proof.
  intros H. pose proof (parsed_hexOf cs H) as P. split; [exact P|].
  intros l E. unfold generateThemeFromRGB, generateTheme.
  rewrite !colorMap_parsed, P, E. reflexivity.
Qed.
End Themes.

Lemma generateTheme_parsed_example :
  parsed ["#FFF"; "no colour"; "rgb(0, 0,255)"; "white"] = parsed ["#ffffff"; "blue"; "#fff"]
  /\ forall Math_pow,
       generateTheme Math_pow ["#FFF"; "no colour"; "rgb(0, 0,255)"; "white"]
       = generateTheme Math_pow ["#ffffff"; "blue"; "#fff"].
Proof.
  assert (E : parsed ["#FFF"; "no colour"; "rgb(0, 0,255)"; "white"]
              = parsed ["#ffffff"; "blue"; "#fff"]) by (vm_compute; reflexivity).
  split; [exact E|]. intros Math_pow. exact (generateTheme_parsed Math_pow _ _ E).
Defined.

Lemma generateThemeFromRGB_parsed_example :
  parsed (map hexOf [rgb_of 255 165 0; rgb_of 0 0 255]) = [rgb_of 255 165 0; rgb_of 0 0 255]
  /\ forall Math_pow l, parsed l = [rgb_of 255 165 0; rgb_of 0 0 255] ->
       generateThemeFromRGB Math_pow [rgb_of 255 165 0; rgb_of 0 0 255]
       = generateTheme Math_pow l.
Proof.
  assert (H : Forall eightBit [rgb_of 255 165 0; rgb_of 0 0 255]).
  { repeat constructor.
    - exists 255%nat, 165%nat, 0%nat. repeat split; lia.
    - exists 0%nat, 0%nat, 255%nat. repeat split; lia. }
  split.
  - exact (proj1 (generateThemeFromRGB_parsed (fun _ _ => PrimFloat.zero) _ H)).
  - intros Math_pow. exact (proj2 (generateThemeFromRGB_parsed Math_pow _ H)).
Defined.
End Input.

(** ** Orders *)

Module Order.
Import FloatOrder SortFacts.
Local Open Scope list_scope.

Section Sorted.
Context {A : Type} (after : A -> A -> bool).
Variable P : A -> Prop.
Hypothesis asym : forall x y, P x -> P y -> after x y = true -> after y x = false.
Hypothesis neg_trans : forall x y z, P x -> P y -> P z ->
  after x y = false -> after y z = false -> after x z = false.

Lemma insert_sorted x l :
  P x -> Forall P l ->
  StronglySorted (fun a b => after a b = false) l ->
  StronglySorted (fun a b => after a b = false) (insert after x l).
Proof.
  intros Hx HP S. induction S as [|y l S IH Hy]; cbn [insert].
  - constructor; constructor.
  - inversion HP as [|? ? Py HPl]; subst.
    assert (HPf : forall z, In z l -> P z) by (apply Forall_forall, HPl).
    assert (Hyf : forall z, In z l -> after y z = false) by (apply Forall_forall, Hy).
    destruct (after x y) eqn:E.
    + constructor; [apply IH, HPl|].
      apply Forall_forall. intros z Hz.
      apply (Permutation_in _ (insert_perm after x l)) in Hz.
      destruct Hz as [<-|Hz]; [apply asym; assumption|apply Hyf, Hz].
    + constructor; [constructor; assumption|].
      constructor; [exact E|].
      apply Forall_forall. intros z Hz.
      apply (neg_trans x y z); auto.
Qed.

Lemma sort_by_sorted l :
  Forall P l -> StronglySorted (fun a b => after a b = false) (sort_by after l).
Proof.
  induction 1 as [|x l Hx HP IH]; cbn [sort_by]; [constructor|].
  apply insert_sorted; [exact Hx| |exact IH].
  apply Forall_forall. intros z Hz. apply sort_by_in in Hz.
  rewrite Forall_forall in HP. apply HP, Hz.
Qed.
End Sorted.

Local Open Scope float_scope.

Lemma StronglySorted_weaken {A} (R R' : A -> A -> Prop) (Q : A -> Prop) l :
  (forall a b, Q a -> Q b -> R a b -> R' a b) -> Forall Q l ->
  StronglySorted R l -> StronglySorted R' l.
Proof.
  intros W HQ S. induction S as [|x l S IH Hx]; [constructor|].
  inversion HQ as [|? ? Qx HQl]; subst.
  constructor; [apply IH, HQl|].
  rewrite Forall_forall in *. intros z Hz. apply W; auto.
Qed.

(** An array sorted by [key b - key a] is in descending order of the key,
    when the keys are numbers. *)
Lemma sort_descending {A} (key : A -> float) (l : list A) :
  forallb (fun x => negb (is_nan (key x))) l = true ->
  descending key (sort (fun a b => key b - key a) l).
Proof.
  intros HP.
  assert (HP' : Forall (fun x => is_nan (key x) = false) l).
  { apply Forall_forall. intros x Hx.
    rewrite forallb_forall in HP. apply negb_true_iff, HP, Hx. }
  unfold descending, sort.
  apply (StronglySorted_weaken (fun a b => (0 <? key b - key a) = false) _
           (fun x => is_nan (key x) = false)).
  - intros a b Ha Hb. rewrite sub_positive by assumption. trivial.
  - apply Forall_forall. intros x Hx. apply sort_by_in in Hx.
    rewrite Forall_forall in HP'. apply HP', Hx.
  - apply (sort_by_sorted _ (fun x => is_nan (key x) = false)); [| |exact HP'].
    + intros a b Ha Hb. rewrite !sub_positive by assumption. apply ltb_asym.
    + intros a b c Ha Hb Hc. rewrite !sub_positive by assumption. apply ltb_neg_trans, Hb.
Qed.

(** *** Frequencies are numbers *)

Lemma positive_shape x :
  (0 <? x) = true ->
  Prim2SF x = S754_infinity false \/ exists m e, Prim2SF x = S754_finite false m e.
Proof.
  rewrite FloatAxioms.ltb_spec. change (Prim2SF 0) with (S754_zero false).
  destruct (Prim2SF x) as [s|s| |s m e]; cbn; try discriminate;
    destruct s; try discriminate; eauto.
Qed.

Lemma add_positive x y : (0 <? x) = true -> (0 <? y) = true -> (0 <? x + y) = true.
Proof.
  intros Hx Hy.
  pose proof (Prim2SF_valid x) as Vx. pose proof (Prim2SF_valid y) as Vy.
  rewrite FloatAxioms.ltb_spec, add_spec. change (Prim2SF 0) with (S754_zero false).
  destruct (positive_shape x Hx) as [Ex|(mx & ex & Ex)];
    destruct (positive_shape y Hy) as [Ey|(my & ey & Ey)];
    rewrite Ex, Ey in *; try reflexivity.
  apply valid_finite in Vx as (Bx & _), Vy as (By & _).
  unfold SF64add, SFadd. rewrite binary_normalize_sign by (unfold emin64 in *; lia).
  apply Z.ltb_lt. cbn [cond_Zopp]. lia.
Qed.

Lemma accumulated_positive n : (0 <? accumulated n) = true.
Proof.
  unfold accumulated. induction (pred n) as [|k IH]; [reflexivity|].
  cbn [Nat.iter]. apply add_positive; [exact IH|reflexivity].
Qed.

Lemma colorMap_frequencies l :
  forallb (fun c => negb (is_nan c.(frequency))) (colorMap l) = true.
Proof.
  apply forallb_forall. intros c Hc.
  destruct (entry_counted _ _ (Palette.colorMap_tallies l) c Hc) as [_ E].
  rewrite E. apply negb_true_iff.
  apply (ltb_true_number 0 (accumulated _)), accumulated_positive.
Qed.


(** *** The palette *)

Lemma descending_firstn {A} (key : A -> float) n (l : list A) :
  descending key l -> descending key (firstn n l).
Proof.
  unfold descending. intros S. revert n.
  induction S as [|x l S IH Hx]; intros [|n]; cbn [firstn]; try constructor.
  - apply IH.
  - apply Forall_forall. intros z Hz. rewrite Forall_forall in Hx.
    apply Hx. apply Palette.in_firstn in Hz. exact Hz.
Qed.

Lemma descending_map {A B} (f : A -> B) (key : B -> float) (l : list A) :
  descending (fun a => key (f a)) l -> descending key (map f l).
Proof.
  unfold descending. induction 1 as [|x l S IH Hx]; cbn [map]; constructor; [exact IH|].
  apply Forall_forall. intros z Hz. apply in_map_iff in Hz. destruct Hz as (a & <- & Ha).
  rewrite Forall_forall in Hx. apply Hx, Ha.
Qed.

Lemma NoDup_map_filter {A B} (f : A -> B) (p : A -> bool) l :
  NoDup (map f l) -> NoDup (map f (filter p l)).
Proof.
  induction l as [|x l IH]; cbn [map filter]; intros H; [constructor|].
  inversion H as [|? ? Hn H']; subst.
  destruct (p x); [|apply IH, H']. cbn [map]. constructor; [|apply IH, H'].
  intros Hin. apply Hn. apply in_map_iff in Hin. destruct Hin as (a & E & Ha).
  apply filter_In in Ha. apply in_map_iff. exists a. split; [exact E|apply Ha].
Qed.

Lemma NoDup_firstn {A} n (l : list A) : NoDup l -> NoDup (firstn n l).
Proof.
  intros H. rewrite <- (firstn_skipn n l) in H. apply NoDup_app_remove_r in H. exact H.
Qed.

Section Listing.
Variable Math_pow : float -> float -> float.
Variable colorStrings : list string.

Let theme := generateTheme Math_pow colorStrings.

(** X26: the palette shows no colour twice, shows no pure black, white or
    gray, and goes from the most frequent colour down. *)
Theorem palette_listing :
  NoDup theme.(sourceColors)
  /\ descending detail_frequency theme.(colorDetails)
  /\ forall key, In key theme.(sourceColors) ->
       exists c, In c (colorMap colorStrings) /\ c.(hex) = key /\ shown c = true.
Proof.
  assert (Es : theme.(sourceColors) = map hex (sortedColors (colorMap colorStrings)))
    by reflexivity.
  assert (Ed : theme.(colorDetails) = map detail (sortedColors (colorMap colorStrings)))
    by reflexivity.
  rewrite Es, Ed. clear Es Ed. unfold sortedColors, slice_first.
  fold shown.
  change (fun c : ColorWithFrequency =>
            (10 <? s (hsl c)) || (5 <? l (hsl c)) && (l (hsl c) <? 95)) with shown.
  set (kept := filter shown (colorMap colorStrings)).
  assert (F : forallb (fun c => negb (is_nan c.(frequency))) kept = true).
  { apply forallb_forall. intros c Hc. apply filter_In in Hc.
    pose proof (colorMap_frequencies colorStrings) as H.
    rewrite forallb_forall in H. apply H, Hc. }
  split; [|split].
  - rewrite <- firstn_map. apply NoDup_firstn.
    apply (Permutation_NoDup (l := map hex kept)).
    + apply Permutation_map. symmetry. apply sort_by_perm.
    + apply NoDup_map_filter.
      apply (keys_distinct _ _ (Palette.colorMap_tallies colorStrings)).
  - apply (descending_map detail detail_frequency).
    apply descending_firstn. apply (sort_descending frequency kept F).
  - intros key Hk. apply in_map_iff in Hk. destruct Hk as (c & E & Hc).
    apply Palette.in_firstn in Hc. apply sort_by_in in Hc. apply filter_In in Hc.
    exists c. split; [apply Hc|]. split; [exact E|apply Hc].
Qed.
End Listing.


(** *** The backgrounds *)

Lemma hd_error_firstn {A} k (l : list A) : (1 <= k)%nat -> hd_error (firstn k l) = hd_error l.
Proof. destruct k; [lia|]. destruct l; reflexivity. Qed.

Lemma last_slice_last {A} k (l : list A) :
  (1 <= k <= List.length l)%nat -> hd_error (rev (slice_last k l)) = hd_error (rev l).
Proof.
  intros H. unfold slice_last. destruct k as [|k]; [lia|].
  rewrite <- (hd_error_firstn (S k) (rev l)) by lia.
  rewrite firstn_rev. reflexivity.
Qed.

Lemma third_bounds n : (1 <= n)%nat -> (1 <= (n + 2) / 3 <= n)%nat.
Proof.
  intros H. split.
  - apply Nat.div_le_lower_bound; lia.
  - apply Nat.Div0.div_le_upper_bound. lia.
Qed.

Lemma descending_head {A} (key : A -> float) (l : list A) x :
  descending key l -> hd_error l = Some x ->
  forall y, In y l -> (key x <? key y) = false.
Proof.
  intros S E y Hy. destruct l as [|x' l]; [discriminate|]. injection E as ->.
  inversion S as [|? ? _ Hx]; subst.
  destruct Hy as [<-|Hy]; [apply FloatFacts.ltb_refl_false|].
  rewrite Forall_forall in Hx. apply Hx, Hy.
Qed.

Lemma descending_last {A} (key : A -> float) (l : list A) z :
  descending key l -> hd_error (rev l) = Some z ->
  forall y, In y l -> (key y <? key z) = false.
Proof.
  intros S E y Hy. 
  assert (L : exists l', l = l' ++ [z]).
  { destruct (rev l) as [|z' t] eqn:R; [discriminate|]. injection E as ->.
    exists (rev t). rewrite <- (rev_involutive l), R. reflexivity. }
  destruct L as [l' ->]. clear E.
  apply in_app_or in Hy. destruct Hy as [Hy|[<-|[]]]; [|apply FloatFacts.ltb_refl_false].
  induction l' as [|a l' IH]; [destruct Hy|].
  inversion S as [|? ? S' Ha]; subst.
  destruct Hy as [<-|Hy]; [|apply IH; assumption].
  rewrite Forall_forall in Ha. apply Ha. apply in_or_app. right. left. reflexivity.
Qed.

Section Backgrounds.
Variable Math_pow : float -> float -> float.
Variable colorStrings : list string.

Let theme := generateTheme Math_pow colorStrings.
Let colors := colorMap colorStrings.
Let luminance (c : ColorWithFrequency) := getLuminance Math_pow c.(color).

Lemma backgrounds_of_sorted :
  theme.(light).(background)
  = formatHslForShadcn (rgbToHsl
      match hd_error (slice_first ((List.length (sortColorsByLuminance Math_pow colors) + 2) / 3)
                        (sortColorsByLuminance Math_pow colors)) with
      | Some c => c.(color) | None => defaultLight end)
  /\ theme.(dark).(background)
     = formatHslForShadcn (rgbToHsl
         match hd_error (rev (slice_last ((List.length (sortColorsByLuminance Math_pow colors) + 2) / 3)
                                (sortColorsByLuminance Math_pow colors))) with
         | Some c => c.(color) | None => defaultDark end).
Proof.
  unfold theme, generateTheme. cbv beta zeta. cbn [light dark background].
  split; reflexivity.
Qed.

(** X24: when the luminances are numbers, the light background is the most
    luminous colour of the input and the dark background the least luminous. *)
Theorem backgrounds_extreme :
  (exists c cs, colors = c :: cs) ->
  forallb (fun c => negb (is_nan (luminance c))) colors = true ->
  exists lightest darkest,
    In lightest colors /\ In darkest colors
    /\ (forall c, In c colors -> (luminance lightest <? luminance c) = false)
    /\ (forall c, In c colors -> (luminance c <? luminance darkest) = false)
    /\ theme.(light).(background) = formatHslForShadcn (rgbToHsl lightest.(color))
    /\ theme.(dark).(background) = formatHslForShadcn (rgbToHsl darkest.(color)).
Proof.
  intros (c0 & cs0 & Ec) Hnan.
  destruct backgrounds_of_sorted as [El Ed]. rewrite El, Ed. clear El Ed.
  pose proof (sort_descending luminance colors Hnan) as S.
  change (sort (fun a b => luminance b - luminance a)%float colors)
    with (sortColorsByLuminance Math_pow colors) in S.
  assert (P : forall x, In x (sortColorsByLuminance Math_pow colors) <-> In x colors)
    by (intros x; apply sort_by_in).
  assert (Len : List.length (sortColorsByLuminance Math_pow colors) = List.length colors)
    by apply sort_by_length.
  set (sorted := sortColorsByLuminance Math_pow colors) in *.
  assert (Lpos : (1 <= List.length sorted)%nat) by (rewrite Len, Ec; cbn; lia).
  pose proof (third_bounds _ Lpos) as T.
  unfold slice_first. rewrite hd_error_firstn by lia. rewrite last_slice_last by lia.
  destruct (hd_error sorted) as [cl|] eqn:Hl.
  2:{ destruct sorted; [cbn in Lpos; lia|discriminate]. }
  destruct (hd_error (rev sorted)) as [cd|] eqn:Hd.
  2:{ destruct (rev sorted) eqn:R; [|discriminate].
      apply (f_equal (@List.length _)) in R. rewrite length_rev in R. cbn in R. lia. }
  exists cl, cd.
  assert (Il : In cl sorted) by (destruct sorted; [discriminate|injection Hl as ->; left; reflexivity]).
  assert (Id : In cd sorted).
  { apply in_rev. destruct (rev sorted); [discriminate|injection Hd as ->; left; reflexivity]. }
  split; [apply P, Il|]. split; [apply P, Id|].
  split; [|split; [|split; reflexivity]].
  - intros c Hc. apply (descending_head luminance sorted cl S Hl). apply P, Hc.
  - intros c Hc. apply (descending_last luminance sorted cd S Hd). apply P, Hc.
Qed.

(** X25: with a single colour in the input, the light and the dark theme
    have the same background, that colour. *)
Theorem single_colour_backgrounds (c : ColorWithFrequency) :
  colors = [c] ->
  theme.(light).(background) = formatHslForShadcn (rgbToHsl c.(color))
  /\ theme.(dark).(background) = theme.(light).(background).
Proof.
  intros E. destruct backgrounds_of_sorted as [El Ed]. rewrite El, Ed, E.
  split; reflexivity.
Qed.
End Backgrounds.

Lemma backgrounds_extreme_example :
  let colorStrings := ["#808080"; "#ffffff"; "#000000"; "#808080"] in
  let colors := colorMap colorStrings in
  let theme := generateTheme sample_pow colorStrings in
  let luminance (c : ColorWithFrequency) := getLuminance sample_pow c.(color) in
  exists lightest darkest,
    In lightest colors /\ In darkest colors
    /\ (forall c, In c colors -> (luminance lightest <? luminance c)%float = false)
    /\ (forall c, In c colors -> (luminance c <? luminance darkest)%float = false)
    /\ theme.(light).(background) = formatHslForShadcn (rgbToHsl lightest.(color))
    /\ theme.(dark).(background) = formatHslForShadcn (rgbToHsl darkest.(color)).
Proof.
  apply (backgrounds_extreme sample_pow ["#808080"; "#ffffff"; "#000000"; "#808080"]).
  - eexists. eexists. vm_compute. reflexivity.
  - vm_compute. reflexivity.
Defined.

Lemma single_colour_backgrounds_example :
  (generateTheme sample_pow ["#336699"; "#369"]).(dark).(background)
  = (generateTheme sample_pow ["#336699"; "#369"]).(light).(background).
Proof.
  refine (proj2 (single_colour_backgrounds sample_pow ["#336699"; "#369"] _ _)).
  vm_compute. reflexivity.
Defined.
End Order.

(** ** The range of [rgbToHsl] *)

Module HslRange.
Import FloatOrder RoundTrip.
Local Open Scope list_scope.
Local Open Scope float_scope.

Lemma range_staged (R G B fM fm h0 : float) :
  Math_max3 (R / 255) (G / 255) (B / 255) = fM ->
  Math_min3 (R / 255) (G / 255) (B / 255) = fm ->
  (fM =? fm) = false ->
  hue_raw (R / 255) (G / 255) (B / 255) fM fm = h0 ->
  percent (if 0.5 <? (fM + fm) / 2 then (fM - fm) / (2 - fM - fm)
           else (fM - fm) / (fM + fm)) = true ->
  percent ((fM + fm) / 2) = true ->
  hue_in_range h0 = true ->
  hsl_in_range (rgbToHsl {| r := R; g := G; b := B |}) = true.
Proof.
  intros Hmax Hmin Hne Hh Hs Hl H.
  rewrite rgbToHsl_colourful; cbn [r g b]; rewrite ?Hmax, ?Hmin; [|exact Hne].
  rewrite Hh. unfold hsl_in_range. cbn [h s l].
  unfold hue_in_range, percent in *. cbv zeta in *.
  apply andb_true_iff in H, Hs, Hl.
  destruct H as [H1 H2], Hs as [S1 S2], Hl as [L1 L2].
  rewrite H1, H2, S1, S2, L1, L2. reflexivity.
Qed.

Lemma range_pair_sound channels FM Fmid Fm :
  range_pair channels FM Fm = true -> In Fmid channels ->
  (Fm / 255 <? Fmid / 255) = true -> (Fmid / 255 <? FM / 255) = true ->
  hsl_in_range (rgbToHsl {| r := FM; g := Fmid; b := Fm |}) = true
  /\ hsl_in_range (rgbToHsl {| r := FM; g := Fm; b := Fmid |}) = true
  /\ hsl_in_range (rgbToHsl {| r := Fmid; g := FM; b := Fm |}) = true
  /\ hsl_in_range (rgbToHsl {| r := Fm; g := FM; b := Fmid |}) = true
  /\ hsl_in_range (rgbToHsl {| r := Fmid; g := Fm; b := FM |}) = true
  /\ hsl_in_range (rgbToHsl {| r := Fm; g := Fmid; b := FM |}) = true.
Proof.
  intros H Hin F1 F2.
  pose proof (ltb_trans _ _ _ F1 F2) as F3.
  pose proof (ltb_asym _ _ F1) as A1.
  pose proof (ltb_asym _ _ F2) as A2.
  pose proof (ltb_asym _ _ F3) as A3.
  destruct (ltb_eqb _ _ F2) as [E1 E0].
  destruct (ltb_eqb _ _ F3) as [E2 _].
  unfold range_pair in H. cbv zeta in H. rewrite F3 in H.
  apply andb_true_iff in H. destruct H as [H Hf].
  apply andb_true_iff in H. destruct H as [Hs Hl].
  rewrite forallb_forall in Hf. specialize (Hf Fmid Hin). cbv beta in Hf.
  rewrite F1, F2 in Hf. cbn [andb] in Hf.
  repeat rewrite andb_true_iff in Hf.
  destruct Hf as [[[[[H1 H2] H3] H4] H5] H6].
  repeat split.
  all: match goal with
       | Hk : hue_in_range ?h0 = true |- hsl_in_range (rgbToHsl {| r := ?R; g := ?G; b := ?B |}) = true =>
           apply (range_staged R G B (FM / 255) (Fm / 255) h0);
             [ unfold Math_max3, max2;
               repeat (first [rewrite F1|rewrite F2|rewrite F3|rewrite A1|rewrite A2|rewrite A3];
                       cbv iota); reflexivity
             | unfold Math_min3, min2;
               repeat (first [rewrite F1|rewrite F2|rewrite F3|rewrite A1|rewrite A2|rewrite A3];
                       cbv iota); reflexivity
             | exact E2
             | unfold hue_raw;
               repeat (first [rewrite E0|rewrite E1|rewrite E2|rewrite F1|rewrite A1]; cbv iota);
               reflexivity
             | exact Hs
             | exact Hl
             | exact Hk ]
       end.
Qed.

Lemma ranges_distinct : all_pairs (range_pair channels) channels = true.
Proof. vm_compute. reflexivity. Qed.

Lemma ranges_two_equal : all_pairs two_equal_range channels = true.
Proof. vm_compute. reflexivity. Qed.

Lemma range_distinct_channels a b c :
  (a < b)%nat -> (b < c)%nat -> (c <= 255)%nat ->
  hsl_in_range (rgbToHsl (rgb_of c b a)) = true
  /\ hsl_in_range (rgbToHsl (rgb_of c a b)) = true
  /\ hsl_in_range (rgbToHsl (rgb_of b c a)) = true
  /\ hsl_in_range (rgbToHsl (rgb_of a c b)) = true
  /\ hsl_in_range (rgbToHsl (rgb_of b a c)) = true
  /\ hsl_in_range (rgbToHsl (rgb_of a b c)) = true.
Proof.
  intros Hab Hbc Hc.
  assert (Ia : In (number_of_nat a) channels) by (apply in_channels; lia).
  assert (Ib : In (number_of_nat b) channels) by (apply in_channels; lia).
  assert (Ic : In (number_of_nat c) channels) by (apply in_channels; lia).
  exact (range_pair_sound channels (number_of_nat c) (number_of_nat b)
           (number_of_nat a)
           (all_pairs_spec _ _ _ _ ranges_distinct Ic Ia) Ib
           (scaled_increasing a b Hab ltac:(lia))
           (scaled_increasing b c Hbc Hc)).
Qed.

Lemma range_equal_channels a b :
  (a <= 255)%nat -> (b <= 255)%nat ->
  hsl_in_range (rgbToHsl (rgb_of a a b)) = true
  /\ hsl_in_range (rgbToHsl (rgb_of a b a)) = true
  /\ hsl_in_range (rgbToHsl (rgb_of b a a)) = true.
Proof.
  intros Ha Hb.
  pose proof (all_pairs_spec _ _ _ _ ranges_two_equal
                (in_channels a Ha) (in_channels b Hb)) as H.
  apply andb_true_iff in H. destruct H as [H H3].
  apply andb_true_iff in H. destruct H as [H1 H2].
  split; [exact H1|]. split; [exact H2|exact H3].
Qed.

Lemma rgbToHsl_in_range (R G B : nat) :
  (R <= 255)%nat -> (G <= 255)%nat -> (B <= 255)%nat ->
  hsl_in_range (rgbToHsl (rgb_of R G B)) = true.
Proof.
  intros HR HG HB.
  destruct (Nat.eq_dec R G) as [E|NRG].
  { rewrite E. exact (proj1 (range_equal_channels G B HG HB)). }
  destruct (Nat.eq_dec G B) as [E|NGB].
  { rewrite <- E. exact (proj2 (proj2 (range_equal_channels G R HG HR))). }
  destruct (Nat.eq_dec R B) as [E|NRB].
  { rewrite <- E. exact (proj1 (proj2 (range_equal_channels R G HR HG))). }
  destruct (lt_dec R G) as [RG|RG], (lt_dec G B) as [GB|GB], (lt_dec R B) as [RB|RB].
  - exact (proj2 (proj2 (proj2 (proj2 (proj2
      (range_distinct_channels R G B RG GB HB)))))).
  - exfalso; lia.
  - assert (L1 : (R < B)%nat) by lia. assert (L2 : (B < G)%nat) by lia.
    exact (proj1 (proj2 (proj2 (proj2 (range_distinct_channels R B G L1 L2 HG))))).
  - assert (L1 : (B < R)%nat) by lia.
    exact (proj1 (proj2 (proj2 (range_distinct_channels B R G L1 RG HG)))).
  - assert (L1 : (G < R)%nat) by lia.
    exact (proj1 (proj2 (proj2 (proj2 (proj2
      (range_distinct_channels G R B L1 RB HB)))))).
  - assert (L1 : (B < R)%nat) by lia.
    exact (proj1 (proj2 (range_distinct_channels G B R GB L1 HR))).
  - exfalso; lia.
  - assert (L1 : (B < G)%nat) by lia. assert (L2 : (G < R)%nat) by lia.
    exact (proj1 (range_distinct_channels B G R L1 L2 HR)).
Qed.

(** X6: for every colour of integer channels from 0 to 255, [rgbToHsl] gives
    a hue from 0 up to, not including, 360, and a saturation and a lightness
    from 0 to 100. *)
Theorem rgbToHsl_range (R G B : nat) :
  (R <= 255)%nat -> (G <= 255)%nat -> (B <= 255)%nat ->
  ((0 <=? (rgbToHsl (rgb_of R G B)).(h)) = true
   /\ ((rgbToHsl (rgb_of R G B)).(h) <? 360) = true)
  /\ ((0 <=? (rgbToHsl (rgb_of R G B)).(s)) = true
      /\ ((rgbToHsl (rgb_of R G B)).(s) <=? 100) = true)
  /\ ((0 <=? (rgbToHsl (rgb_of R G B)).(l)) = true
      /\ ((rgbToHsl (rgb_of R G B)).(l) <=? 100) = true).
Proof.
  intros HR HG HB. pose proof (rgbToHsl_in_range R G B HR HG HB) as H.
  unfold hsl_in_range in H. repeat rewrite andb_true_iff in H.
  destruct H as [[[[[H1 H2] H3] H4] H5] H6]. auto.
Qed.

(** The red nearest to the end of the circle: red 255, green 0, blue 1. *)
Lemma rgbToHsl_range_example :
  ((0 <=? (rgbToHsl (rgb_of 255 0 1)).(h)) = true
   /\ ((rgbToHsl (rgb_of 255 0 1)).(h) <? 360) = true)
  /\ ((0 <=? (rgbToHsl (rgb_of 255 0 1)).(s)) = true
      /\ ((rgbToHsl (rgb_of 255 0 1)).(s) <=? 100) = true)
  /\ ((0 <=? (rgbToHsl (rgb_of 255 0 1)).(l)) = true
      /\ ((rgbToHsl (rgb_of 255 0 1)).(l) <=? 100) = true).
Proof. apply (rgbToHsl_range 255 0 1); lia. Defined.


(** *** Grays *)

Lemma max2_same x : is_nan x = false -> max2 x x = x.
Proof.
  intros H. unfold max2. rewrite FloatFacts.ltb_refl_false.
  unfold is_nan in H. apply negb_false_iff in H. rewrite H.
  destruct (get_sign x); reflexivity.
Qed.

Lemma min2_same x : is_nan x = false -> min2 x x = x.
Proof.
  intros H. unfold min2. rewrite FloatFacts.ltb_refl_false.
  unfold is_nan in H. apply negb_false_iff in H. rewrite H.
  destruct (get_sign x); reflexivity.
Qed.

(** X7: a gray, of three equal channels, has hue 0 and saturation 0, and the
    grouping by hue leaves it out. *)
Theorem rgbToHsl_gray (v : float) :
  is_nan (v / 255) = false ->
  (rgbToHsl {| r := v; g := v; b := v |}).(h) = 0
  /\ (rgbToHsl {| r := v; g := v; b := v |}).(s) = 0
  /\ forall c, c.(hsl) = rgbToHsl {| r := v; g := v; b := v |} -> skipped c = true.
Proof.
  intros H.
  assert (E : rgbToHsl {| r := v; g := v; b := v |}
              = {| h := 0; s := 0; l := Math_round ((v / 255 + v / 255) / 2 * 100 * 10) / 10 |}).
  { unfold rgbToHsl. cbn [r g b]. unfold Math_max3, Math_min3.
    rewrite !max2_same, !min2_same by exact H. cbv zeta.
    unfold is_nan in H. apply negb_false_iff in H. rewrite H. reflexivity. }
  rewrite E. cbn [h s]. repeat split.
  intros c Hc. unfold skipped. rewrite Hc. reflexivity.
Qed.

Lemma rgbToHsl_gray_example :
  (rgbToHsl {| r := 128; g := 128; b := 128 |}).(h) = 0
  /\ (rgbToHsl {| r := 128; g := 128; b := 128 |}).(s) = 0.
Proof.
  split; apply (rgbToHsl_gray 128); reflexivity.
Defined.

(** *** The hue buckets *)

Lemma in_upto n : forall start k,
  (start <= k < start + Z.of_nat n)%Z -> In k (upto n start).
Proof.
  induction n as [|n IH]; intros start k H; [lia|].
  cbn [upto]. destruct (Z.eq_dec start k) as [E|E]; [left; exact E|right].
  apply IH. lia.
Qed.

Lemma buckets_ok : forallb bucket_ok (upto 3601 0) = true.
Proof. vm_compute. reflexivity. Qed.

Lemma hueBucket_of c : hueBucket c = hueBucketOf c.(hsl).(h).
Proof. reflexivity. Qed.

(** X18: every hue from 0 to 360 in tenths of a degree falls in one of
    twelve buckets, keyed 0, 30, ..., 330: the key is within 15 of the hue,
    and the hues from 345 up share the bucket of key 0. *)
Theorem hueBucket_keys (c : ColorWithFrequency) (k : Z) :
  (0 <= k <= 3600)%Z -> c.(hsl).(h) = tenths k ->
  In (hueBucket c) bucketKeys
  /\ ((abs (c.(hsl).(h) - hueBucket c) <=? 15) = true
      \/ ((345 <=? c.(hsl).(h)) = true /\ hueBucket c = 0)).
Proof.
  intros Hk E. rewrite hueBucket_of, E.
  pose proof buckets_ok as H. rewrite forallb_forall in H.
  specialize (H k). unfold bucket_ok in H. cbv zeta in H.
  assert (Hin : In k (upto 3601 0)) by (apply in_upto; lia).
  specialize (H Hin). apply andb_true_iff in H. destruct H as [H1 H2].
  split.
  - apply existsb_exists in H1. destruct H1 as (x & Hx & Ex).
    apply Leibniz.eqb_spec in Ex. rewrite Ex. exact Hx.
  - apply orb_true_iff in H2. destruct H2 as [H2|H2]; [left; exact H2|right].
    apply andb_true_iff in H2. destruct H2 as [H2 H3].
    apply Leibniz.eqb_spec in H3. split; assumption.
Qed.

Lemma hueBucket_keys_example :
  let c := {| color := rgb_of 255 0 8; hsl := rgbToHsl (rgb_of 255 0 8);
              frequency := 1; hex := "#ff0008" |} in
  c.(hsl).(h) = tenths 3581 /\ hueBucket c = 0.
Proof.
  cbv zeta. split; [vm_compute; reflexivity|].
  destruct (hueBucket_keys
              {| color := rgb_of 255 0 8; hsl := rgbToHsl (rgb_of 255 0 8);
                 frequency := 1; hex := "#ff0008" |} 3581) as [_ [H|[_ H]]].
  - lia.
  - vm_compute. reflexivity.
  - vm_compute in H. discriminate H.
  - exact H.
Defined.
End HslRange.

(** ** The buckets of the quantizer and the pixels of an image *)

Module Partition.
Import SortFacts Quantize.
Local Open Scope list_scope.
Local Open Scope nat_scope.

Lemma allColors_perm l l' : Permutation l l' -> Permutation (allColors l) (allColors l').
Proof.
  unfold allColors. induction 1 as [|x l l' _ IH|x y l|l l' l'' _ IH1 _ IH2]; cbn [flat_map].
  - reflexivity.
  - apply Permutation_app_head, IH.
  - rewrite !app_assoc. apply Permutation_app_tail, Permutation_app_comm.
  - etransitivity; eassumption.
Qed.

Lemma allColors_app l l' : allColors (l ++ l') = allColors l ++ allColors l'.
Proof. apply flat_map_app. Qed.

Lemma split_loop_partition n turns : forall buckets,
  well_formed buckets ->
  Permutation (allColors (split_loop turns n buckets)) (allColors buckets)
  /\ well_formed (split_loop turns n buckets).
Proof.
  induction turns as [|turns IH]; intros buckets W; [split; [reflexivity|exact W]|].
  rewrite split_loop_step.
  destruct (number_of_nat (List.length buckets) <? n)%float; [|split; [reflexivity|exact W]].
  pose proof (sort_by_perm byCount buckets) as HP.
  assert (Ws : well_formed (sort_by byCount buckets))
    by (unfold well_formed; rewrite HP; exact W).
  rewrite <- (allColors_perm _ _ HP).
  destruct (sort_by byCount buckets) as [|bucket rest] eqn:Es; [split; [reflexivity|exact Ws]|].
  destruct (size bucket <? 2) eqn:E2; [split; [reflexivity|exact Ws]|].
  apply Nat.ltb_ge in E2. cbv zeta.
  set (sorted := byChannel bucket.(colors)).
  destruct (split_well_formed bucket rest Ws E2) as (W0 & _ & _). cbv zeta in W0. fold sorted in W0.
  destruct (IH (mkBucket (firstn (List.length sorted / 2) sorted)
                  :: rest ++ [mkBucket (skipn (List.length sorted / 2) sorted)]) W0) as [P W'].
  split; [|exact W'].
  rewrite P. unfold allColors. cbn [flat_map colors mkBucket].
  rewrite flat_map_app. cbn [flat_map colors mkBucket]. rewrite app_nil_r.
  fold (allColors rest).
  transitivity ((firstn (List.length sorted / 2) sorted
                 ++ skipn (List.length sorted / 2) sorted) ++ allColors rest).
  - rewrite <- app_assoc. apply Permutation_app_head, Permutation_app_comm.
  - rewrite firstn_skipn. apply Permutation_app_tail.
    subst sorted. unfold byChannel, sort. apply sort_by_perm.
Qed.

(** X13: the colours that [medianCutQuantize] returns are the averages of
    buckets that hold, between them, each pixel once, and each at least one. *)
Theorem medianCutQuantize_partition (pixels : list RGB) (maxColors : float) :
  pixels <> [] ->
  medianCutQuantize pixels maxColors = map ColorUtils.average (bucketsOf pixels maxColors)
  /\ Permutation (allColors (bucketsOf pixels maxColors)) pixels
  /\ Forall (fun bucket => bucket.(colors) <> []) (bucketsOf pixels maxColors).
Proof.
  intros Hp. destruct pixels as [|p pixels]; [congruence|].
  split; [reflexivity|].
  destruct (split_loop_partition maxColors (List.length (p :: pixels))
              [mkBucket (p :: pixels)]) as [P W].
  { constructor; [|constructor]. split; [reflexivity|cbn; lia]. }
  split.
  - unfold bucketsOf. rewrite P. unfold allColors. cbn [flat_map colors mkBucket].
    rewrite app_nil_r. reflexivity.
  - unfold bucketsOf. apply Forall_forall. intros bucket Hb.
    unfold well_formed in W. rewrite Forall_forall in W.
    destruct (W bucket Hb) as [_ S]. unfold size in S.
    destruct bucket.(colors); [cbn in S; lia|discriminate].
Qed.

Lemma medianCutQuantize_partition_example :
  let pixels := [ {| r := 1; g := 2; b := 3 |}; {| r := 10; g := 20; b := 30 |};
                  {| r := 100; g := 50; b := 0 |} ]%float in
  medianCutQuantize pixels 2 = map ColorUtils.average (bucketsOf pixels 2)
  /\ Permutation (allColors (bucketsOf pixels 2)) pixels
  /\ Forall (fun bucket => bucket.(colors) <> []) (bucketsOf pixels 2).
Proof.
  apply (medianCutQuantize_partition
           [ {| r := 1; g := 2; b := 3 |}; {| r := 10; g := 20; b := 30 |};
             {| r := 100; g := 50; b := 0 |} ]%float 2%float).
  discriminate.
Defined.


(** *** The pixels of an image *)








End Partition.

(** ** Colours in a CSS text *)

Module Css.
Import Hex Parse.
Local Open Scope list_scope.

Lemma matchAll_In at_head : forall text k m,
  In m (matchAll at_head k text) -> exists l' rest, at_head l' = Some (m, rest).
Proof.
  induction text as [|c l IH]; intros k m H; [cbn in H; destruct H|].
  cbn [matchAll] in H. destruct k as [|k]; [|exact (IH _ _ H)].
  destruct (at_head (c :: l)) as [[m' rest]|] eqn:E; [|exact (IH _ _ H)].
  destruct H as [<-|H]; [eauto|exact (IH _ _ H)].
Qed.

(** No match where no character can start one. *)
Lemma matchAll_none at_head (starts : ascii -> bool) :
  (forall c l, starts c = false -> at_head (c :: l) = None) ->
  forall text k, forallb (fun c => negb (starts c)) text = true -> matchAll at_head k text = [].
Proof.
  intros Hs. induction text as [|c l IH]; intros k H; [reflexivity|].
  cbn [forallb] in H. apply andb_true_iff in H. destruct H as [Hc H].
  apply negb_true_iff in Hc.
  cbn [matchAll]. destruct k as [|k]; [|apply IH, H].
  rewrite (Hs c l Hc). apply IH, H.
Qed.

Lemma matchAll_skip at_head : forall text k,
  (List.length text <= k)%nat -> matchAll at_head k text = [].
Proof.
  induction text as [|c l IH]; intros k H; [reflexivity|].
  cbn [List.length] in H. destruct k as [|k]; [lia|]. cbn [matchAll]. apply IH. lia.
Qed.

(** *** The set of colours *)

Lemma add_In colors x y : In y (setAdd colors x) <-> In y colors \/ y = x.
Proof.
  unfold setAdd. destruct (existsb (String.eqb x) colors) eqn:E.
  - split; [auto|]. intros [H|E']; [exact H|subst y].
    apply existsb_exists in E. destruct E as (z & Hz & Ez).
    apply String.eqb_eq in Ez. subst. exact Hz.
  - rewrite in_app_iff. cbn [In]. split; intros [H|H]; auto.
    + destruct H as [<-|[]]. auto.
Qed.

Lemma add_NoDup colors x : NoDup colors -> NoDup (setAdd colors x).
Proof.
  intros H. unfold setAdd. destruct (existsb (String.eqb x) colors) eqn:E; [exact H|].
  apply NoDup_app; [exact H|repeat constructor; intros []|].
  intros z Hz [Ez|[]].
  assert (T : existsb (String.eqb x) colors = true).
  { apply existsb_exists. exists z. split; [exact Hz|]. rewrite Ez. apply String.eqb_refl. }
  congruence.
Qed.

Lemma fold_add_NoDup xs : forall colors, NoDup colors -> NoDup (fold_left setAdd xs colors).
Proof.
  induction xs as [|x xs IH]; intros colors H; [exact H|].
  cbn [fold_left]. apply IH, add_NoDup, H.
Qed.

Lemma fold_add_In xs : forall colors y,
  In y (fold_left setAdd xs colors) <-> In y colors \/ In y xs.
Proof.
  induction xs as [|x xs IH]; intros colors y; cbn [fold_left In]; [tauto|].
  rewrite IH, add_In. split; intros H; intuition auto.
Qed.

Lemma fold_add_map {A} (f : A -> string) ms : forall colors,
  fold_left (fun colors m => setAdd colors (f m)) ms colors = fold_left setAdd (map f ms) colors.
Proof.
  induction ms as [|m ms IH]; intros colors; [reflexivity|]. cbn [fold_left map]. apply IH.
Qed.

Lemma extractColorsFromCSS_matches css :
  extractColorsFromCSS css
  = fold_left setAdd (map (fun m => str (toLowerCase m)) (allMatches (chars css))) [].
Proof.
  unfold extractColorsFromCSS, allMatches.
  generalize (@nil string). induction colorPatterns as [|p ps IH]; intros colors; [reflexivity|].
  cbn [fold_left flat_map]. rewrite IH.
    rewrite (fold_add_map (fun m => str (toLowerCase m))), map_app, fold_left_app. reflexivity.
Qed.

Lemma uniqueColors_matches css :
  uniqueColors css
  = fold_left setAdd (map (fun m => str (toLowerCase m)) (allMatches (chars css))) [].
Proof.
  unfold uniqueColors, allMatches. f_equal. f_equal.
  rewrite <- (app_nil_l (flat_map _ colorPatterns)).
  generalize (@nil (list ascii)). induction colorPatterns as [|p ps IH]; intros acc.
  - cbn. rewrite app_nil_r. reflexivity.
  - cbn [fold_left flat_map]. rewrite IH, app_assoc. reflexivity.
Qed.

(** X9: the colours extracted from a CSS text are in lower case and no
    colour comes twice; each is a match of one of the four patterns. *)
Theorem extractColorsFromCSS_set (css : string) :
  NoDup (extractColorsFromCSS css)
  /\ (forall s, In s (extractColorsFromCSS css) ->
        toLowerCase (chars s) = chars s
        /\ exists pattern m, In pattern colorPatterns
             /\ In m (matchAll pattern 0 (chars css)) /\ s = str (toLowerCase m)).
Proof.
  rewrite extractColorsFromCSS_matches.
  split; [apply fold_add_NoDup; constructor|].
  intros s H. apply fold_add_In in H. destruct H as [[]|H].
  apply in_map_iff in H. destruct H as (m & <- & Hm).
  split; [rewrite chars_str; apply toLowerCase_idem|].
  unfold allMatches in Hm. apply in_flat_map in Hm. destruct Hm as (p & Hp & Hm).
  exists p, m. auto.
Qed.


(** X16: the API function extracts from a text the colours that
    [extractColorsFromCSS] extracts, in the same order. *)
Theorem uniqueColors_agrees (css : string) :
  uniqueColors css = extractColorsFromCSS css.
Proof.
  rewrite uniqueColors_matches, extractColorsFromCSS_matches. reflexivity.
Qed.

(** *** Hex colours in a CSS text *)

Lemma char_facts_all : forallb char_facts all_ascii = true.
Proof. vm_compute. reflexivity. Qed.

Lemma hex_digit_facts c :
  is_hex_digit c = true ->
  is_word c = true /\ Ascii.eqb c "#" = false /\ Ascii.eqb "r" (lower_char c) = false
  /\ Ascii.eqb "h" (lower_char c) = false /\ is_space c = false.
Proof.
  intros H. pose proof (for_all_ascii _ char_facts_all c) as F.
  unfold char_facts in F. apply andb_true_iff in F. destruct F as [F _].
  rewrite H in F. cbn [implb] in F. repeat rewrite andb_true_iff in F.
  destruct F as [[[[F1 F2] F3] F4] F5].
  apply negb_true_iff in F2, F3, F4, F5. auto.
Qed.

Lemma hex_at_other n c text : Ascii.eqb c "#" = false -> hex_at n (c :: text) = None.
Proof.
  intros H. unfold hex_at.
  destruct c as [[] [] [] [] [] [] [] []]; try reflexivity. discriminate H.
Qed.

Lemma matched_none text : matched text None = None.
Proof. reflexivity. Qed.

Lemma rgb_css_at_other c text :
  Ascii.eqb "r" (lower_char c) = false -> rgb_css_at (c :: text) = None.
Proof.
  intros H. unfold rgb_css_at. cbn [lit_ci chars list_ascii_of_string]. rewrite H. reflexivity.
Qed.

Lemma hsl_css_at_other c text :
  Ascii.eqb "h" (lower_char c) = false -> hsl_css_at (c :: text) = None.
Proof.
  intros H. unfold hsl_css_at. cbn [lit_ci chars list_ascii_of_string]. rewrite H. reflexivity.
Qed.

Lemma no_match_in_digits ds k :
  forallb is_hex_digit ds = true ->
  (forall n, matchAll (hex_at n) k ds = [])
  /\ matchAll rgb_css_at k ds = [] /\ matchAll hsl_css_at k ds = [].
Proof.
  intros H. repeat split; [intros n|..].
  - apply (matchAll_none _ (fun c => Ascii.eqb c "#")); [apply hex_at_other|].
    apply forallb_forall. intros c Hc. rewrite forallb_forall in H.
    destruct (hex_digit_facts c (H c Hc)) as (_ & E & _). rewrite E. reflexivity.
  - apply (matchAll_none _ (fun c => Ascii.eqb "r" (lower_char c))); [apply rgb_css_at_other|].
    apply forallb_forall. intros c Hc. rewrite forallb_forall in H.
    destruct (hex_digit_facts c (H c Hc)) as (_ & _ & E & _). rewrite E. reflexivity.
  - apply (matchAll_none _ (fun c => Ascii.eqb "h" (lower_char c))); [apply hsl_css_at_other|].
    apply forallb_forall. intros c Hc. rewrite forallb_forall in H.
    destruct (hex_digit_facts c (H c Hc)) as (_ & _ & _ & E & _). rewrite E. reflexivity.
Qed.

Lemma hex_at_run n ds :
  forallb is_hex_digit ds = true ->
  hex_at n ("#"%char :: ds)
  = if (List.length ds =? n)%nat then Some ("#"%char :: ds, []) else None.
Proof.
  intros H. unfold hex_at.
  destruct (Nat.lt_trichotomy (List.length ds) n) as [L|[L|L]].
  - rewrite firstn_all2 by lia.
    replace (List.length ds =? n)%nat with false by (symmetry; apply Nat.eqb_neq; lia).
    reflexivity.
  - subst n. rewrite firstn_all, skipn_all, Nat.eqb_refl, H. reflexivity.
  - replace (List.length ds =? n)%nat with false by (symmetry; apply Nat.eqb_neq; lia).
    rewrite length_firstn, Nat.min_l by lia. rewrite Nat.eqb_refl.
    assert (B : boundary (skipn n ds) = false).
    { destruct (skipn n ds) as [|c t] eqn:E.
      - apply (f_equal (@List.length _)) in E. rewrite length_skipn in E. cbn in E. lia.
      - cbn [boundary]. apply negb_false_iff.
        assert (Hc : In c ds).
        { rewrite <- (firstn_skipn n ds), E. apply in_or_app. right. left. reflexivity. }
        rewrite forallb_forall in H. apply (hex_digit_facts c (H c Hc)). }
    rewrite B, andb_false_r. reflexivity.
Qed.

(** X10: of a text that is [#] and a run of hex digits, the colour extracted
    is the text itself in lower case when the digits are six or three, and
    there is none otherwise: not for four digits, not for eight. *)
Theorem extractColorsFromCSS_hex (ds : list ascii) :
  forallb is_hex_digit ds = true ->
  extractColorsFromCSS (str ("#"%char :: ds))
  = if (List.length ds =? 6)%nat || (List.length ds =? 3)%nat
    then [str (toLowerCase ("#"%char :: ds))] else [].
Proof.
  intros H. unfold extractColorsFromCSS, colorPatterns. rewrite chars_str.
  cbn [fold_left matchAll].
  rewrite !hex_at_run by exact H.
  rewrite rgb_css_at_other, hsl_css_at_other by reflexivity.
  destruct (no_match_in_digits ds 0 H) as (N1 & N2 & N3).
  rewrite N2, N3.
  destruct (List.length ds =? 6)%nat eqn:E6.
  - apply Nat.eqb_eq in E6.
    replace (List.length ds =? 3)%nat with false by (symmetry; apply Nat.eqb_neq; lia).
    rewrite N1. cbn [fold_left List.length Nat.sub].
    rewrite matchAll_skip by lia. reflexivity.
  - destruct (List.length ds =? 3)%nat eqn:E3.
    + rewrite N1. cbn [fold_left List.length Nat.sub].
      apply Nat.eqb_eq in E3. rewrite matchAll_skip by lia. reflexivity.
    + rewrite !N1. reflexivity.
Qed.

Lemma extractColorsFromCSS_hex_example :
  extractColorsFromCSS "#FFAA0080" = [] /\ extractColorsFromCSS "#FA0" = ["#fa0"].
Proof.
  split.
  - apply (extractColorsFromCSS_hex (chars "FFAA0080")). reflexivity.
  - apply (extractColorsFromCSS_hex (chars "FA0")). reflexivity.
Defined.


Lemma trimStart_plain text :
  forallb (fun c => negb (is_space c)) text = true -> trimStart text = text.
Proof.
  destruct text as [|c t]; [reflexivity|]. cbn [forallb]. intros H.
  apply andb_true_iff in H. destruct H as [H _]. apply negb_true_iff in H.
  apply trimStart_head, H.
Qed.

Lemma trim_plain text :
  forallb (fun c => negb (is_space c)) text = true -> trim text = text.
Proof.
  intros H. unfold trim. rewrite (trimStart_plain text H).
  rewrite trimStart_plain; [apply rev_involutive|].
  apply forallb_forall. intros c Hc. apply in_rev in Hc.
  rewrite forallb_forall in H. apply H, Hc.
Qed.

Lemma trim_ends c z mid :
  is_space c = false -> is_space z = false ->
  trim (c :: mid ++ [z]) = c :: mid ++ [z].
Proof.
  intros Hc Hz. unfold trim. rewrite trimStart_head by exact Hc.
  rewrite app_comm_cons, rev_app_distr. cbn [rev app].
  rewrite trimStart_head by exact Hz.
  change (z :: rev mid ++ [c]) with ([z] ++ rev (c :: mid)).
  rewrite rev_app_distr, rev_involutive. reflexivity.
Qed.

Lemma hex_at_shape n text m rest :
  hex_at n text = Some (m, rest) ->
  exists ds, m = "#"%char :: ds /\ List.length ds = n /\ forallb is_hex_digit ds = true.
Proof.
  unfold hex_at. destruct text as [|c t]; [discriminate|].
  destruct c as [[] [] [] [] [] [] [] []]; try discriminate.
  destruct ((List.length (firstn n t) =? n)%nat && forallb is_hex_digit (firstn n t)
            && boundary (skipn n t)) eqn:E; [|discriminate].
  intros H. injection H as <- <-.
  repeat rewrite andb_true_iff in E. destruct E as [[E1 E2] _].
  apply Nat.eqb_eq in E1. eauto.
Qed.

Lemma matched_shape text r m rest :
  matched text r = Some (m, rest) -> exists k, m = firstn k text.
Proof.
  unfold matched. destruct r; [|discriminate]. cbn. intros H. injection H as <- <-. eauto.
Qed.

Lemma rgb_css_at_shape text m rest :
  rgb_css_at text = Some (m, rest) ->
  m = [] \/ exists c t, m = c :: t /\ lower_char c = "r"%char.
Proof.
  intros H. destruct text as [|c t]; [discriminate H|].
  destruct (Ascii.eqb "r" (lower_char c)) eqn:E.
  - apply Ascii.eqb_eq in E. apply matched_shape in H. destruct H as [[|k] ->]; [left; reflexivity|].
    right. cbn [firstn]. eauto.
  - rewrite (rgb_css_at_other c t E) in H. discriminate H.
Qed.

Lemma hsl_css_at_shape text m rest :
  hsl_css_at text = Some (m, rest) ->
  m = [] \/ exists c t, m = c :: t /\ lower_char c = "h"%char.
Proof.
  intros H. destruct text as [|c t]; [discriminate H|].
  destruct (Ascii.eqb "h" (lower_char c)) eqn:E.
  - apply Ascii.eqb_eq in E. apply matched_shape in H. destruct H as [[|k] ->]; [left; reflexivity|].
    right. cbn [firstn]. eauto.
  - rewrite (hsl_css_at_other c t E) in H. discriminate H.
Qed.

Lemma parseColor_hex_digits ds :
  forallb is_hex_digit ds = true ->
  List.length ds = 3%nat \/ List.length ds = 6%nat ->
  exists R G B, (R <= 255)%nat /\ (G <= 255)%nat /\ (B <= 255)%nat
    /\ parseColor (str (toLowerCase ("#"%char :: ds))) = Some (rgb_of R G B).
Proof.
  intros H L.
  assert (Hl : forallb is_hex_digit (toLowerCase ds) = true)
    by (unfold toLowerCase; rewrite forallb_lower; exact H).
  assert (Ll : List.length (toLowerCase ds) = 3%nat \/ List.length (toLowerCase ds) = 6%nat)
    by (unfold toLowerCase; rewrite length_map; exact L).
  destruct (hexBody_digits _ Hl Ll) as (R & G & B & HR & HG & HB & E).
  exists R, G, B. repeat (split; [assumption|]).
  unfold parseColor. rewrite chars_str.
  change (toLowerCase ("#"%char :: ds)) with ("#"%char :: toLowerCase ds).
  rewrite trim_plain.
  - change (toLowerCase ("#"%char :: toLowerCase ds))
      with ("#"%char :: toLowerCase (toLowerCase ds)).
    rewrite toLowerCase_idem. rewrite hexToRgb_body. cbn [opt_char Ascii.eqb Bool.eqb].
    exact E.
  - cbn [forallb]. apply forallb_forall. intros c Hc.
    rewrite forallb_forall in Hl. apply negb_true_iff. apply (hex_digit_facts c (Hl c Hc)).
Qed.

(** X11: every colour extracted from a CSS text that begins with [#] is one
    that [parseColor] reads, with integer channels from 0 to 255. *)
Theorem extracted_hex_parses (css s : string) (t : list ascii) :
  In s (extractColorsFromCSS css) -> chars s = "#"%char :: t ->
  exists R G B, (R <= 255)%nat /\ (G <= 255)%nat /\ (B <= 255)%nat
    /\ parseColor s = Some (rgb_of R G B).
Proof.
  rewrite extractColorsFromCSS_matches. intros H Hs.
  apply fold_add_In in H. destruct H as [[]|H].
  apply in_map_iff in H. destruct H as (m & <- & Hm).
  rewrite chars_str in Hs.
  unfold allMatches in Hm. apply in_flat_map in Hm. destruct Hm as (p & Hp & Hm).
  apply matchAll_In in Hm. destruct Hm as (l' & rest & Hm).
  unfold colorPatterns in Hp. cbn [In] in Hp.
  destruct Hp as [<-|[<-|[<-|[<-|[]]]]].
  - apply hex_at_shape in Hm. destruct Hm as (ds & -> & L & D).
    apply parseColor_hex_digits; auto.
  - apply hex_at_shape in Hm. destruct Hm as (ds & -> & L & D).
    apply parseColor_hex_digits; auto.
  - exfalso. apply rgb_css_at_shape in Hm. destruct Hm as [->|(c & t' & -> & E)]; [discriminate Hs|].
    cbn [toLowerCase map] in Hs. rewrite E in Hs. discriminate Hs.
  - exfalso. apply hsl_css_at_shape in Hm. destruct Hm as [->|(c & t' & -> & E)]; [discriminate Hs|].
    cbn [toLowerCase map] in Hs. rewrite E in Hs. discriminate Hs.
Qed.

Lemma extracted_hex_parses_example :
  In "#ffa500" (extractColorsFromCSS "a { color: #FFA500; border: 1px solid #12345 }")
  /\ exists R G B, (R <= 255)%nat /\ (G <= 255)%nat /\ (B <= 255)%nat
       /\ parseColor "#ffa500" = Some (rgb_of R G B).
Proof.
  assert (H : In "#ffa500"
                 (extractColorsFromCSS "a { color: #FFA500; border: 1px solid #12345 }"))
    by (vm_compute; auto).
  split; [exact H|].
  exact (extracted_hex_parses _ "#ffa500" (chars "ffa500") H eq_refl).
Defined.


(** *** An [rgb(...)] text with white space after the parenthesis *)

Lemma quiet_class c :
  is_space c || is_digit c || Ascii.eqb c "," || Ascii.eqb c "(" || Ascii.eqb c ")" = true ->
  quiet c = true.
Proof.
  intros H. pose proof (for_all_ascii _ char_facts_all c) as F.
  unfold char_facts in F. apply andb_true_iff in F. destruct F as [_ F].
  rewrite H in F. exact F.
Qed.

Lemma quiet_run (p : ascii -> bool) text :
  (forall c, p c = true -> quiet c = true) -> forallb p text = true -> forallb quiet text = true.
Proof.
  intros Hp H. apply forallb_forall. intros c Hc. rewrite forallb_forall in H. auto.
Qed.

Lemma quiet_spaces w : forallb is_space w = true -> forallb quiet w = true.
Proof.
  apply quiet_run. intros c H. apply quiet_class. rewrite H. reflexivity.
Qed.

Lemma quiet_digits d : forallb is_digit d = true -> forallb quiet d = true.
Proof.
  apply quiet_run. intros c H. apply quiet_class. rewrite H, orb_true_r. reflexivity.
Qed.

Lemma skip_space_head c text : is_space c = false -> skip_space (c :: text) = c :: text.
Proof. intros H. unfold skip_space. cbn [span]. rewrite H. reflexivity. Qed.

Lemma skip_space_digits d text :
  d <> [] -> forallb is_digit d = true -> skip_space (d ++ text) = d ++ text.
Proof.
  intros N D. destruct d as [|c d]; [contradiction|].
  cbn [forallb] in D. apply andb_true_iff in D. destruct D as [Dc _].
  apply skip_space_head, digit_not_space, Dc.
Qed.

Lemma digits_then_run d text :
  d <> [] -> forallb is_digit d = true -> stops is_digit text = true ->
  digits_then (d ++ text) = Some text.
Proof.
  intros N D S. unfold digits_then. rewrite digits1_run by assumption. reflexivity.
Qed.

Lemma search_none {A} (at_head : list ascii -> option A) (starts : ascii -> bool) :
  (forall c text, starts c = false -> at_head (c :: text) = None) ->
  at_head [] = None ->
  forall text, forallb (fun c => negb (starts c)) text = true -> search at_head text = None.
Proof.
  intros Hs Hn. induction text as [|c t IH]; intros H; cbn [search].
  - rewrite Hn. reflexivity.
  - cbn [forallb] in H. apply andb_true_iff in H. destruct H as [Hc H].
    apply negb_true_iff in Hc. rewrite (Hs c t Hc). apply IH, H.
Qed.

Lemma rgb_at_other c text : Ascii.eqb "r" c = false -> rgb_at (c :: text) = None.
Proof.
  intros H. unfold rgb_at. cbn [lit chars list_ascii_of_string]. rewrite H. reflexivity.
Qed.

Lemma hsl_at_other c text : Ascii.eqb "h" c = false -> hsl_at (c :: text) = None.
Proof.
  intros H. unfold hsl_at. cbn [lit chars list_ascii_of_string]. rewrite H. reflexivity.
Qed.

Section Spaced.
Variables w d1 d2 d3 : list ascii.
Hypothesis Nw : w <> [].
Hypothesis Hw : forallb is_space w = true.
Hypotheses (N1 : d1 <> []) (N2 : d2 <> []) (N3 : d3 <> []).
Hypotheses (D1 : forallb is_digit d1 = true) (D2 : forallb is_digit d2 = true)
           (D3 : forallb is_digit d3 = true).

Let inner : list ascii := w ++ d1 ++ ","%char :: d2 ++ ","%char :: d3 ++ [")"%char].

Lemma spaced_shape : spacedRgb w d1 d2 d3 = "r"%char :: "g"%char :: "b"%char :: "("%char :: inner.
Proof. reflexivity. Qed.

Lemma inner_quiet : forallb quiet inner = true.
Proof.
  unfold inner. repeat (rewrite forallb_app; cbn [forallb]).
  rewrite (quiet_spaces w Hw), (quiet_digits d1 D1), (quiet_digits d2 D2), (quiet_digits d3 D3).
  reflexivity.
Qed.

Lemma inner_plain : toLowerCase inner = inner.
Proof.
  - unfold inner. rewrite !toLowerCase_app.
    change (toLowerCase (","%char :: ?x)) with (","%char :: toLowerCase x).
    rewrite !toLowerCase_app.
    change (toLowerCase (","%char :: ?x)) with (","%char :: toLowerCase x).
    rewrite !toLowerCase_app.
    rewrite (spaces_fixed w Hw), (digits_fixed d1 D1), (digits_fixed d2 D2), (digits_fixed d3 D3).
    reflexivity.
Qed.

Lemma spaced_rgb_css_at :
  rgb_css_at (spacedRgb w d1 d2 d3) = Some (spacedRgb w d1 d2 d3, []).
Proof.
  rewrite spaced_shape. unfold rgb_css_at.
  change (lit_ci (chars "rgb") ("r"%char :: "g"%char :: "b"%char :: ?x)) with (Some x).
  cbv iota beta.
  change (opt_ci "a" ("("%char :: inner)) with ("("%char :: inner).
  change (lit (chars "(") ("("%char :: inner)) with (Some inner).
  cbv iota beta. unfold inner.
  rewrite skip_space_run
    by (assumption || (apply stops_digits; auto using digit_not_space)).
  rewrite digits_then_run by (assumption || reflexivity).
  rewrite skip_space_head by reflexivity.
  change (lit (chars ",") (","%char :: ?x)) with (Some x). cbv iota beta.
  rewrite skip_space_digits by assumption.
  rewrite digits_then_run by (assumption || reflexivity).
  rewrite skip_space_head by reflexivity.
  change (lit (chars ",") (","%char :: ?x)) with (Some x). cbv iota beta.
  rewrite skip_space_digits by assumption.
  rewrite digits_then_run by (assumption || reflexivity).
  rewrite skip_space_head by reflexivity.
  unfold alpha_close. change (lit (chars ")") [")"%char]) with (Some (@nil ascii)).
  unfold matched. cbn [option_map]. f_equal. f_equal.
  apply firstn_all2. change (List.length (@nil ascii)) with 0%nat. lia.
Qed.

Lemma spaced_extracted :
  extractColorsFromCSS (str (spacedRgb w d1 d2 d3)) = [str (spacedRgb w d1 d2 d3)].
Proof.
  pose proof inner_quiet as Q. rewrite forallb_forall in Q.
  assert (Qt : forall c, In c (spacedRgb w d1 d2 d3) ->
                 Ascii.eqb c "#" = false /\ Ascii.eqb "h" (lower_char c) = false).
  { intros c Hc. rewrite spaced_shape in Hc.
    destruct Hc as [<-|[<-|[<-|[<-|Hc]]]]; try (split; reflexivity).
    specialize (Q c Hc). unfold quiet in Q. repeat rewrite andb_true_iff in Q.
    destruct Q as [[Q1 _] Q3]. apply negb_true_iff in Q1, Q3. auto. }
  unfold extractColorsFromCSS, colorPatterns. rewrite chars_str. cbn [fold_left].
  rewrite (matchAll_none (hex_at 6) (fun c => Ascii.eqb c "#"));
    [|apply hex_at_other|apply forallb_forall; intros c Hc; rewrite (proj1 (Qt c Hc)); reflexivity].
  rewrite (matchAll_none (hex_at 3) (fun c => Ascii.eqb c "#"));
    [|apply hex_at_other|apply forallb_forall; intros c Hc; rewrite (proj1 (Qt c Hc)); reflexivity].
  rewrite (matchAll_none hsl_css_at (fun c => Ascii.eqb "h" (lower_char c)));
    [|apply hsl_css_at_other|apply forallb_forall; intros c Hc; rewrite (proj2 (Qt c Hc)); reflexivity].
  assert (M : matchAll rgb_css_at 0 (spacedRgb w d1 d2 d3) = [spacedRgb w d1 d2 d3]).
  { pose proof spaced_rgb_css_at as R. rewrite spaced_shape in *.
    cbn [matchAll]. rewrite R. f_equal. apply matchAll_skip.
    change (List.length inner <= List.length inner)%nat. apply Nat.le_refl. }
  rewrite M. cbn [fold_left]. unfold setAdd. cbn [existsb app].
  rewrite spaced_shape.
  change (toLowerCase ("r"%char :: "g"%char :: "b"%char :: "("%char :: inner))
    with ("r"%char :: "g"%char :: "b"%char :: "("%char :: toLowerCase inner).
  rewrite inner_plain. reflexivity.
Qed.

Lemma spaced_not_parsed : parseColor (str (spacedRgb w d1 d2 d3)) = None.
Proof.
  pose proof inner_quiet as Q.
  assert (T : toLowerCase (trim (spacedRgb w d1 d2 d3)) = spacedRgb w d1 d2 d3).
  { rewrite <- trim_lower. rewrite spaced_shape.
    change (toLowerCase ("r"%char :: "g"%char :: "b"%char :: "("%char :: inner))
      with ("r"%char :: "g"%char :: "b"%char :: "("%char :: toLowerCase inner).
    rewrite inner_plain.
    assert (Ei : inner = (w ++ d1 ++ ","%char :: d2 ++ ","%char :: d3) ++ [")"%char]).
    { unfold inner. repeat (rewrite <- app_assoc; cbn [app]). reflexivity. }
    rewrite Ei.
    apply (trim_ends "r" ")" ("g"%char :: "b"%char :: "("%char
                               :: (w ++ d1 ++ ","%char :: d2 ++ ","%char :: d3)));
      reflexivity. }
  unfold parseColor. rewrite chars_str, T. rewrite spaced_shape.
  assert (R0 : rgb_at ("r"%char :: "g"%char :: "b"%char :: "("%char :: inner) = None).
  { unfold rgb_at. cbn [lit chars list_ascii_of_string Ascii.eqb Bool.eqb opt_char].
    unfold inner. destruct w as [|c0 w0]; [contradiction|].
    cbn [forallb] in Hw. apply andb_true_iff in Hw. destruct Hw as [Hc0 _].
    unfold digits1. cbn [app span].
    assert (Dc : is_digit c0 = false).
    { destruct (is_digit c0) eqn:E; [|reflexivity].
      rewrite (digit_not_space c0 E) in Hc0. discriminate Hc0. }
    rewrite Dc. reflexivity. }
  assert (Qi : forallb (fun c => negb (Ascii.eqb "r" c)) inner = true
               /\ forallb (fun c => negb (Ascii.eqb "h" c)) inner = true).
  { rewrite forallb_forall in Q.
    split; apply forallb_forall; intros c Hc; specialize (Q c Hc); unfold quiet in Q;
      repeat rewrite andb_true_iff in Q; destruct Q as [[Q1 Q2] Q3];
      apply negb_true_iff in Q2, Q3; apply negb_true_iff.
    - destruct (Ascii.eqb "r" c) eqn:E; [|reflexivity].
      apply Ascii.eqb_eq in E. subst c. vm_compute in Q2. discriminate Q2.
    - destruct (Ascii.eqb "h" c) eqn:E; [|reflexivity].
      apply Ascii.eqb_eq in E. subst c. vm_compute in Q3. discriminate Q3. }
  assert (Qr : forallb (fun c => negb (Ascii.eqb "r" c)) ("g"%char :: "b"%char :: "("%char :: inner) = true
               /\ forallb (fun c => negb (Ascii.eqb "h" c))
                    ("r"%char :: "g"%char :: "b"%char :: "("%char :: inner) = true).
  { cbn [forallb]. rewrite (proj1 Qi), (proj2 Qi). split; reflexivity. }
  destruct Qr as [Qr Qh].
  assert (S1 : search rgb_at ("r"%char :: "g"%char :: "b"%char :: "("%char :: inner) = None).
  { cbn [search]. rewrite R0.
    apply (search_none rgb_at (Ascii.eqb "r")); [apply rgb_at_other|reflexivity|exact Qr]. }
  assert (S2 : search hsl_at ("r"%char :: "g"%char :: "b"%char :: "("%char :: inner) = None).
  { apply (search_none hsl_at (Ascii.eqb "h")); [apply hsl_at_other|reflexivity|exact Qh]. }
  rewrite S1, S2. reflexivity.
Qed.
End Spaced.

(** X12: a colour written [rgb( r,g,b)], with white space after the
    parenthesis, is extracted from a CSS text, and is not one that
    [parseColor] reads. *)
Theorem spaced_rgb_lost (w d1 d2 d3 : list ascii) :
  w <> [] -> forallb is_space w = true ->
  d1 <> [] -> d2 <> [] -> d3 <> [] ->
  forallb is_digit d1 = true -> forallb is_digit d2 = true -> forallb is_digit d3 = true ->
  extractColorsFromCSS (str (spacedRgb w d1 d2 d3)) = [str (spacedRgb w d1 d2 d3)]
  /\ parseColor (str (spacedRgb w d1 d2 d3)) = None.
Proof.
  intros. split; [apply spaced_extracted|apply spaced_not_parsed]; assumption.
Qed.

Lemma spaced_rgb_lost_example :
  extractColorsFromCSS "rgb( 255,0,0)" = ["rgb( 255,0,0)"]
  /\ parseColor "rgb( 255,0,0)" = None.
Proof.
  apply (spaced_rgb_lost (chars " ") (chars "255") (chars "0") (chars "0"));
    (discriminate || reflexivity).
Defined.
End Css.

(** ** The contrast ratio *)

Module Contrast.
Import FloatOrder FloatFacts.
Local Open Scope float_scope.

Lemma get_sign_spec x : get_sign x = sign_of (Prim2SF x).
Proof.
  unfold get_sign, is_zero.
  rewrite FloatAxioms.eqb_spec. change (Prim2SF PrimFloat.zero) with (S754_zero false).
  destruct (Prim2SF x) as [s|s| |s m e] eqn:E; cbn [SFeqb SFcompare].
  - rewrite FloatAxioms.ltb_spec, div_spec, E.
    change (Prim2SF PrimFloat.zero) with (S754_zero false).
    change (Prim2SF PrimFloat.one) with (S754_finite false 4503599627370496 (-52)).
    destruct s; reflexivity.
  - destruct s; cbn; rewrite FloatAxioms.ltb_spec, E; reflexivity.
  - rewrite FloatAxioms.ltb_spec, E; reflexivity.
  - destruct s; cbn; rewrite FloatAxioms.ltb_spec, E; reflexivity.
Qed.

Lemma eqb_sym x y : (x =? y) = (y =? x).
Proof.
  rewrite !FloatAxioms.eqb_spec. unfold SFeqb, SFcompare.
  destruct (Prim2SF x) as [s|s| |s m e], (Prim2SF y) as [s'|s'| |s' m' e'];
    try reflexivity; try (destruct s, s'; reflexivity).
  destruct s, s'; try reflexivity.
  - rewrite (Z.compare_antisym e e'). destruct (e ?= e')%Z; cbn; try reflexivity.
    change (Pos.compare_cont Eq m m') with (Pos.compare m m').
    change (Pos.compare_cont Eq m' m) with (Pos.compare m' m).
    rewrite (Pos.compare_antisym m m'). destruct (m ?= m')%positive; reflexivity.
  - rewrite (Z.compare_antisym e e'). destruct (e ?= e')%Z; cbn; try reflexivity.
    change (Pos.compare_cont Eq m m') with (Pos.compare m m').
    change (Pos.compare_cont Eq m' m) with (Pos.compare m' m).
    rewrite (Pos.compare_antisym m m'). destruct (m ?= m')%positive; reflexivity.
Qed.

(** Equal numbers of the same sign are the same number. *)
Lemma eqb_same_sign x y : (x =? y) = true -> get_sign x = get_sign y -> x = y.
Proof.
  rewrite !get_sign_spec, FloatAxioms.eqb_spec. intros E S.
  apply Prim2SF_inj. revert E S. unfold SFeqb, SFcompare.
  destruct (Prim2SF x) as [s|s| |s m e], (Prim2SF y) as [s'|s'| |s' m' e'];
    cbn [sign_of]; try discriminate; try (destruct s, s'; discriminate).
  - intros _ ->. reflexivity.
  - destruct s, s'; try discriminate; reflexivity.
  - destruct s, s'; try discriminate; intros E _;
      destruct (Z.compare_spec e e'); try discriminate; subst;
      change (Pos.compare_cont Eq m m') with (Pos.compare m m') in E;
      destruct (Pos.compare_spec m m'); try discriminate; subst; reflexivity.
Qed.

Lemma max2_comm x y : max2 x y = max2 y x.
Proof.
  unfold max2. destruct (x <? y) eqn:E1.
  - rewrite (ltb_asym _ _ E1). reflexivity.
  - destruct (y <? x) eqn:E2; [reflexivity|].
    rewrite (eqb_sym y x). destruct (x =? y) eqn:E; [|reflexivity].
    destruct (get_sign x) eqn:Sx, (get_sign y) eqn:Sy; try reflexivity.
    + symmetry. apply eqb_same_sign; congruence.
    + apply eqb_same_sign; congruence.
Qed.

Lemma min2_comm x y : min2 x y = min2 y x.
Proof.
  unfold min2. destruct (x <? y) eqn:E1.
  - rewrite (ltb_asym _ _ E1). reflexivity.
  - destruct (y <? x) eqn:E2; [reflexivity|].
    rewrite (eqb_sym y x). destruct (x =? y) eqn:E; [|reflexivity].
    destruct (get_sign x) eqn:Sx, (get_sign y) eqn:Sy; try reflexivity.
    + apply eqb_same_sign; congruence.
    + symmetry. apply eqb_same_sign; congruence.
Qed.

(** X8: the contrast ratio of two colours does not depend on their order. *)
Theorem getContrastRatio_symmetric (Math_pow : float -> float -> float) (c1 c2 : RGB) :
  getContrastRatio Math_pow c1 c2 = getContrastRatio Math_pow c2 c1.
Proof.
  unfold getContrastRatio. cbv zeta.
  rewrite (max2_comm (getLuminance Math_pow c1)), (min2_comm (getLuminance Math_pow c1)).
  reflexivity.
Qed.
End Contrast.

(** ** The order of the input *)

Module Permuted.
Import TieDefs FloatOrder SortFacts Order Palette.
Local Open Scope list_scope.

(** Two sorted arrangements of the same elements are the same list, when
    two elements in order both ways are the same element. *)
Lemma sorted_unique {A} (R : A -> A -> Prop) (l : list A) : forall l',
  StronglySorted R l -> StronglySorted R l' -> Permutation l l' ->
  (forall a b, In a l -> In b l -> R a b -> R b a -> a = b) ->
  l = l'.
Proof.
  induction l as [|x l IH]; intros l' S S' P Anti.
  - apply Permutation_nil in P. subst. reflexivity.
  - destruct l' as [|y l']; [apply Permutation_sym, Permutation_nil in P; discriminate|].
    inversion S as [|? ? Sl Hx]; subst. inversion S' as [|? ? Sl' Hy]; subst.
    rewrite Forall_forall in Hx, Hy.
    assert (E : x = y).
    { assert (Hxin : In x (y :: l')) by (apply (Permutation_in _ P); left; reflexivity).
      assert (Hyin : In y (x :: l))
        by (apply (Permutation_in _ (Permutation_sym P)); left; reflexivity).
      destruct Hxin as [->|Hxin]; [reflexivity|].
      destruct Hyin as [->|Hyin]; [reflexivity|].
      apply Anti; [left; reflexivity|right; exact Hyin|apply Hx, Hyin|apply Hy, Hxin]. }
    subst y. f_equal. apply IH; [exact Sl|exact Sl'|eapply Permutation_cons_inv, P|].
    intros a b Ha Hb. apply Anti; right; assumption.
Qed.

Lemma untied_incl {A} (key : A -> float) (l l' : list A) :
  incl l' l -> untied key l -> untied key l'.
Proof.
  intros I [N U]. split.
  - intros a Ha. apply N, I, Ha.
  - intros a b Ha Hb. apply U; apply I; assumption.
Qed.

(** Without ties, the sorted array does not depend on the order of the
    elements before the sort. *)
Lemma sort_untied {A} (key : A -> float) (l l' : list A) :
  Permutation l l' -> untied key l ->
  sort (fun a b => key b - key a)%float l = sort (fun a b => key b - key a)%float l'.
Proof.
  intros P [N U].
  assert (F : forall l0, Permutation l l0 ->
                forallb (fun x => negb (is_nan (key x))) l0 = true).
  { intros l0 P0. apply forallb_forall. intros x Hx. apply negb_true_iff, N.
    apply (Permutation_in _ (Permutation_sym P0)), Hx. }
  pose proof (sort_descending key l (F l (Permutation_refl l))) as S.
  pose proof (sort_descending key l' (F l' P)) as S'.
  apply (sorted_unique _ _ _ S S').
  - unfold sort. rewrite !sort_by_perm. exact P.
  - intros a b Ha Hb. unfold sort in Ha, Hb. apply sort_by_in in Ha, Hb. apply U; assumption.
Qed.

Lemma filter_perm {A} (f : A -> bool) (l l' : list A) :
  Permutation l l' -> Permutation (filter f l) (filter f l').
Proof.
  induction 1 as [|x l l' _ IH|x y l|l l' l'' _ IH1 _ IH2]; cbn [filter].
  - reflexivity.
  - destruct (f x); [constructor|]; exact IH.
  - destruct (f x), (f y); try reflexivity. apply perm_swap.
  - etransitivity; eassumption.
Qed.

(** *** The palette of a permuted input *)

(** Each entry of the colour map holds a colour that a text of the input
    parses to, its key and its HSL form. *)
Lemma colorMap_entries l : forall c, In c (colorMap l) ->
  (exists s, In s l /\ parseColor s = Some c.(color))
  /\ c.(hex) = hexOf c.(color) /\ c.(hsl) = rgbToHsl c.(color).
Proof.
  induction l as [|s l IH] using rev_ind; intros c Hc; [destruct Hc|].
  assert (Keep : forall c0, In c0 (colorMap l) ->
            (exists s0, In s0 (l ++ [s]) /\ parseColor s0 = Some c0.(color))
            /\ c0.(hex) = hexOf c0.(color) /\ c0.(hsl) = rgbToHsl c0.(color)).
  { intros c0 H0. destruct (IH c0 H0) as ((s0 & Hs0 & Ep) & Eh & El).
    split; [exists s0; split; [apply in_or_app; left; exact Hs0|exact Ep]|]. auto. }
  rewrite colorMap_snoc in Hc. unfold addColor in Hc.
  destruct (parseColor s) as [rgb|] eqn:Ep; [|apply Keep, Hc].
  destruct (has (hexOf rgb) (colorMap l)).
  - destruct (increment_in _ _ _ (keys_distinct _ _ (colorMap_tallies l)) Hc)
      as [[H1 _]|(c0 & H1 & _ & ->)]; [apply Keep, H1|].
    apply (Keep c0 H1).
  - apply in_app_or in Hc as [Hc|[<-|[]]]; [apply Keep, Hc|].
    cbn [color hex hsl]. split; [|auto].
    exists s. split; [apply in_or_app; right; left; reflexivity|exact Ep].
Qed.

Lemma colorMap_perm l l' :
  Permutation l l' -> distinct_keys l -> Permutation (colorMap l) (colorMap l').
Proof.
  intros P D.
  destruct (colorMap_tallies l) as [ND EC KP], (colorMap_tallies l') as [ND' EC' KP'].
  assert (Same : forall c c', In c (colorMap l) -> In c' (colorMap l') ->
                   c.(hex) = c'.(hex) -> c = c').
  { intros c c' Hc Hc' E.
    destruct (colorMap_entries l c Hc) as ((s & Hs & Ep) & Eh & El).
    destruct (colorMap_entries l' c' Hc') as ((s' & Hs' & Ep') & Eh' & El').
    apply (Permutation_in _ (Permutation_sym P)) in Hs'.
    assert (Ec : c.(color) = c'.(color)).
    { apply (D s s'); try assumption. rewrite <- Eh, <- Eh'. exact E. }
    destruct (EC c Hc) as [_ Ef], (EC' c' Hc') as [_ Ef'].
    rewrite <- E, <- (occurrences_perm _ l l' P) in Ef'.
    destruct c as [cc ch cf cx], c' as [cc' ch' cf' cx']. cbn in *. congruence. }
  apply NoDup_Permutation.
  - apply (NoDup_map_inv hex), ND.
  - apply (NoDup_map_inv hex), ND'.
  - intros c. split; intros Hc.
    + destruct (EC c Hc) as [O _]. rewrite (occurrences_perm _ l l' P) in O.
      apply KP', in_map_iff in O. destruct O as (c' & E & Hc').
      rewrite (Same c c' Hc Hc' (eq_sym E)). exact Hc'.
    + destruct (EC' c Hc) as [O _]. rewrite <- (occurrences_perm _ l l' P) in O.
      apply KP, in_map_iff in O. destruct O as (c' & E & Hc').
      rewrite <- (Same c' c Hc' Hc E). exact Hc'.
Qed.

(** *** The hue buckets of a permuted palette *)

Local Open Scope float_scope.

Lemma eqb_true_number x y : (x =? y) = true -> is_nan x = false /\ is_nan y = false.
Proof.
  rewrite FloatAxioms.eqb_spec. unfold SFeqb. intros H.
  split; apply is_nan_false; intros E; rewrite E in H.
  - discriminate.
  - destruct (Prim2SF x); discriminate.
Qed.

Lemma is_nan_true x : is_nan x = true -> Prim2SF x = S754_nan.
Proof.
  intros H. destruct (Prim2SF x) eqn:E; try reflexivity;
    assert (F : is_nan x = false) by (apply is_nan_false; rewrite E; discriminate);
    congruence.
Qed.

Lemma sameValueZero_klass x y : sameValueZero x y = true <-> klass x = klass y.
Proof.
  unfold sameValueZero, klass.
  destruct (is_nan x) eqn:Nx, (is_nan y) eqn:Ny; cbn [andb].
  - rewrite orb_true_r. split; reflexivity.
  - rewrite orb_false_r. split; [|discriminate].
    intros H. apply eqb_true_number in H. destruct H. congruence.
  - rewrite orb_false_r. split; [|discriminate].
    intros H. apply eqb_true_number in H. destruct H. congruence.
  - rewrite orb_false_r, FloatAxioms.eqb_spec.
    rewrite RoundTrip.SFeqb_key3 by (apply is_nan_false; assumption).
    split; [intros ->; reflexivity|intros E; injection E; trivial].
Qed.

Lemma sameValueZero_sym x y : sameValueZero x y = sameValueZero y x.
Proof.
  destruct (sameValueZero x y) eqn:E, (sameValueZero y x) eqn:F; try reflexivity.
  - apply sameValueZero_klass in E. symmetry in E. apply sameValueZero_klass in E. congruence.
  - apply sameValueZero_klass in F. symmetry in F. apply sameValueZero_klass in F. congruence.
Qed.

Lemma sameValueZero_same x y z :
  sameValueZero x y = true -> sameValueZero x z = sameValueZero y z.
Proof.
  intros E. apply sameValueZero_klass in E.
  destruct (sameValueZero x z) eqn:F, (sameValueZero y z) eqn:G; try reflexivity.
  - apply sameValueZero_klass in F. rewrite E in F. apply sameValueZero_klass in F. congruence.
  - apply sameValueZero_klass in G. rewrite <- E in G. apply sameValueZero_klass in G. congruence.
Qed.

(** Two keys of the same class are the same number, or the two zeros. *)
Lemma sameValueZero_cases x y :
  sameValueZero x y = true ->
  x = y \/ exists s s', Prim2SF x = S754_zero s /\ Prim2SF y = S754_zero s'.
Proof.
  intros H. apply sameValueZero_klass in H. unfold klass in H.
  destruct (is_nan x) eqn:Nx, (is_nan y) eqn:Ny; try discriminate.
  - left. apply Prim2SF_inj. rewrite (is_nan_true x Nx), (is_nan_true y Ny). reflexivity.
  - injection H as H. apply is_nan_false in Nx, Ny.
    destruct (Prim2SF x) as [s|s| |s m e] eqn:Ex, (Prim2SF y) as [s'|s'| |s' m' e'] eqn:Ey;
      try congruence; try (right; eauto; fail);
      try (destruct s; discriminate); try (destruct s'; discriminate);
      try (destruct s, s'; discriminate).
    + left. apply Prim2SF_inj. rewrite Ex, Ey. destruct s, s'; try discriminate; reflexivity.
    + left. apply Prim2SF_inj. rewrite Ex, Ey.
      destruct s, s'; cbn in H; try discriminate; injection H; intros; f_equal; lia.
Qed.

(** The score of a bucket is the same at two keys of the same class. *)
Lemma groupScore_key k k' cs :
  sameValueZero k k' = true -> groupScore k cs = groupScore k' cs.
Proof.
  intros H. destruct (sameValueZero_cases k k' H) as [->|(sg & sg' & E & E')]; [reflexivity|].
  unfold groupScore, isLikelyUIColor. cbn [h s].
  assert (C : forall c, ((c <=? k) = (c <=? k')) /\ ((k <=? c) = (k' <=? c))).
  { intros c. rewrite !leb_spec, E, E'. destruct sg, sg'; split; reflexivity. }
  rewrite (proj1 (C 0)), (proj2 (C 30)), (proj1 (C 330)), (proj2 (C 360)). reflexivity.
Qed.

Lemma push_shape key c groups :
  (exists before k ms after,
     groups = before ++ (k, ms) :: after
     /\ sameValueZero k key = true
     /\ (forall g, In g before -> sameValueZero (fst g) key = false)
     /\ push key c groups = before ++ (k, ms ++ [c]) :: after)
  \/ ((forall g, In g groups -> sameValueZero (fst g) key = false)
      /\ push key c groups = groups ++ [(key, [c])]).
Proof.
  induction groups as [|[k ms] groups IH]; cbn [push].
  - right. split; [intros ? []|reflexivity].
  - destruct (sameValueZero k key) eqn:E.
    + left. exists [], k, ms, groups. split; [reflexivity|]. split; [exact E|].
      split; [intros ? []|reflexivity].
    + destruct IH as [(before & k' & ms' & after & Eg & Ek & Hb & Ep)|[Hn Ep]].
      * left. exists ((k, ms) :: before), k', ms', after.
        split; [rewrite Eg; reflexivity|]. split; [exact Ek|]. split.
        -- intros g [<-|Hg]; [exact E|apply Hb, Hg].
        -- rewrite Ep. reflexivity.
      * right. split; [|rewrite Ep; reflexivity].
        intros g [<-|Hg]; [exact E|apply Hn, Hg].
Qed.

Lemma separate_keys groups groups' :
  map fst groups = map fst groups' -> separate groups -> separate groups'.
Proof.
  revert groups'. induction groups as [|g groups IH]; intros [|g' groups'] E S;
    try discriminate; [exact I|].
  cbn [map] in E. injection E as E1 E2. destruct S as [S1 S2]. split; [|apply IH; assumption].
  intros x Hx. rewrite <- E1.
  assert (Hk : In (fst x) (map fst groups)) by (rewrite E2; apply in_map, Hx).
  apply in_map_iff in Hk. destruct Hk as (y & Ey & Hy). rewrite <- Ey. apply S1, Hy.
Qed.

Lemma separate_snoc groups g :
  separate groups -> (forall x, In x groups -> sameValueZero (fst x) (fst g) = false) ->
  separate (groups ++ [g]).
Proof.
  induction groups as [|x groups IH]; intros S H; cbn [app separate].
  - split; [intros ? []|exact I].
  - destruct S as [S1 S2]. split.
    + intros y Hy. apply in_app_or in Hy as [Hy|[<-|[]]]; [apply S1, Hy|].
      apply H. left. reflexivity.
    + apply IH; [exact S2|]. intros y Hy. apply H. right. exact Hy.
Qed.

Lemma separate_after before g after :
  separate (before ++ g :: after) ->
  forall g', In g' after -> sameValueZero (fst g) (fst g') = false.
Proof.
  induction before as [|x before IH]; cbn [app separate]; intros [S1 S2]; [exact S1|].
  apply IH, S2.
Qed.

(** In separate buckets, two buckets of the same class are the same bucket. *)
Lemma separate_same groups : separate groups ->
  forall g g', In g groups -> In g' groups ->
    sameValueZero (fst g) (fst g') = true -> g = g'.
Proof.
  induction groups as [|x groups IH]; intros S g g' Hg Hg' E; [destruct Hg|].
  destruct S as [S1 S2]. destruct Hg as [<-|Hg], Hg' as [<-|Hg'].
  - reflexivity.
  - rewrite (S1 g' Hg') in E. discriminate.
  - rewrite sameValueZero_sym, (S1 g Hg) in E. discriminate.
  - apply IH; assumption.
Qed.

Lemma filter_none {A} (f : A -> bool) (l : list A) :
  (forall x, In x l -> f x = false) -> filter f l = [].
Proof.
  induction l as [|x l IH]; intros H; [reflexivity|].
  cbn [filter]. rewrite (H x (or_introl eq_refl)). apply IH.
  intros y Hy. apply H. right. exact Hy.
Qed.

Lemma filter_snoc {A} (f : A -> bool) (l : list A) (x : A) :
  filter f (l ++ [x]) = filter f l ++ (if f x then [x] else []).
Proof. rewrite filter_app. reflexivity. Qed.

Lemma grouped_push colors c groups :
  grouped colors groups -> skipped c = false ->
  grouped (colors ++ [c]) (push (hueBucket c) c groups).
Proof.
  intros [GM GS GA] Sc.
  assert (In_c : forall k, inBucket k c = sameValueZero k (hueBucket c)).
  { intros k. unfold inBucket. rewrite Sc. reflexivity. }
  destruct (push_shape (hueBucket c) c groups)
    as [(before & k & ms & after & Eg & Ek & Hb & Ep)|[Hn Ep]]; rewrite Ep.
  - assert (Ha : forall g, In g after -> sameValueZero (fst g) (hueBucket c) = false).
    { intros g Hg. rewrite Eg in GS.
      pose proof (separate_after _ _ _ GS g Hg) as F. cbn [fst] in F.
      rewrite (sameValueZero_same k (hueBucket c) (fst g) Ek) in F.
      rewrite sameValueZero_sym. exact F. }
    split.
    + intros k' ms' Hin. rewrite filter_snoc, In_c.
      apply in_app_or in Hin as [Hin|[E|Hin]].
      * rewrite (Hb _ Hin : sameValueZero k' _ = false), app_nil_r.
        apply GM. rewrite Eg. apply in_or_app. left. exact Hin.
      * injection E as <- <-. rewrite Ek.
        destruct (GM k ms) as [E1 _]; [rewrite Eg; apply in_or_app; right; left; reflexivity|].
        rewrite <- E1. split; [reflexivity|destruct ms; discriminate].
      * rewrite (Ha _ Hin : sameValueZero k' _ = false), app_nil_r.
        apply GM. rewrite Eg. apply in_or_app. right. right. exact Hin.
    + apply (separate_keys groups); [|exact GS].
      rewrite Eg, !map_app. reflexivity.
    + intros c' Hc' Sc'. apply in_app_or in Hc' as [Hc'|[<-|[]]].
      * destruct (GA c' Hc' Sc') as (k' & ms' & Hin & E).
        rewrite Eg in Hin. apply in_app_or in Hin as [Hin|[E'|Hin]].
        -- exists k', ms'. split; [apply in_or_app; left; exact Hin|exact E].
        -- injection E' as <- <-. exists k, (ms ++ [c]).
           split; [apply in_or_app; right; left; reflexivity|exact E].
        -- exists k', ms'. split; [apply in_or_app; right; right; exact Hin|exact E].
      * exists k, (ms ++ [c]). split; [apply in_or_app; right; left; reflexivity|exact Ek].
  - split.
    + intros k' ms' Hin. rewrite filter_snoc, In_c.
      apply in_app_or in Hin as [Hin|[E|[]]].
      * rewrite (Hn _ Hin : sameValueZero k' _ = false), app_nil_r. apply GM, Hin.
      * injection E as <- <-. rewrite Primary.sameValueZero_refl.
        rewrite filter_none; [split; [reflexivity|discriminate]|].
        intros c0 Hc0. unfold inBucket.
        destruct (skipped c0) eqn:S0; [reflexivity|]. cbn [negb andb].
        destruct (sameValueZero (hueBucket c) (hueBucket c0)) eqn:E0; [exfalso|reflexivity].
        destruct (GA c0 Hc0 S0) as (k0 & ms0 & Hin0 & E1).
        pose proof (Hn _ Hin0) as F. cbn [fst] in F.
        rewrite (sameValueZero_same k0 (hueBucket c0) (hueBucket c) E1) in F.
        rewrite sameValueZero_sym in F. congruence.
    + apply separate_snoc; [exact GS|exact Hn].
    + intros c' Hc' Sc'. apply in_app_or in Hc' as [Hc'|[<-|[]]].
      * destruct (GA c' Hc' Sc') as (k' & ms' & Hin & E).
        exists k', ms'. split; [apply in_or_app; left; exact Hin|exact E].
      * exists (hueBucket c), [c].
        split; [apply in_or_app; right; left; reflexivity|apply Primary.sameValueZero_refl].
Qed.

Lemma groupColorsByHue_grouped colors : grouped colors (groupColorsByHue colors).
Proof.
  change (groupColorsByHue colors) with (fold_left group_step colors []).
  induction colors as [|c colors IH] using rev_ind.
  - split; [intros ? ? []|exact I|intros ? []].
  - rewrite fold_left_app. cbn [fold_left]. rewrite Selection.group_step_skipped.
    destruct (skipped c) eqn:Sc; [|apply grouped_push; assumption].
    destruct IH as [GM GS GA]. split.
    + intros k ms Hin. rewrite filter_snoc. unfold inBucket at 2. rewrite Sc.
      cbn [negb andb]. rewrite app_nil_r. apply GM, Hin.
    + exact GS.
    + intros c' Hc' Sc'. apply in_app_or in Hc' as [Hc'|[<-|[]]]; [apply GA; assumption|].
      congruence.
Qed.

(** A bucket of a permuted palette is the rearrangement of a bucket of the
    palette, with a key of the same class. *)
Lemma groups_correspond colors colors' k' ms' :
  Permutation colors colors' -> In (k', ms') (groupColorsByHue colors') ->
  exists k ms, In (k, ms) (groupColorsByHue colors)
    /\ sameValueZero k k' = true /\ Permutation ms ms'.
Proof.
  intros P Hin.
  destruct (groupColorsByHue_grouped colors) as [GM GS GA].
  destruct (groupColorsByHue_grouped colors') as [GM' GS' GA'].
  destruct (GM' k' ms' Hin) as [E' Ne'].
  destruct ms' as [|c t] eqn:Em; [congruence|]. rewrite <- Em in *. clear Ne'.
  assert (Hc : In c (filter (inBucket k') colors')) by (rewrite <- E', Em; left; reflexivity).
  apply filter_In in Hc as [Hc Bc]. unfold inBucket in Bc.
  apply andb_true_iff in Bc as [Sc Kc]. apply negb_true_iff in Sc.
  apply (Permutation_in _ (Permutation_sym P)) in Hc.
  destruct (GA c Hc Sc) as (k & ms & Hk & Ek).
  assert (Ekk : sameValueZero k k' = true).
  { rewrite (sameValueZero_same k (hueBucket c) k' Ek), sameValueZero_sym. exact Kc. }
  exists k, ms. split; [exact Hk|]. split; [exact Ekk|].
  rewrite (proj1 (GM k ms Hk)), E'.
  rewrite (filter_ext (inBucket k') (inBucket k)).
  - apply filter_perm, P.
  - intros x. unfold inBucket. rewrite (sameValueZero_same k k' _ Ekk). reflexivity.
Qed.

(** *** The selections in a permuted palette *)

Lemma bestGroup_max groups b :
  bestGroup groups = Some b ->
  In (b.(group_hue), b.(group_colors)) groups
  /\ b.(group_score) = groupScore b.(group_hue) b.(group_colors)
  /\ forall g, In g groups -> (b.(group_score) <? bucketScore g) = false.
Proof.
  intros E. pose proof (Primary.bestGroup_first groups) as K. rewrite E in K.
  destruct K as (Ks & before & after & Eg & Kb & Ka).
  split; [rewrite Eg; apply in_or_app; right; left; reflexivity|]. split; [exact Ks|].
  intros [k cs] Hin. unfold bucketScore. cbn [fst snd].
  rewrite Eg in Hin. apply in_app_or in Hin as [Hin|[E'|Hin]].
  - destruct (Kb _ _ Hin) as [L|L]; [apply ltb_asym, L|apply Primary.ltb_nan_false, L].
  - injection E' as <- <-. rewrite <- Ks. apply Primary.ltb_irrefl.
  - apply Ka, Hin.
Qed.

Lemma bestGroup_some groups : groups <> [] -> exists b, bestGroup groups = Some b.
Proof.
  intros H. pose proof (Primary.bestGroup_first groups) as K.
  destruct (bestGroup groups) as [b|]; [eauto|contradiction].
Qed.

Lemma all_skipped_none colors :
  forallb skipped colors = true -> findPrimaryColor colors = None.
Proof.
  intros H. unfold findPrimaryColor.
  rewrite (proj2 (Selection.groupColorsByHue_empty colors) H).
  rewrite forallb_forall in H.
  rewrite filter_none; [reflexivity|].
  intros c Hc. apply Selection.skipped_no_fallback, H, Hc.
Qed.

Lemma findPrimaryColor_best colors :
  groupColorsByHue colors <> [] ->
  findPrimaryColor colors
  = match bestGroup (groupColorsByHue colors) with
    | None => None
    | Some best => hd_error (sort (fun a b => colorScore b - colorScore a) best.(group_colors))
    end.
Proof.
  intros H. unfold findPrimaryColor. destruct (groupColorsByHue colors); [congruence|reflexivity].
Qed.

Lemma forallb_perm {A} (f : A -> bool) (l l' : list A) :
  Permutation l l' -> forallb f l = true -> forallb f l' = true.
Proof.
  intros P H. rewrite forallb_forall in *. intros x Hx.
  apply H, (Permutation_in _ (Permutation_sym P)), Hx.
Qed.

Lemma findPrimaryColor_perm colors colors' :
  Permutation colors colors' ->
  (forall k cs, In (k, cs) (groupColorsByHue colors) -> untied colorScore cs) ->
  untied bucketScore (groupColorsByHue colors) ->
  steady (groupColorsByHue colors) ->
  findPrimaryColor colors = findPrimaryColor colors'.
Proof.
  intros P UC [_ UB] St.
  destruct (forallb skipped colors) eqn:Sk.
  { rewrite (all_skipped_none colors Sk).
    rewrite (all_skipped_none colors' (forallb_perm _ _ _ P Sk)). reflexivity. }
  assert (Ng : groupColorsByHue colors <> []).
  { intros E. apply Selection.groupColorsByHue_empty in E. congruence. }
  assert (Ng' : groupColorsByHue colors' <> []).
  { intros E. apply Selection.groupColorsByHue_empty in E.
    apply (forallb_perm _ _ _ (Permutation_sym P)) in E. congruence. }
  rewrite (findPrimaryColor_best colors Ng), (findPrimaryColor_best colors' Ng').
  destruct (bestGroup_some _ Ng) as [b Eb], (bestGroup_some _ Ng') as [b' Eb'].
  rewrite Eb, Eb'.
  destruct (bestGroup_max _ _ Eb) as (Hb & Sb & Mb).
  destruct (bestGroup_max _ _ Eb') as (Hb' & Sb' & Mb').
  (* the bucket of the palette that the best bucket of the permuted palette rearranges *)
  destruct (groups_correspond colors colors' _ _ P Hb') as (k & ms & Hg & Ek & Pm).
  assert (Sg : groupScore k ms = b'.(group_score)).
  { rewrite Sb', <- (groupScore_key k _ _ Ek). symmetry. apply (St k ms); assumption. }
  (* the bucket of the permuted palette that rearranges the best bucket of the palette *)
  destruct (groups_correspond colors' colors _ _ (Permutation_sym P) Hb) as (k2 & ms2 & Hg2 & Ek2 & Pm2).
  assert (Sg2 : groupScore k2 ms2 = b.(group_score)).
  { rewrite Sb, (groupScore_key k2 _ _ Ek2). apply (St _ _ _ Hb), Permutation_sym, Pm2. }
  assert (Same : (k, ms) = (b.(group_hue), b.(group_colors))).
  { apply UB; [exact Hg|exact Hb| |].
    - unfold bucketScore. cbn [fst snd]. rewrite Sg, <- Sb, <- Sg2.
      apply (Mb' (k2, ms2) Hg2).
    - unfold bucketScore at 1. cbn [fst snd]. rewrite <- Sb. apply (Mb (k, ms) Hg). }
  injection Same as _ Em. subst ms.
  rewrite (sort_untied colorScore _ _ Pm); [reflexivity|].
  apply (UC _ _ Hb).
Qed.

Section Themes.
Variable Math_pow : float -> float -> float.

Lemma sortColorsByLuminance_perm colors colors' :
  Permutation colors colors' ->
  untied (fun c => getLuminance Math_pow c.(color)) colors ->
  sortColorsByLuminance Math_pow colors = sortColorsByLuminance Math_pow colors'.
Proof.
  intros P U. unfold sortColorsByLuminance.
  apply (sort_untied (fun c => getLuminance Math_pow c.(color))); assumption.
Qed.

Lemma findForegroundColor_perm bg colors colors' :
  Permutation colors colors' ->
  untied (fun c => colorDistance Math_pow c.(color) bg)
         (filter (contrasts Math_pow bg) colors) ->
  findForegroundColor Math_pow bg colors = findForegroundColor Math_pow bg colors'.
Proof.
  intros P U. unfold findForegroundColor. f_equal.
  apply (sort_untied (fun c => colorDistance Math_pow c.(color) bg)).
  - apply (filter_perm (contrasts Math_pow bg)), P.
  - exact U.
Qed.

Lemma findAccentColor_perm h colors colors' :
  Permutation colors colors' -> untied frequency colors ->
  findAccentColor colors h = findAccentColor colors' h.
Proof.
  intros P U. unfold findAccentColor. f_equal.
  change (sort byFrequency) with (sort (fun a b : ColorWithFrequency => frequency b - frequency a)).
  apply (sort_untied frequency).
  - apply filter_perm, P.
  - apply (untied_incl _ colors); [|exact U]. intros c Hc. apply filter_In in Hc. apply Hc.
Qed.

Lemma sortedColors_perm colors colors' :
  Permutation colors colors' -> untied frequency colors ->
  sortedColors colors = sortedColors colors'.
Proof.
  intros P U. unfold sortedColors. f_equal.
  change (sort byFrequency) with (sort (fun a b : ColorWithFrequency => frequency b - frequency a)).
  apply (sort_untied frequency).
  - apply filter_perm, P.
  - apply (untied_incl _ colors); [|exact U]. intros c Hc. apply filter_In in Hc. apply Hc.
Qed.

(** The background that the generator takes from a list is the default, for
    the empty palette, or a colour of the palette. *)
Lemma background_of_palette (colors picked : list ColorWithFrequency) (default : RGB) :
  incl picked colors ->
  (colors = [] \/ exists c, hd_error picked = Some c) ->
  colors = []
  \/ exists c, In c colors
       /\ match hd_error picked with Some c => c.(color) | None => default end = c.(color).
Proof.
  intros I [E|(c & E)]; [left; exact E|right].
  exists c. rewrite E. split; [|reflexivity].
  apply I. destruct picked; [discriminate|]. injection E as ->. left. reflexivity.
Qed.

Lemma untied_nil {A} (key : A -> float) : untied key [].
Proof. split; [intros ? []|intros ? ? []]. Qed.

Lemma in_slice_last {A} k (l : list A) x : In x (slice_last k l) -> In x l.
Proof.
  unfold slice_last. destruct k; [trivial|]. intros H.
  rewrite <- (firstn_skipn (List.length l - S k) l). apply in_or_app. right. exact H.
Qed.

(** The two backgrounds of the generator are, when the palette has a
    colour, its colours of the greatest and of the least luminance. *)
Lemma backgrounds_untied (colors : list ColorWithFrequency) :
  untied (fun c => getLuminance Math_pow c.(color)) colors ->
  (forall bg, In bg colors -> extreme Math_pow bg colors ->
     untied (fun c => colorDistance Math_pow c.(color) bg.(color))
            (filter (contrasts Math_pow bg.(color)) colors)) ->
  let sorted := sortColorsByLuminance Math_pow colors in
  let third := ((List.length sorted + 2) / 3)%nat in
  let lightBackground :=
    match hd_error (slice_first third sorted) with
    | Some c => c.(color) | None => defaultLight end in
  let darkBackground :=
    match hd_error (rev (slice_last third sorted)) with
    | Some c => c.(color) | None => defaultDark end in
  untied (fun c => colorDistance Math_pow c.(color) lightBackground)
         (filter (contrasts Math_pow lightBackground) colors)
  /\ untied (fun c => colorDistance Math_pow c.(color) darkBackground)
            (filter (contrasts Math_pow darkBackground) colors).
Proof.
  intros [NL _] UD sorted third.
  destruct colors as [|c0 colors]; [split; apply untied_nil|].
  assert (Is : forall x, In x sorted <-> In x (c0 :: colors)).
  { intros x. unfold sorted, sortColorsByLuminance, sort. apply sort_by_in. }
  assert (Len : (1 <= List.length sorted)%nat).
  { unfold sorted, sortColorsByLuminance, sort. rewrite sort_by_length. cbn [List.length]. lia. }
  assert (S : descending (fun c => getLuminance Math_pow c.(color)) sorted).
  { apply (sort_descending (fun c : ColorWithFrequency => getLuminance Math_pow c.(color))).
    apply forallb_forall. intros x Hx. apply negb_true_iff, NL, Hx. }
  pose proof (third_bounds _ Len) as T. fold third in T.
  clearbody third sorted. cbv zeta.
  split.
  - unfold slice_first. rewrite hd_error_firstn by lia.
    destruct (hd_error sorted) as [x|] eqn:E; [|destruct sorted; [cbn in Len; lia|discriminate]].
    apply UD.
    + apply Is. destruct sorted; [discriminate|]. injection E as ->. left. reflexivity.
    + left. intros c Hc. apply (descending_head _ sorted x S E), Is, Hc.
  - rewrite last_slice_last by lia.
    destruct (hd_error (rev sorted)) as [x|] eqn:E.
    + apply UD.
      * apply Is, in_rev. destruct (rev sorted); [discriminate|].
        injection E as ->. left. reflexivity.
      * right. intros c Hc. apply (descending_last _ sorted x S E), Is, Hc.
    + exfalso. destruct (rev sorted) eqn:R; [|discriminate].
      apply (f_equal (@List.length _)) in R. rewrite length_rev in R. cbn in R. lia.
Qed.

Lemma generateTheme_palette (l l' : list string) :
  Permutation (colorMap l) (colorMap l') -> no_ties Math_pow (colorMap l) ->
  generateTheme Math_pow l = generateTheme Math_pow l'.
Proof.
  intros P (UL & UF & UC & UD & UB & St).
  pose proof (sortColorsByLuminance_perm _ _ P UL) as H1.
  pose proof (findPrimaryColor_perm _ _ P UC UB St) as H2.
  pose proof (fun h => findAccentColor_perm h _ _ P UF) as H4.
  pose proof (sortedColors_perm _ _ P UF) as H5.
  destruct (backgrounds_untied (colorMap l) UL UD) as [UbL UbD]. cbv zeta in UbL, UbD.
  pose proof (findForegroundColor_perm _ _ _ P UbL) as H3L.
  pose proof (findForegroundColor_perm _ _ _ P UbD) as H3D.
  unfold generateTheme. cbv zeta.
  rewrite <- H1, <- H2, <- H5, <- H3L, <- H3D, <- !H4. reflexivity.
Qed.

(** Two arrangements of the same elements in which a key without
    duplicates comes in the same order are the same list. *)
Lemma perm_same_keys {A B} (f : A -> B) (a : list A) : forall b,
  Permutation a b -> NoDup (map f a) -> map f a = map f b -> a = b.
Proof.
  induction a as [|x a IH]; intros b P ND E.
  - apply Permutation_nil in P. subst. reflexivity.
  - destruct b as [|y b]; [discriminate|]. cbn [map] in E. injection E as Ex Eb.
    inversion ND as [|? ? Hn ND']; subst.
    assert (Hx : In x (y :: b)) by (apply (Permutation_in _ P); left; reflexivity).
    destruct Hx as [->|Hx].
    + f_equal. apply IH; [eapply Permutation_cons_inv, P|exact ND'|exact Eb].
    + exfalso. apply Hn. rewrite Eb. apply in_map, Hx.
Qed.

(** Texts that parse to colours of integer channels from 0 to 255, as the
    hex forms and the names do, have distinct keys. *)
Lemma eightBit_distinct_keys (l : list string) :
  (forall s c, In s l -> parseColor s = Some c -> eightBit c) -> distinct_keys l.
Proof.
  intros H s s' c c' Hs Hs' E E' Ek.
  destruct (H s c Hs E) as (R & G & B & HR & HG & HB & ->).
  destruct (H s' c' Hs' E') as (R' & G' & B' & HR' & HG' & HB' & ->).
  pose proof (Hex.parse_hexOf R G B HR HG HB) as P1.
  pose proof (Hex.parse_hexOf R' G' B' HR' HG' HB') as P2.
  rewrite Ek in P1. congruence.
Qed.

Lemma has_keys key m : has key m = existsb (String.eqb key) (map hex m).
Proof.
  unfold has. induction m as [|c m IH]; [reflexivity|].
  cbn [existsb map]. rewrite IH, (String.eqb_sym c.(hex) key). reflexivity.
Qed.

(** The palette lists the keys in the order of their first occurrences. *)
Lemma colorMap_firstKeys l : map hex (colorMap l) = firstKeys l.
Proof.
  induction l as [|s l IH] using rev_ind; [reflexivity|].
  rewrite colorMap_snoc. unfold firstKeys. rewrite fold_left_app. cbn [fold_left].
  fold (firstKeys l). rewrite <- IH. unfold addColor, keyOf.
  destruct (parseColor s) as [rgb|]; [|reflexivity]. cbn [option_map].
  rewrite <- has_keys. destruct (has (hexOf rgb) (colorMap l)).
  - apply increment_keys.
  - rewrite map_app. reflexivity.
Qed.

(** C2, amended: the entries of the palette, keys and frequencies, do not
    depend on the order of the input.  When no two different colours of the
    input have the same key, the theme does not depend on it either in two
    cases: when no two colours of the palette tie in a key of a sort and no
    two hue buckets tie in score, the scores being steady; and when the
    colours come first in the same order in both inputs. *)
Theorem theme_order_independent (l l' : list string) :
  Permutation l l' ->
  Permutation (map entry (colorMap l)) (map entry (colorMap l'))
  /\ (distinct_keys l ->
      (no_ties Math_pow (colorMap l) -> generateTheme Math_pow l = generateTheme Math_pow l')
      /\ (firstKeys l = firstKeys l' ->
          generateTheme Math_pow l = generateTheme Math_pow l')).
Proof.
  intros P. split; [apply Palette.palette_order_independent, P|].
  intros D. pose proof (colorMap_perm l l' P D) as Pc. split.
  - intros T. apply generateTheme_palette; assumption.
  - intros E. rewrite <- !colorMap_firstKeys in E. unfold generateTheme.
    rewrite (perm_same_keys hex _ _ Pc (keys_distinct _ _ (colorMap_tallies l)) E).
    reflexivity.
Qed.

End Themes.


Ltac in_cases H :=
  repeat (destruct H as [<-|H]); try (destruct H).

Ltac untied_by_computation :=
  split;
  [ let Ha := fresh in intros ? Ha; in_cases Ha; vm_compute; reflexivity
  | let Ha := fresh in let Hb := fresh in let H1 := fresh in let H2 := fresh in
    intros ? ? Ha Hb H1 H2; in_cases Ha; in_cases Hb; try reflexivity;
    vm_compute in H1; vm_compute in H2; first [discriminate H1|discriminate H2] ].

(** A blue once, an orange twice and a green three times, and the same
    texts from the last to the first: nothing ties.  A blue twice and a
    green once, which tie in luminance order or in score, with the blue
    first in both inputs. *)
Lemma theme_order_independent_example :
  let l := ["#3366cc"; "#cc4411"; "#cc4411"; "#22aa55"; "#22aa55"; "#22aa55"] in
  let l' := ["#22aa55"; "#22aa55"; "#22aa55"; "#cc4411"; "#cc4411"; "#3366cc"] in
  let m := ["#0000ff"; "#00ff00"; "#0000ff"] in
  let m' := ["#0000ff"; "#0000ff"; "#00ff00"] in
  (Permutation l l' /\ generateTheme sample_pow l = generateTheme sample_pow l')
  /\ (Permutation m m' /\ firstKeys m = firstKeys m'
      /\ generateTheme sample_pow m = generateTheme sample_pow m').
Proof.
  intros l l' m m'. split.
  2:{ assert (P : Permutation m m') by apply perm_skip, perm_swap.
      assert (F : firstKeys m = firstKeys m') by (vm_compute; reflexivity).
      split; [exact P|]. split; [exact F|].
      assert (D : distinct_keys m).
      { apply eightBit_distinct_keys.
        intros s c [<-|[<-|[<-|[]]]] E; vm_compute in E; injection E as <-;
          first [ exists 0%nat, 0%nat, 255%nat; repeat split; lia
                | exists 0%nat, 255%nat, 0%nat; repeat split; lia ]. }
      exact (proj2 (proj2 (theme_order_independent sample_pow m m' P) D) F). }
  assert (P : Permutation l l') by apply Permutation_rev.
  split; [exact P|].
  assert (D : distinct_keys l).
  { apply eightBit_distinct_keys.
    intros s c [<-|[<-|[<-|[<-|[<-|[<-|[]]]]]]] E; vm_compute in E; injection E as <-;
      first [ exists 51%nat, 102%nat, 204%nat; repeat split; lia
            | exists 204%nat, 68%nat, 17%nat; repeat split; lia
            | exists 34%nat, 170%nat, 85%nat; repeat split; lia ]. }
  apply (proj1 (proj2 (theme_order_independent sample_pow l l' P) D)).
  unfold no_ties.
  assert (E : colorMap l
              = [ {| color := {| r := 51; g := 102; b := 204 |};
                     hsl := {| h := 220; s := 60; ColorUtils.l := 50 |};
                     frequency := 1; hex := "#3366cc" |};
                  {| color := {| r := 204; g := 68; b := 17 |};
                     hsl := {| h := 16.4; s := 84.6; ColorUtils.l := 43.3 |};
                     frequency := 2; hex := "#cc4411" |};
                  {| color := {| r := 34; g := 170; b := 85 |};
                     hsl := {| h := 142.5; s := 66.7; ColorUtils.l := 40 |};
                     frequency := 3; hex := "#22aa55" |} ]%float)
    by (vm_compute; reflexivity).
  rewrite E.
  set (blue := {| color := {| r := 51; g := 102; b := 204 |};
                  hsl := {| h := 220; s := 60; ColorUtils.l := 50 |};
                  frequency := 1; hex := "#3366cc" |}%float).
  set (orange := {| color := {| r := 204; g := 68; b := 17 |};
                    hsl := {| h := 16.4; s := 84.6; ColorUtils.l := 43.3 |};
                    frequency := 2; hex := "#cc4411" |}%float).
  set (green := {| color := {| r := 34; g := 170; b := 85 |};
                   hsl := {| h := 142.5; s := 66.7; ColorUtils.l := 40 |};
                   frequency := 3; hex := "#22aa55" |}%float).
  assert (G : groupColorsByHue [blue; orange; green]
              = [(210, [blue]); (30, [orange]); (150, [green])]%float)
    by (vm_compute; reflexivity).
  rewrite G.
  split; [untied_by_computation|].
  split; [untied_by_computation|].
  split; [intros k cs [H|[H|[H|[]]]]; injection H as <- <-; untied_by_computation|].
  split; [intros bg [<-|[<-|[<-|[]]]] _; untied_by_computation|].
  split; [untied_by_computation|].
  intros k cs cs' [H|[H|[H|[]]]] Q; injection H as <- <-;
    apply Permutation_length_1_inv in Q; subst cs'; reflexivity.
Defined.

End Permuted.
